(** * The LV2 plugin host of Rosegarden: LV2PluginInstance

    A shallow embedding of src/sound/LV2PluginInstance.cpp.  The class binds
    one LV2 plugin to an (instrument, position) slot, owns the port buffers,
    queues time-stamped MIDI events and drives the plugin once per audio
    block.

    The plugin behind lilv, the ALSA MIDI decoder and the LV2Utils singleton
    are foreign to the class.  They appear here as interfaces, and the calls
    the class makes into the plugin, the atom buffers, the allocator and the
    LV2Utils lock and registry are recorded in program order, so that a
    property such as "no activate after a failed instantiate" is a property
    of that record.

    Embedded: the constructor and the destructor, init, instantiate,
    connectPorts, activate, deactivate, cleanup, silence,
    setIdealChannelCount, setPortValue (both overloads), getPortValue,
    sendEvent, discardEvents, run, getLatency, setPortByteArray,
    getControlInValues and getControlOutValues.  Left out: runWork,
    numInstances and the plain accessors, which none of the properties
    below is about. *)

From Stdlib Require Import ZArith List Bool Lia SpecFloat String Permutation.
From stdpp Require Import base option list sorting.
From Equations Require Import Equations.

Local Open Scope Z_scope.

(** ** Samples and control values: C++ [float] and [double]

    [sample_t] and the control values are IEEE binary32; the constant [2.0]
    of the down-mix is a binary64.  Both are [spec_float] with the
    precision and exponent range of their format. *)

Definition float := spec_float.

Definition f32_of_Z (m e : Z) : float := binary_normalize 24 128 m e false.
Definition f64_of_Z (m e : Z) : float := binary_normalize 53 1024 m e false.

(** float -> double, exact; double -> float, round to nearest even. *)
Definition double_of_float (x : float) : float :=
  match x with
  | S754_finite s m e => binary_round 53 1024 s m e
  | _ => x
  end.

Definition float_of_double (x : float) : float :=
  match x with
  | S754_finite s m e => binary_round 24 128 s m e
  | _ => x
  end.

Definition float_add : float -> float -> float := SFadd 24 128.
Definition double_div : float -> float -> float := SFdiv 53 1024.
(** [a < b] and [a > b] on floats: false as soon as one side is a NaN. *)
Definition float_lt (a b : float) : bool := SFltb a b.
Definition float_gt (a b : float) : bool := SFltb b a.

(** The value clamped to a range, in the words of the spec: what
    [std::clamp] returns.  It is compared below with the two tests of
    setPortValue. *)
Definition clamp (lo hi v : float) : float :=
  if float_lt v lo then lo else if float_lt hi v then hi else v.

Definition float_zero : float := S754_zero false.
Definition double_two : float := f64_of_Z 2 0.

(** ** Time

    Modelled from the spec: RealTime (base/RealTime.h is not among the
    sources) is the absolute time of an event or of a block start.  It is
    kept as a whole number of nanoseconds; [<] and [-] are those of the
    integers. *)
Definition RealTime := Z.

Definition ONE_BILLION : Z := 1000000000.

(** Modelled from the spec: RealTime::realTime2Frame, "round((eventTime -
    blockStartTime) x sampleRate)", the duration being in seconds.  A
    negative duration is mirrored, as a signed frame count. *)
Definition realTime2Frame (time : RealTime) (sampleRate : Z) : Z :=
  if time <? 0
  then - ((- time * sampleRate + ONE_BILLION / 2) / ONE_BILLION)
  else (time * sampleRate + ONE_BILLION / 2) / ONE_BILLION.

(** The cast [(size_t)] of a [long]: a negative value wraps to the top of
    the 64-bit range. *)
Definition size_t_of_long (x : Z) : Z := if x <? 0 then x + 2 ^ 64 else x.

(** ** [std::map] with integer keys

    Both maps of the class ([std::map<RealTime, snd_seq_event_t>] and
    [std::map<int, float>]) are kept as the list of their entries in key
    order, which is the order in which [begin()] and [++] walk them. *)
Section StdMap.
Context {V : Type}.

Definition std_map := list (Z * V).

  (** [m[k] = v]: insert, or overwrite the entry of an equal key. *)
Fixpoint map_assign (k : Z) (v : V) (m : std_map) : std_map :=
    match m with
    | [] => [(k, v)]
    | (k', v') :: rest =>
        if k <? k' then (k, v) :: m
        else if k' <? k then (k', v') :: map_assign k v rest
        else (k, v) :: rest
    end.

  (** [m.find(k)]: [None] stands for [end()]. *)
Fixpoint map_find (k : Z) (m : std_map) : option V :=
    match m with
    | [] => None
    | (k', v') :: rest => if k =? k' then Some v' else map_find k rest
    end.

  (** The representation invariant of the map: keys strictly increasing. *)
Fixpoint ordered (m : std_map) : bool :=
    match m with
    | [] => true
    | (k, _) :: rest =>
        match rest with
        | [] => true
        | (k', _) :: _ => (k <? k') && ordered rest
        end
    end.

Definition keys (m : std_map) : list Z := map fst m.

(** The entries stored under one key. *)
Definition entries_at (k : Z) (m : std_map) : std_map :=
  List.filter (fun p => fst p =? k) m.
End StdMap.
Arguments std_map : clear implicits.

(** ** Atom sequences (lv2/atom/util.h)

    An event as it lies in a sequence buffer: the frame stamp, then the
    atom header (size, type) and the body bytes. *)
Record LV2_Atom_Event := mkAtomEvent {
  time_frames : Z;
  body_size : Z;
  body_type : Z;
  body_data : list Z
}.

(** A sequence buffer.  [atom_size] and [atom_type] are the fields of its
    header.  The bytes of the body are held as the events that lie in
    them, from the first event on: [seq_events] are the events a reader
    finds, those that start before [atom.size], and [seq_beyond] the
    events that lie behind them, which a reader comes to find when
    [atom.size] is raised.  Bytes that are zero read as events of size 0
    and type 0 at frame 0. *)
Record LV2_Atom_Sequence := mkAtomSeq {
  atom_size : Z;
  atom_type : Z;
  seq_events : list LV2_Atom_Event;
  seq_beyond : list LV2_Atom_Event
}.

Definition ABUFSIZED : Z := 100000.
Definition sizeof_LV2_Atom_Event : Z := 16.
Definition sizeof_LV2_Atom_Sequence_Body : Z := 8.

(** [(size + 7) & ~7] *)
Definition lv2_atom_pad_size (size : Z) : Z := Z.land (size + 7) (Z.lnot 7).

(** lv2_atom_sequence_next: an event and the next one are the event
    header and the padded body apart (the padded size is a uint32_t). *)
Definition lv2_atom_event_extent (event : LV2_Atom_Event) : Z :=
  sizeof_LV2_Atom_Event + lv2_atom_pad_size (body_size event) mod 2 ^ 32.

(** LV2_ATOM_SEQUENCE_FOREACH on the events that lie in a body: the walk
    starts at the first event, [sizeof(LV2_Atom_Sequence_Body)] bytes into
    the body, and goes on while the event starts before [size]. *)
Fixpoint lv2_atom_sequence_walk (offset size : Z) (events : list LV2_Atom_Event)
  : list LV2_Atom_Event :=
  match events with
  | [] => []
  | event :: rest =>
      if offset <? size
      then event :: lv2_atom_sequence_walk (offset + lv2_atom_event_extent event) size rest
      else []
  end.

Definition lv2_atom_sequence_foreach (seq : LV2_Atom_Sequence) : list LV2_Atom_Event :=
  lv2_atom_sequence_walk sizeof_LV2_Atom_Sequence_Body (atom_size seq)
                         (seq_events seq ++ seq_beyond seq).

(** seq->atom.size = size.  The bytes of the body stay as they are; what
    changes is how far a reader walks. *)
Definition set_atom_size (size : Z) (seq : LV2_Atom_Sequence) : LV2_Atom_Sequence :=
  let body := seq_events seq ++ seq_beyond seq in
  let found := lv2_atom_sequence_walk sizeof_LV2_Atom_Sequence_Body size body in
  mkAtomSeq size (atom_type seq) found (drop (length found) body).

(** seq->atom.size = sizeof(LV2_Atom_Sequence_Body) *)
Definition lv2_atom_sequence_clear (seq : LV2_Atom_Sequence) : LV2_Atom_Sequence :=
  set_atom_size sizeof_LV2_Atom_Sequence_Body seq.

(** Appends unless the event does not fit, in which case the C function
    returns NULL and leaves the sequence as it is.  The sizes are uint32_t.
    The event is copied to the end of what a reader finds; it overwrites
    what lay there, and what is left behind it is not followed further
    (the class raises [atom.size] of a sequence it has appended to by
    further appends only). *)
Definition lv2_atom_sequence_append_event
    (seq : LV2_Atom_Sequence) (capacity : Z) (event : LV2_Atom_Event)
  : option LV2_Atom_Sequence :=
  let total_size := (sizeof_LV2_Atom_Event + body_size event) mod 2 ^ 32 in
  if (capacity - atom_size seq) mod 2 ^ 32 <? total_size then None
  else Some (mkAtomSeq ((atom_size seq + lv2_atom_pad_size total_size) mod 2 ^ 32)
                       (atom_type seq)
                       (seq_events seq ++ [event]) []).

(** The body of a buffer of [8 * ABUFSIZED] zero bytes: behind the atom
    header (8 bytes) and the header of the sequence body (8 bytes), events
    of size 0, 16 bytes each, up to the end of the buffer. *)
Definition zero_event : LV2_Atom_Event := mkAtomEvent 0 0 0 [].

Definition zeroed_body : list LV2_Atom_Event :=
  replicate (Z.to_nat ((8 * ABUFSIZED - 8 - sizeof_LV2_Atom_Sequence_Body)
                       / sizeof_LV2_Atom_Event))
            zero_event.

Record AtomPort := mkAtomPort {
  index : Z;
  isMidi : bool;
  atomSeq : LV2_Atom_Sequence
}.

(** ** Port metadata (LV2Utils::LV2PortData)

    The declaration is in sound/LV2Utils.h, which is not among the sources;
    these are the fields and the enumerators the class reads.  The class
    names one protocol, LV2ATOM, and treats every other one alike:
    [LV2FLOAT] stands for those. *)
Inductive LV2PortType := LV2CONTROL | LV2AUDIO | LV2MIDI.
Inductive LV2PortProtocol := LV2FLOAT | LV2ATOM.

Record LV2PortData := mkPortData {
  name : string;
  portType : LV2PortType;
  portProtocol : LV2PortProtocol;
  isInput : bool;
  min : float;
  max : float
}.

Record LV2PluginData := mkPluginData {
  ports : list LV2PortData
}.

(** ** The buffers the plugin is connected to

    [m_inputBuffers] and [m_outputBuffers] hold one block of samples per
    audio port; the control maps hold one scalar per control port. *)
Record PortBuffers := mkBuffers {
  m_inputBuffers : list (list float);
  m_outputBuffers : list (list float);
  m_controlPortsIn : std_map float;
  m_controlPortsOut : std_map float;
  m_atomInputPorts : list AtomPort;
  m_atomOutputPorts : list AtomPort
}.

(** ** Worker jobs (LV2Utils::WorkerJob, LV2Utils::PluginPosition) *)
Record WorkerJob := mkJob {
  size : Z;
  data : list Z
}.

Record PluginPosition := mkPosition {
  instrument : Z;
  position : Z
}.

Definition PluginPosition_eqb (a b : PluginPosition) : bool :=
  (instrument a =? instrument b) && (position a =? position b).

(** A value of the plugin's default state, as [lilv_state_restore] hands
    it to the port-value callback: its atom type decides how the four
    bytes are read. *)
Inductive StateValue :=
| FloatValue (fval : float)
| IntValue (ival : Z)
| OtherValue (size type : Z).

(** ** What the class is connected to *)

(** The memory a [lilv_instance_connect_port] or a [delete[]] names. *)
Inductive Buffer :=
| InputBuffer (k : nat)
| OutputBuffer (k : nat)
| ControlIn (port : Z)
| ControlOut (port : Z)
| AtomIn (port : Z)
| AtomOut (port : Z).

(** The calls that leave the class, in program order:
    - lilv_plugin_instantiate, lilv_instance_connect_port,
      lilv_instance_activate, lilv_instance_deactivate, lilv_instance_free,
      lilv_instance_get_extension_data (with whether the instance passed
      is null) and lilv_instance_run (with the buffers as the plugin finds
      them);
    - work_response and end_run of the plugin's worker interface;
    - lv2_atom_sequence_append_event on an atom input port, whether or not
      the event fits;
    - LV2Utils::updatePortValue, registerPlugin, unRegisterPlugin, lock
      and unlock;
    - delete[] of a buffer. *)
Inductive Call :=
| CallInstantiate (sampleRate : Z)
| CallConnectPort (port : Z) (buf : Buffer)
| CallActivate
| CallDeactivate
| CallFree
| CallGetExtensionData (nullInstance : bool)
| CallRun (bufs : PortBuffers) (blockSize : Z)
| CallWorkResponse (job : WorkerJob)
| CallEndRun
| CallAppendEvent (port : Z) (event : LV2_Atom_Event)
| CallUpdatePortValue (port : Z) (event : LV2_Atom_Event)
| CallDeleteArray (buf : Buffer)
| CallRegisterPlugin (pp : PluginPosition)
| CallUnRegisterPlugin (pp : PluginPosition)
| CallLock
| CallUnlock.

(** The ALSA sequencer's MIDI coder.  The decoder keeps the running status
    between calls; it returns the byte count (zero or negative on failure)
    and the bytes it wrote. *)
Class AlsaMidi := {
  snd_seq_event_t : Type;
  snd_midi_event_t : Type;
  snd_midi_event_new : snd_midi_event_t;
  snd_midi_event_decode :
    snd_midi_event_t -> snd_seq_event_t -> snd_midi_event_t * (Z * list Z)
}.

(** The plugin behind lilv: an instance is opaque, and every callback may
    change it.  [lilv_instance_run] reads and writes the connected
    buffers; of an atom buffer it returns the size field and the events
    that lie in the body when the callback is done.
    [lilv_plugin_instantiate] answers by the URI and the sample rate: a
    plugin that refuses once refuses every time it is asked with the
    same two. *)
Record LV2_Worker_Interface (Instance : Type) := mkWorkerInterface {
  work_response : Instance -> WorkerJob -> Instance;
  end_run : option (Instance -> Instance)
}.
Arguments work_response {Instance}.
Arguments end_run {Instance}.

Class LV2Plugin := {
  LilvInstance : Type;
  lilv_plugin_instantiate : string -> Z -> option LilvInstance;
  lilv_instance_activate : LilvInstance -> LilvInstance;
  lilv_instance_deactivate : LilvInstance -> LilvInstance;
  lilv_instance_run : LilvInstance -> PortBuffers -> Z -> LilvInstance * PortBuffers;
  lilv_instance_get_extension_data :
    option LilvInstance -> option (LV2_Worker_Interface LilvInstance)
}.

(** The LV2Utils singleton: URID mapping and the catalogue.  Its worker's
    response queue is part of the state below. *)
Class LV2Utils := {
  uridMap : string -> Z;
  getPluginData : string -> LV2PluginData;
  getDefaultStateByUri : string -> list (Z * StateValue)
}.

Definition LV2_MIDI__MidiEvent : string := "http://lv2plug.in/ns/ext/midi#MidiEvent".
Definition LV2_ATOM__Sequence : string := "http://lv2plug.in/ns/ext/atom#Sequence".

(** Field updates of [PortBuffers]. *)
Definition set_m_inputBuffers (v : list (list float)) (b : PortBuffers) : PortBuffers :=
  {| m_inputBuffers := v; m_outputBuffers := m_outputBuffers b;
     m_controlPortsIn := m_controlPortsIn b;
     m_controlPortsOut := m_controlPortsOut b;
     m_atomInputPorts := m_atomInputPorts b;
     m_atomOutputPorts := m_atomOutputPorts b |}.

Definition set_m_outputBuffers (v : list (list float)) (b : PortBuffers) : PortBuffers :=
  {| m_inputBuffers := m_inputBuffers b; m_outputBuffers := v;
     m_controlPortsIn := m_controlPortsIn b;
     m_controlPortsOut := m_controlPortsOut b;
     m_atomInputPorts := m_atomInputPorts b;
     m_atomOutputPorts := m_atomOutputPorts b |}.

Definition set_m_controlPortsIn (v : std_map float) (b : PortBuffers) : PortBuffers :=
  {| m_inputBuffers := m_inputBuffers b;
     m_outputBuffers := m_outputBuffers b; m_controlPortsIn := v;
     m_controlPortsOut := m_controlPortsOut b;
     m_atomInputPorts := m_atomInputPorts b;
     m_atomOutputPorts := m_atomOutputPorts b |}.

Definition set_m_controlPortsOut (v : std_map float) (b : PortBuffers) : PortBuffers :=
  {| m_inputBuffers := m_inputBuffers b;
     m_outputBuffers := m_outputBuffers b;
     m_controlPortsIn := m_controlPortsIn b; m_controlPortsOut := v;
     m_atomInputPorts := m_atomInputPorts b;
     m_atomOutputPorts := m_atomOutputPorts b |}.

Definition set_m_atomInputPorts (v : list AtomPort) (b : PortBuffers) : PortBuffers :=
  {| m_inputBuffers := m_inputBuffers b;
     m_outputBuffers := m_outputBuffers b;
     m_controlPortsIn := m_controlPortsIn b;
     m_controlPortsOut := m_controlPortsOut b; m_atomInputPorts := v;
     m_atomOutputPorts := m_atomOutputPorts b |}.

Definition set_m_atomOutputPorts (v : list AtomPort) (b : PortBuffers) : PortBuffers :=
  {| m_inputBuffers := m_inputBuffers b;
     m_outputBuffers := m_outputBuffers b;
     m_controlPortsIn := m_controlPortsIn b;
     m_controlPortsOut := m_controlPortsOut b;
     m_atomInputPorts := m_atomInputPorts b; m_atomOutputPorts := v |}.

(** * The class *)
Section Instance.
Context `{AlsaMidi} `{LV2Plugin} `{LV2Utils}.

(** The members of LV2PluginInstance the operations below read or write.
    The audio, control and atom buffers are grouped in [m_buffers].  Two
    more fields stand for what the class reaches through LV2Utils: the
    response queue of the worker, and the record of the calls made so
    far. *)
Record LV2PluginInstance := mkInstance {
    m_instrument : Z;
    m_position : Z;
    m_instance : option LilvInstance;
    m_uri : string;
    m_pluginData : LV2PluginData;
    m_channelCount : Z;
    m_midiParser : snd_midi_event_t;
    m_midiEventUrid : Z;
    m_blockSize : Z;
    m_sampleRate : Z;
    m_latencyPort : option Z;
    m_run : bool;
    m_distributeChannels : bool;
    m_audioPortsIn : list Z;
    m_audioPortsOut : list Z;
    m_buffers : PortBuffers;
    m_eventBuffer : std_map snd_seq_event_t;
    m_workerInterface : option (LV2_Worker_Interface LilvInstance);
    workerResponses : list (PluginPosition * WorkerJob);
    calls : list Call
  }.

Definition set_m_instance (v : option LilvInstance) (st : LV2PluginInstance) : LV2PluginInstance :=
    {| m_instrument := m_instrument st; m_position := m_position st;
       m_instance := v; m_uri := m_uri st; m_pluginData := m_pluginData st;
       m_channelCount := m_channelCount st; m_midiParser := m_midiParser st;
       m_midiEventUrid := m_midiEventUrid st; m_blockSize := m_blockSize st;
       m_sampleRate := m_sampleRate st; m_latencyPort := m_latencyPort st;
       m_run := m_run st; m_distributeChannels := m_distributeChannels st;
       m_audioPortsIn := m_audioPortsIn st;
       m_audioPortsOut := m_audioPortsOut st; m_buffers := m_buffers st;
       m_eventBuffer := m_eventBuffer st;
       m_workerInterface := m_workerInterface st;
       workerResponses := workerResponses st; calls := calls st |}.

Definition set_m_channelCount (v : Z) (st : LV2PluginInstance) : LV2PluginInstance :=
    {| m_instrument := m_instrument st; m_position := m_position st;
       m_instance := m_instance st; m_uri := m_uri st;
       m_pluginData := m_pluginData st; m_channelCount := v;
       m_midiParser := m_midiParser st;
       m_midiEventUrid := m_midiEventUrid st; m_blockSize := m_blockSize st;
       m_sampleRate := m_sampleRate st; m_latencyPort := m_latencyPort st;
       m_run := m_run st; m_distributeChannels := m_distributeChannels st;
       m_audioPortsIn := m_audioPortsIn st;
       m_audioPortsOut := m_audioPortsOut st; m_buffers := m_buffers st;
       m_eventBuffer := m_eventBuffer st;
       m_workerInterface := m_workerInterface st;
       workerResponses := workerResponses st; calls := calls st |}.

Definition set_m_midiParser (v : snd_midi_event_t) (st : LV2PluginInstance) : LV2PluginInstance :=
    {| m_instrument := m_instrument st; m_position := m_position st;
       m_instance := m_instance st; m_uri := m_uri st;
       m_pluginData := m_pluginData st; m_channelCount := m_channelCount st;
       m_midiParser := v; m_midiEventUrid := m_midiEventUrid st;
       m_blockSize := m_blockSize st; m_sampleRate := m_sampleRate st;
       m_latencyPort := m_latencyPort st; m_run := m_run st;
       m_distributeChannels := m_distributeChannels st;
       m_audioPortsIn := m_audioPortsIn st;
       m_audioPortsOut := m_audioPortsOut st; m_buffers := m_buffers st;
       m_eventBuffer := m_eventBuffer st;
       m_workerInterface := m_workerInterface st;
       workerResponses := workerResponses st; calls := calls st |}.

Definition set_m_latencyPort (v : option Z) (st : LV2PluginInstance) : LV2PluginInstance :=
    {| m_instrument := m_instrument st; m_position := m_position st;
       m_instance := m_instance st; m_uri := m_uri st;
       m_pluginData := m_pluginData st; m_channelCount := m_channelCount st;
       m_midiParser := m_midiParser st;
       m_midiEventUrid := m_midiEventUrid st; m_blockSize := m_blockSize st;
       m_sampleRate := m_sampleRate st; m_latencyPort := v;
       m_run := m_run st; m_distributeChannels := m_distributeChannels st;
       m_audioPortsIn := m_audioPortsIn st;
       m_audioPortsOut := m_audioPortsOut st; m_buffers := m_buffers st;
       m_eventBuffer := m_eventBuffer st;
       m_workerInterface := m_workerInterface st;
       workerResponses := workerResponses st; calls := calls st |}.

Definition set_m_run (v : bool) (st : LV2PluginInstance) : LV2PluginInstance :=
    {| m_instrument := m_instrument st; m_position := m_position st;
       m_instance := m_instance st; m_uri := m_uri st;
       m_pluginData := m_pluginData st; m_channelCount := m_channelCount st;
       m_midiParser := m_midiParser st;
       m_midiEventUrid := m_midiEventUrid st; m_blockSize := m_blockSize st;
       m_sampleRate := m_sampleRate st; m_latencyPort := m_latencyPort st;
       m_run := v; m_distributeChannels := m_distributeChannels st;
       m_audioPortsIn := m_audioPortsIn st;
       m_audioPortsOut := m_audioPortsOut st; m_buffers := m_buffers st;
       m_eventBuffer := m_eventBuffer st;
       m_workerInterface := m_workerInterface st;
       workerResponses := workerResponses st; calls := calls st |}.

Definition set_m_distributeChannels (v : bool) (st : LV2PluginInstance) : LV2PluginInstance :=
    {| m_instrument := m_instrument st; m_position := m_position st;
       m_instance := m_instance st; m_uri := m_uri st;
       m_pluginData := m_pluginData st; m_channelCount := m_channelCount st;
       m_midiParser := m_midiParser st;
       m_midiEventUrid := m_midiEventUrid st; m_blockSize := m_blockSize st;
       m_sampleRate := m_sampleRate st; m_latencyPort := m_latencyPort st;
       m_run := m_run st; m_distributeChannels := v;
       m_audioPortsIn := m_audioPortsIn st;
       m_audioPortsOut := m_audioPortsOut st; m_buffers := m_buffers st;
       m_eventBuffer := m_eventBuffer st;
       m_workerInterface := m_workerInterface st;
       workerResponses := workerResponses st; calls := calls st |}.

Definition set_m_audioPortsIn (v : list Z) (st : LV2PluginInstance) : LV2PluginInstance :=
    {| m_instrument := m_instrument st; m_position := m_position st;
       m_instance := m_instance st; m_uri := m_uri st;
       m_pluginData := m_pluginData st; m_channelCount := m_channelCount st;
       m_midiParser := m_midiParser st;
       m_midiEventUrid := m_midiEventUrid st; m_blockSize := m_blockSize st;
       m_sampleRate := m_sampleRate st; m_latencyPort := m_latencyPort st;
       m_run := m_run st; m_distributeChannels := m_distributeChannels st;
       m_audioPortsIn := v; m_audioPortsOut := m_audioPortsOut st;
       m_buffers := m_buffers st; m_eventBuffer := m_eventBuffer st;
       m_workerInterface := m_workerInterface st;
       workerResponses := workerResponses st; calls := calls st |}.

Definition set_m_audioPortsOut (v : list Z) (st : LV2PluginInstance) : LV2PluginInstance :=
    {| m_instrument := m_instrument st; m_position := m_position st;
       m_instance := m_instance st; m_uri := m_uri st;
       m_pluginData := m_pluginData st; m_channelCount := m_channelCount st;
       m_midiParser := m_midiParser st;
       m_midiEventUrid := m_midiEventUrid st; m_blockSize := m_blockSize st;
       m_sampleRate := m_sampleRate st; m_latencyPort := m_latencyPort st;
       m_run := m_run st; m_distributeChannels := m_distributeChannels st;
       m_audioPortsIn := m_audioPortsIn st; m_audioPortsOut := v;
       m_buffers := m_buffers st; m_eventBuffer := m_eventBuffer st;
       m_workerInterface := m_workerInterface st;
       workerResponses := workerResponses st; calls := calls st |}.

Definition set_m_buffers (v : PortBuffers) (st : LV2PluginInstance) : LV2PluginInstance :=
    {| m_instrument := m_instrument st; m_position := m_position st;
       m_instance := m_instance st; m_uri := m_uri st;
       m_pluginData := m_pluginData st; m_channelCount := m_channelCount st;
       m_midiParser := m_midiParser st;
       m_midiEventUrid := m_midiEventUrid st; m_blockSize := m_blockSize st;
       m_sampleRate := m_sampleRate st; m_latencyPort := m_latencyPort st;
       m_run := m_run st; m_distributeChannels := m_distributeChannels st;
       m_audioPortsIn := m_audioPortsIn st;
       m_audioPortsOut := m_audioPortsOut st; m_buffers := v;
       m_eventBuffer := m_eventBuffer st;
       m_workerInterface := m_workerInterface st;
       workerResponses := workerResponses st; calls := calls st |}.

Definition set_m_eventBuffer (v : std_map snd_seq_event_t) (st : LV2PluginInstance) : LV2PluginInstance :=
    {| m_instrument := m_instrument st; m_position := m_position st;
       m_instance := m_instance st; m_uri := m_uri st;
       m_pluginData := m_pluginData st; m_channelCount := m_channelCount st;
       m_midiParser := m_midiParser st;
       m_midiEventUrid := m_midiEventUrid st; m_blockSize := m_blockSize st;
       m_sampleRate := m_sampleRate st; m_latencyPort := m_latencyPort st;
       m_run := m_run st; m_distributeChannels := m_distributeChannels st;
       m_audioPortsIn := m_audioPortsIn st;
       m_audioPortsOut := m_audioPortsOut st; m_buffers := m_buffers st;
       m_eventBuffer := v; m_workerInterface := m_workerInterface st;
       workerResponses := workerResponses st; calls := calls st |}.

Definition set_m_workerInterface (v : option (LV2_Worker_Interface LilvInstance)) (st : LV2PluginInstance) : LV2PluginInstance :=
    {| m_instrument := m_instrument st; m_position := m_position st;
       m_instance := m_instance st; m_uri := m_uri st;
       m_pluginData := m_pluginData st; m_channelCount := m_channelCount st;
       m_midiParser := m_midiParser st;
       m_midiEventUrid := m_midiEventUrid st; m_blockSize := m_blockSize st;
       m_sampleRate := m_sampleRate st; m_latencyPort := m_latencyPort st;
       m_run := m_run st; m_distributeChannels := m_distributeChannels st;
       m_audioPortsIn := m_audioPortsIn st;
       m_audioPortsOut := m_audioPortsOut st; m_buffers := m_buffers st;
       m_eventBuffer := m_eventBuffer st; m_workerInterface := v;
       workerResponses := workerResponses st; calls := calls st |}.

Definition set_workerResponses (v : list (PluginPosition * WorkerJob)) (st : LV2PluginInstance) : LV2PluginInstance :=
    {| m_instrument := m_instrument st; m_position := m_position st;
       m_instance := m_instance st; m_uri := m_uri st;
       m_pluginData := m_pluginData st; m_channelCount := m_channelCount st;
       m_midiParser := m_midiParser st;
       m_midiEventUrid := m_midiEventUrid st; m_blockSize := m_blockSize st;
       m_sampleRate := m_sampleRate st; m_latencyPort := m_latencyPort st;
       m_run := m_run st; m_distributeChannels := m_distributeChannels st;
       m_audioPortsIn := m_audioPortsIn st;
       m_audioPortsOut := m_audioPortsOut st; m_buffers := m_buffers st;
       m_eventBuffer := m_eventBuffer st;
       m_workerInterface := m_workerInterface st; workerResponses := v;
       calls := calls st |}.

Definition set_calls (v : list Call) (st : LV2PluginInstance) : LV2PluginInstance :=
    {| m_instrument := m_instrument st; m_position := m_position st;
       m_instance := m_instance st; m_uri := m_uri st;
       m_pluginData := m_pluginData st; m_channelCount := m_channelCount st;
       m_midiParser := m_midiParser st;
       m_midiEventUrid := m_midiEventUrid st; m_blockSize := m_blockSize st;
       m_sampleRate := m_sampleRate st; m_latencyPort := m_latencyPort st;
       m_run := m_run st; m_distributeChannels := m_distributeChannels st;
       m_audioPortsIn := m_audioPortsIn st;
       m_audioPortsOut := m_audioPortsOut st; m_buffers := m_buffers st;
       m_eventBuffer := m_eventBuffer st;
       m_workerInterface := m_workerInterface st;
       workerResponses := workerResponses st; calls := v |}.

Definition record_call (c : Call) (st : LV2PluginInstance) : LV2PluginInstance :=
  set_calls (calls st ++ [c]) st.

Definition record_calls (cs : list Call) (st : LV2PluginInstance) : LV2PluginInstance :=
  set_calls (calls st ++ cs) st.

Definition pluginPosition (st : LV2PluginInstance) : PluginPosition :=
  mkPosition (m_instrument st) (m_position st).

(** Modelled from the spec: isOK (defined in LV2PluginInstance.h, which is
    not among the sources).  The instance is runnable when instantiation
    returned a handle, and non-runnable when it returned null. *)
Definition isOK (st : LV2PluginInstance) : bool :=
  match m_instance st with
  | Some _ => true
  | None => false
  end.

(** ** init: the port classifier *)

(** A fresh atom port: the buffer is zeroed, the sequence is cleared and
    typed, and its size field is set to the room of the buffer, so that a
    reader walks the whole of the zeroed body. *)
Definition new_atom_port (i : Z) (portData : LV2PortData) : AtomPort :=
  let seq := lv2_atom_sequence_clear (mkAtomSeq 0 0 [] zeroed_body) in
  let seq := mkAtomSeq (atom_size seq) (uridMap LV2_ATOM__Sequence)
                       (seq_events seq) (seq_beyond seq) in
  mkAtomPort i
    (match portType portData with LV2MIDI => true | _ => false end)
    (set_atom_size (8 * ABUFSIZED - 8) seq).

(** The body of the loop over the ports, for port [i]. *)
Definition init_port (i : Z) (portData : LV2PortData) (st : LV2PluginInstance)
  : LV2PluginInstance :=
  let b := m_buffers st in
  match portType portData with
  | LV2AUDIO =>
      if isInput portData
      then set_m_audioPortsIn (m_audioPortsIn st ++ [i]) st
      else set_m_audioPortsOut (m_audioPortsOut st ++ [i]) st
  | LV2CONTROL | LV2MIDI =>
      match portProtocol portData with
      | LV2ATOM =>
          if isInput portData
          then set_m_buffers
                 (set_m_atomInputPorts
                    (m_atomInputPorts b ++ [new_atom_port i portData]) b) st
          else set_m_buffers
                 (set_m_atomOutputPorts
                    (m_atomOutputPorts b ++ [new_atom_port i portData]) b) st
      | LV2FLOAT =>
          if isInput portData
          then set_m_buffers
                 (set_m_controlPortsIn
                    (map_assign i float_zero (m_controlPortsIn b)) b) st
          else
            let st' := set_m_buffers
                         (set_m_controlPortsOut
                            (map_assign i float_zero (m_controlPortsOut b)) b) st in
            if (String.eqb (name portData) "latency"
                || String.eqb (name portData) "_latency")%bool
            then set_m_latencyPort (Some i) st'
            else st'
      end
  end.

Fixpoint init_ports (i : Z) (ps : list LV2PortData) (st : LV2PluginInstance)
  : LV2PluginInstance :=
  match ps with
  | [] => st
  | portData :: rest => init_ports (i + 1) rest (init_port i portData st)
  end.

Definition init (idealChannelCount : Z) (st : LV2PluginInstance) : LV2PluginInstance :=
  let st := set_m_channelCount idealChannelCount st in
  let st := init_ports 0 (ports (m_pluginData st)) st in
  let st := set_m_distributeChannels false st in
  if ((Z.of_nat (length (m_audioPortsIn st)) =? 1)
      && (Z.of_nat (length (m_audioPortsOut st)) =? 1)
      && (m_channelCount st =? 2))%bool
  then set_m_distributeChannels true
         (set_m_audioPortsOut (m_audioPortsOut st ++ [-1])
            (set_m_audioPortsIn (m_audioPortsIn st ++ [-1]) st))
  else st.

(** ** Life cycle *)

(** instantiate: the feature and option tables it builds are handed to the
    plugin as they are and do not reach the rest of the class; what is
    kept is the handle, null on failure. *)
Definition instantiate (sampleRate : Z) (st : LV2PluginInstance) : LV2PluginInstance :=
  let st := record_call (CallInstantiate sampleRate) st in
  set_m_instance (lilv_plugin_instantiate (m_uri st) sampleRate) st.

Definition activate (st : LV2PluginInstance) : LV2PluginInstance :=
  set_m_instance (lilv_instance_activate <$> m_instance st)
    (record_call CallActivate st).

Definition deactivate (st : LV2PluginInstance) : LV2PluginInstance :=
  set_m_instance (lilv_instance_deactivate <$> m_instance st)
    (record_call CallDeactivate st).

(** cleanup frees the lilv instance; the member keeps the old pointer. *)
Definition cleanup (st : LV2PluginInstance) : LV2PluginInstance :=
  record_call CallFree st.

(** ** Control ports *)

Definition setPortValue (portNumber : Z) (value : float) (st : LV2PluginInstance)
  : LV2PluginInstance :=
  let b := m_buffers st in
  match map_find portNumber (m_controlPortsIn b) with
  | None => st
  | Some _ =>
      match ports (m_pluginData st) !! Z.to_nat portNumber with
      | Some portData =>
          let value := if float_lt value (min portData) then min portData else value in
          let value := if float_gt value (max portData) then max portData else value in
          set_m_buffers
            (set_m_controlPortsIn
               (map_assign portNumber value (m_controlPortsIn b)) b) st
      | None => st (* no such element of the vector: init never makes such a key *)
      end
  end.

Definition getPortValue (portNumber : Z) (st : LV2PluginInstance) : float :=
  match map_find portNumber (m_controlPortsIn (m_buffers st)) with
  | None => float_zero
  | Some v => v
  end.

(** (float)ival *)
Definition float_of_int (ival : Z) : float := f32_of_Z ival 0.

(** The overload that [lilv_state_restore] calls back, with the port symbol
    already resolved to its index. *)
Definition setPortValue_state (portIndex : Z) (value : StateValue) (st : LV2PluginInstance)
  : LV2PluginInstance :=
  match value with
  | FloatValue fval => setPortValue portIndex fval st
  | IntValue ival => setPortValue portIndex (float_of_int ival) st
  | OtherValue _ _ => st
  end.

(** ** connectPorts *)

(** The two loops over the audio ports: a port number -1 is skipped and
    takes no buffer. *)
Fixpoint connect_audio (mk : nat -> Buffer) (audioPorts : list Z) (buf : nat) : list Call :=
  match audioPorts with
  | [] => []
  | p :: rest =>
      if p =? -1 then connect_audio mk rest buf
      else CallConnectPort p (mk buf) :: connect_audio mk rest (S buf)
  end.

Definition connect_calls (st : LV2PluginInstance) : list Call :=
  let b := m_buffers st in
  connect_audio InputBuffer (m_audioPortsIn st) 0
  ++ connect_audio OutputBuffer (m_audioPortsOut st) 0
  ++ map (fun pair => CallConnectPort (fst pair) (ControlIn (fst pair))) (m_controlPortsIn b)
  ++ map (fun pair => CallConnectPort (fst pair) (ControlOut (fst pair))) (m_controlPortsOut b)
  ++ map (fun aip => CallConnectPort (index aip) (AtomIn (index aip))) (m_atomInputPorts b)
  ++ map (fun aop => CallConnectPort (index aop) (AtomOut (index aop))) (m_atomOutputPorts b).

Definition connectPorts (st : LV2PluginInstance) : LV2PluginInstance :=
  let st := record_calls (connect_calls st) st in
  fold_left (fun st pv => setPortValue_state (fst pv) (snd pv) st)
            (getDefaultStateByUri (m_uri st)) st.

(** ** sendEvent and discardEvents *)

Definition sendEvent (eventTime : RealTime) (event : snd_seq_event_t)
    (st : LV2PluginInstance) : LV2PluginInstance :=
  set_m_eventBuffer (map_assign eventTime event (m_eventBuffer st)) st.

Definition discardEvents (st : LV2PluginInstance) : LV2PluginInstance :=
  set_m_eventBuffer [] st.

(** ** setIdealChannelCount and silence *)

Definition setIdealChannelCount (channels : Z) (st : LV2PluginInstance)
  : LV2PluginInstance :=
  if channels =? m_channelCount st then st
  else
    let st := if isOK st then deactivate st else st in
    let st := cleanup st in
    let st := instantiate (m_sampleRate st) st in
    if isOK st then activate (connectPorts st) else st.

Definition silence (st : LV2PluginInstance) : LV2PluginInstance :=
  if isOK st then activate (deactivate st) else st.

(** ** Construction and destruction *)

Definition zero_buffer (blockSize : Z) : list float :=
  replicate (Z.to_nat blockSize) float_zero.

(** The constructor: members, init, one zeroed buffer per audio port
    entry, the MIDI parser, then instantiate and, for a runnable instance
    only, connectPorts and activate; last the worker interface is looked
    up and the instance registered. *)
Definition construct (instrument : Z) (position : Z) (sampleRate : Z) (blockSize : Z)
    (idealChannelCount : Z) (uri : string) : LV2PluginInstance :=
  let st :=
    {| m_instrument := instrument; m_position := position; m_instance := None;
       m_uri := uri; m_pluginData := getPluginData uri; m_channelCount := 0;
       m_midiParser := snd_midi_event_new;
       m_midiEventUrid := uridMap LV2_MIDI__MidiEvent;
       m_blockSize := blockSize; m_sampleRate := sampleRate;
       m_latencyPort := None; m_run := false; m_distributeChannels := false;
       m_audioPortsIn := []; m_audioPortsOut := [];
       m_buffers := mkBuffers [] [] [] [] [] [];
       m_eventBuffer := []; m_workerInterface := None;
       workerResponses := []; calls := [] |} in
  let st := init idealChannelCount st in
  let st :=
    set_m_buffers
      (set_m_outputBuffers
         (replicate (length (m_audioPortsOut st)) (zero_buffer blockSize))
         (set_m_inputBuffers
            (replicate (length (m_audioPortsIn st)) (zero_buffer blockSize))
            (m_buffers st))) st in
  let st := instantiate sampleRate st in
  let st := if isOK st then activate (connectPorts st) else st in
  let st :=
    set_m_workerInterface (lilv_instance_get_extension_data (m_instance st))
      (record_call (CallGetExtensionData (negb (isOK st))) st) in
  record_call (CallRegisterPlugin (pluginPosition st)) st.

(** The destructor, the one place where the buffers are released. *)
Definition destruct_instance (st : LV2PluginInstance) : LV2PluginInstance :=
  let st := record_call (CallUnRegisterPlugin (pluginPosition st)) st in
  let st := if isOK st then deactivate st else st in
  let st := cleanup st in
  let b := m_buffers st in
  let st :=
    record_calls
      (map (fun i => CallDeleteArray (InputBuffer i)) (seq 0 (length (m_audioPortsIn st)))
       ++ map (fun i => CallDeleteArray (OutputBuffer i)) (seq 0 (length (m_audioPortsOut st)))
       ++ map (fun aip => CallDeleteArray (AtomIn (index aip))) (m_atomInputPorts b)
       ++ map (fun aop => CallDeleteArray (AtomOut (index aop))) (m_atomOutputPorts b))
      st in
  set_m_audioPortsOut []
    (set_m_audioPortsIn []
       (set_m_buffers (mkBuffers [] [] [] [] [] []) st)).

(** ** run *)

(** The loop over [m_atomInputPorts] that offers one event to every MIDI
    port.  A port without room keeps its sequence (the overflow is only
    logged by the source). *)
Fixpoint append_midi (event : LV2_Atom_Event) (aips : list AtomPort)
  : list AtomPort * list Call :=
  match aips with
  | [] => ([], [])
  | aip :: rest =>
      let '(rest', cs) := append_midi event rest in
      if isMidi aip
      then
        let aip' :=
          match lv2_atom_sequence_append_event (atomSeq aip) (8 * ABUFSIZED) event with
          | Some seq => mkAtomPort (index aip) (isMidi aip) seq
          | None => aip
          end in
        (aip' :: rest', CallAppendEvent (index aip) event :: cs)
      else (aip :: rest', cs)
  end.

(** How the loop over the pending events ends. *)
Inductive DrainExit := DrainDone | DecodeError.

Record DrainState := mkDrain {
  drain_events : std_map snd_seq_event_t;
  drain_parser : snd_midi_event_t;
  drain_ports : list AtomPort;
  drain_calls : list Call;
  drain_exit : DrainExit
}.

Definition frameOffsetOf (bufferStart : RealTime) (sampleRate : Z) (first : RealTime) : Z :=
  let evTime := if first <? bufferStart then bufferStart else first in
  size_t_of_long (realTime2Frame (evTime - bufferStart) sampleRate).

(** The [while (it != m_eventBuffer.end())] loop.  [it] is the part of the
    map from the iterator on; every entry passed is erased, so what is left
    of the map is what is left of [it]. *)
Fixpoint drain (bufferStart : RealTime) (sampleRate blockSize midiEventUrid : Z)
    (it : std_map snd_seq_event_t) (parser : snd_midi_event_t)
    (aips : list AtomPort) (cs : list Call) : DrainState :=
  match it with
  | [] => mkDrain it parser aips cs DrainDone
  | (first, qEvent) :: next =>
      let frameOffset := frameOffsetOf bufferStart sampleRate first in
      if frameOffset >? blockSize then mkDrain it parser aips cs DrainDone
      else
        let '(parser', (bytes, buf)) := snd_midi_event_decode parser qEvent in
        if bytes <=? 0 then mkDrain it parser' aips cs DecodeError
        else
          let event :=
            mkAtomEvent frameOffset bytes midiEventUrid (take (Z.to_nat bytes) buf) in
          let '(aips', cs') := append_midi event aips in
          drain bufferStart sampleRate blockSize midiEventUrid
                next parser' aips' (cs ++ cs')
  end.

(** (in0[i] + in1[i]) / 2.0, stored back as a float. *)
Definition mix (l r : float) : float :=
  float_of_double (double_div (double_of_float (float_add l r)) double_two).

(** for (i = 0; i < m_blockSize; ++i) in0[i] = (in0[i] + in1[i]) / 2.0 *)
Fixpoint combine_loop (n i : nat) (in0 in1 : list float) : list float :=
  match n with
  | O => in0
  | S n' =>
      match in0 !! i, in1 !! i with
      | Some l, Some r => combine_loop n' (S i) (<[i := mix l r]> in0) in1
      | _, _ => combine_loop n' (S i) in0 in1
      end
  end.

(** for (i = 0; i < m_blockSize; ++i) out1[i] = out0[i] *)
Fixpoint distribute_loop (n i : nat) (out0 out1 : list float) : list float :=
  match n with
  | O => out1
  | S n' =>
      match out0 !! i with
      | Some x => distribute_loop n' (S i) out0 (<[i := x]> out1)
      | None => distribute_loop n' (S i) out0 out1
      end
  end.

Definition combine_buffers (blockSize : Z) (ins : list (list float)) : list (list float) :=
  match ins !! 0%nat, ins !! 1%nat with
  | Some in0, Some in1 => <[0%nat := combine_loop (Z.to_nat blockSize) 0 in0 in1]> ins
  | _, _ => ins
  end.

Definition distribute_buffers (blockSize : Z) (outs : list (list float)) : list (list float) :=
  match outs !! 0%nat, outs !! 1%nat with
  | Some out0, Some out1 => <[1%nat := distribute_loop (Z.to_nat blockSize) 0 out0 out1]> outs
  | _, _ => outs
  end.

(** The pre-pass on m_inputBuffers[0] and m_inputBuffers[1], and the
    post-pass on m_outputBuffers[0] and m_outputBuffers[1]. *)
Definition combine_inputs (blockSize : Z) (b : PortBuffers) : PortBuffers :=
  set_m_inputBuffers (combine_buffers blockSize (m_inputBuffers b)) b.

Definition distribute_outputs (blockSize : Z) (b : PortBuffers) : PortBuffers :=
  set_m_outputBuffers (distribute_buffers blockSize (m_outputBuffers b)) b.

(** Modelled from the spec: LV2Utils::Worker::getResponse (LV2Utils is not
    among the sources).  The worker keeps a queue of completed jobs, each
    tagged with the (instrument, position) of its instance; the poll takes
    the oldest job of the given instance, or returns null at once. *)
Fixpoint getResponse (pp : PluginPosition) (q : list (PluginPosition * WorkerJob))
  : option (WorkerJob * list (PluginPosition * WorkerJob)) :=
  match q with
  | [] => None
  | (p, job) :: rest =>
      if PluginPosition_eqb p pp then Some (job, rest)
      else match getResponse pp rest with
           | Some (job', rest') => Some (job', (p, job) :: rest')
           | None => None
           end
  end.

Definition inspect {A : Type} (a : A) : {b : A | a = b} := exist _ a eq_refl.

(** while (job = worker->getResponse(pp)) work_response(m_instance, ...) *)
Equations? work_responses (wi : LV2_Worker_Interface LilvInstance) (pp : PluginPosition)
    (inst : option LilvInstance) (q : list (PluginPosition * WorkerJob)) (cs : list Call)
  : option LilvInstance * list (PluginPosition * WorkerJob) * list Call
  by wf (length q) lt :=
  work_responses wi pp inst q cs with inspect (getResponse pp q) := {
    | exist _ (Some (job, q')) _ =>
        work_responses wi pp (flip (work_response wi) job <$> inst) q'
                       (cs ++ [CallWorkResponse job]);
    | exist _ None _ => (inst, q, cs) }.
Proof.
  clear work_responses. revert job q' e. induction q as [|[p j] rest IH]; intros job q'; simpl.
  - discriminate.
  - destruct (PluginPosition_eqb p pp).
    + intros [= <- <-]. lia.
    + destruct (getResponse pp rest) as [[j' r']|] eqn:E; [|discriminate].
      intros [= <- <-]. simpl. specialize (IH _ _ eq_refl). lia.
Qed.

(** aseq->atom.size = 8 * ABUFSIZED - 8, for every atom output port *)
Definition init_atom_out (aops : list AtomPort) : list AtomPort :=
  map (fun ap =>
         mkAtomPort (index ap) (isMidi ap)
           (set_atom_size (8 * ABUFSIZED - 8) (atomSeq ap))) aops.

Definition clear_atom_ports (aps : list AtomPort) : list AtomPort :=
  map (fun ap => mkAtomPort (index ap) (isMidi ap) (lv2_atom_sequence_clear (atomSeq ap))) aps.

(** lilv_instance_run(m_instance, m_blockSize): the plugin's process
    callback, on the buffers as they are at that point.  The callback
    leaves a new plugin state and new buffer contents. *)
Definition run_plugin (st : LV2PluginInstance) : LV2PluginInstance :=
  let b := m_buffers st in
  let n := m_blockSize st in
  set_m_buffers
    (match m_instance st with
     | Some inst => snd (lilv_instance_run inst b n)
     | None => b
     end)
    (set_m_instance ((fun inst => fst (lilv_instance_run inst b n)) <$> m_instance st)
       (record_call (CallRun b n) st)).

(** The worker responses, then the end_run hook if the plugin has one. *)
Definition collect_worker_responses (st : LV2PluginInstance) : LV2PluginInstance :=
  match m_workerInterface st with
  | Some wi =>
      let '(inst, q, cs) :=
        work_responses wi (pluginPosition st) (m_instance st) (workerResponses st) [] in
      let st := record_calls cs (set_workerResponses q (set_m_instance inst st)) in
      match end_run wi with
      | Some hook => record_call CallEndRun (set_m_instance (hook <$> m_instance st) st)
      | None => st
      end
  | None => st
  end.

(** The events of one atom output port that are passed on: of those the
    walk over the sequence finds, all but the MIDI ones. *)
Definition atom_out_calls (midiEventUrid : Z) (ap : AtomPort) : list Call :=
  flat_map (fun ev =>
              if body_type ev =? midiEventUrid then []
              else [CallUpdatePortValue (index ap) ev])
           (lv2_atom_sequence_foreach (atomSeq ap)).

Definition read_atom_out (st : LV2PluginInstance) : LV2PluginInstance :=
  let b := m_buffers st in
  set_m_buffers (set_m_atomOutputPorts (clear_atom_ports (m_atomOutputPorts b)) b)
    (record_calls (flat_map (atom_out_calls (m_midiEventUrid st)) (m_atomOutputPorts b)) st).

(** The event loop of run on the members of the instance. *)
Definition run_drain (rt : RealTime) (st : LV2PluginInstance) : DrainState :=
  let bufferStart := rt in
  drain bufferStart (m_sampleRate st) (m_blockSize st) (m_midiEventUrid st)
        (m_eventBuffer st) (m_midiParser st) (m_atomInputPorts (m_buffers st)) [].

(** run up to the end of the event loop: the lock is taken, and the
    members the loop works on are as the loop left them. *)
Definition drained (rt : RealTime) (st : LV2PluginInstance) : LV2PluginInstance :=
  let st := record_call CallLock st in
  let d := run_drain rt st in
  record_calls (drain_calls d)
    (set_m_buffers (set_m_atomInputPorts (drain_ports d) (m_buffers st))
       (set_m_midiParser (drain_parser d)
          (set_m_eventBuffer (drain_events d) st))).

(** The steps of run after the event loop. *)
Definition combine_step (st : LV2PluginInstance) : LV2PluginInstance :=
  if m_distributeChannels st
  then set_m_buffers (combine_inputs (m_blockSize st) (m_buffers st)) st
  else st.

Definition init_atom_out_step (st : LV2PluginInstance) : LV2PluginInstance :=
  set_m_buffers
    (set_m_atomOutputPorts (init_atom_out (m_atomOutputPorts (m_buffers st)))
       (m_buffers st)) st.

Definition clear_atom_in_step (st : LV2PluginInstance) : LV2PluginInstance :=
  set_m_buffers
    (set_m_atomInputPorts (clear_atom_ports (m_atomInputPorts (m_buffers st)))
       (m_buffers st)) st.

Definition distribute_step (st : LV2PluginInstance) : LV2PluginInstance :=
  if m_distributeChannels st
  then set_m_buffers (distribute_outputs (m_blockSize st) (m_buffers st)) st
  else st.

(** run from the end of the event loop on, when the loop was not left by
    the early return. *)
Definition process_block (st : LV2PluginInstance) : LV2PluginInstance :=
  let st := combine_step st in
  let st := init_atom_out_step st in
  let st := run_plugin st in
  let st := collect_worker_responses st in
  let st := clear_atom_in_step st in
  let st := read_atom_out st in
  let st := distribute_step st in
  record_call CallUnlock (set_m_run true st).

Definition run (rt : RealTime) (st : LV2PluginInstance) : LV2PluginInstance :=
  match drain_exit (run_drain rt st) with
  | DecodeError => record_call CallUnlock (drained rt st)
  | DrainDone => process_block (drained rt st)
  end.

(** ** Vocabulary for the statements *)

(** The atom event the loop builds from a frame offset and a decoder
    result. *)
Definition midi_event (frameOffset midiEventUrid : Z) (decoded : Z * list Z)
  : LV2_Atom_Event :=
  mkAtomEvent frameOffset (fst decoded) midiEventUrid
              (take (Z.to_nat (fst decoded)) (snd decoded)).

(** The port numbers of the MIDI atom inputs, in port order, and the
    append calls that offer one event to each of them. *)
Definition midi_indices (aips : list AtomPort) : list Z :=
  map index (List.filter isMidi aips).

Definition offer (event : LV2_Atom_Event) (indices : list Z) : list Call :=
  map (fun i => CallAppendEvent i event) indices.

(** An envelope the loop has passed on: it was in range, the decoder
    accepted it in some parser state, and the event carries its offset. *)
Definition consumed_as (bufferStart : RealTime) (sampleRate blockSize midiEventUrid : Z)
    (te : RealTime * snd_seq_event_t) (event : LV2_Atom_Event) : Prop :=
  frameOffsetOf bufferStart sampleRate (fst te) <= blockSize
  /\ exists parser,
       0 < fst (snd (snd_midi_event_decode parser (snd te)))
       /\ event = midi_event (frameOffsetOf bufferStart sampleRate (fst te)) midiEventUrid
                             (snd (snd_midi_event_decode parser (snd te))).

(** One atom port before and after the loop: same port, and its sequence
    has grown by some of the events, in their order. *)
Definition port_grows (events : list LV2_Atom_Event) (a a' : AtomPort) : Prop :=
  index a' = index a /\ isMidi a' = isMidi a
  /\ exists added,
       seq_events (atomSeq a') = seq_events (atomSeq a) ++ added
       /\ added `sublist_of` events
       /\ (isMidi a = false -> added = []).

(** The frame stamps of the append calls in a list of calls. *)
Definition appended_frames (cs : list Call) : list Z :=
  flat_map (fun c => match c with
                     | CallAppendEvent _ event => [time_frames event]
                     | _ => []
                     end) cs.

(** The jobs of one instance in the response queue, and the queue without
    them. *)
Definition jobs_of (pp : PluginPosition) (q : list (PluginPosition * WorkerJob))
  : list WorkerJob :=
  map snd (List.filter (fun e => PluginPosition_eqb (fst e) pp) q).

Definition jobs_of_others (pp : PluginPosition) (q : list (PluginPosition * WorkerJob))
  : list (PluginPosition * WorkerJob) :=
  List.filter (fun e => negb (PluginPosition_eqb (fst e) pp)) q.

(** The buffers as the plugin's process callback finds them, and as it
    leaves them, for an instance that has come out of the event loop; the
    calls the worker poll makes. *)
Definition plugin_input (st : LV2PluginInstance) : PortBuffers :=
  let b := if m_distributeChannels st
           then combine_inputs (m_blockSize st) (m_buffers st)
           else m_buffers st in
  set_m_atomOutputPorts (init_atom_out (m_atomOutputPorts b)) b.

Definition plugin_output (st : LV2PluginInstance) : PortBuffers :=
  match m_instance st with
  | Some inst => snd (lilv_instance_run inst (plugin_input st) (m_blockSize st))
  | None => plugin_input st
  end.

Definition worker_calls (st : LV2PluginInstance) : list Call :=
  match m_workerInterface st with
  | Some wi =>
      map CallWorkResponse (jobs_of (pluginPosition st) (workerResponses st))
      ++ match end_run wi with Some _ => [CallEndRun] | None => [] end
  | None => []
  end.

(** The plugin state, the buffers and the response queue at the end of a
    block that went through. *)
Definition worker_instance (st : LV2PluginInstance) (inst : option LilvInstance)
  : option LilvInstance :=
  match m_workerInterface st with
  | Some wi =>
      let inst' := fold_left (fun i job => flip (work_response wi) job <$> i)
                             (jobs_of (pluginPosition st) (workerResponses st)) inst in
      match end_run wi with
      | Some hook => hook <$> inst'
      | None => inst'
      end
  | None => inst
  end.

Definition block_instance (st : LV2PluginInstance) : option LilvInstance :=
  worker_instance st
    ((fun inst => fst (lilv_instance_run inst (plugin_input st) (m_blockSize st)))
       <$> m_instance st).

Definition block_buffers (st : LV2PluginInstance) : PortBuffers :=
  let b := plugin_output st in
  let b := set_m_atomInputPorts (clear_atom_ports (m_atomInputPorts b)) b in
  let b := set_m_atomOutputPorts (clear_atom_ports (m_atomOutputPorts b)) b in
  if m_distributeChannels st then distribute_outputs (m_blockSize st) b else b.

Definition block_responses (st : LV2PluginInstance) : list (PluginPosition * WorkerJob) :=
  match m_workerInterface st with
  | Some _ => jobs_of_others (pluginPosition st) (workerResponses st)
  | None => workerResponses st
  end.

Definition block_calls (st : LV2PluginInstance) : list Call :=
  [CallRun (plugin_input st) (m_blockSize st)]
  ++ worker_calls st
  ++ flat_map (atom_out_calls (m_midiEventUrid st)) (m_atomOutputPorts (plugin_output st))
  ++ [CallUnlock].

(** The members init leaves alone. *)
Definition same_shell (st st' : LV2PluginInstance) : Prop :=
  m_uri st' = m_uri st /\ m_instance st' = m_instance st /\ calls st' = calls st
  /\ m_instrument st' = m_instrument st /\ m_position st' = m_position st
  /\ m_sampleRate st' = m_sampleRate st /\ m_blockSize st' = m_blockSize st
  /\ m_eventBuffer st' = m_eventBuffer st.

(** The audio and atom buffers and the port lists are the same in two
    states. *)
Definition keeps_buffers (st st' : LV2PluginInstance) : Prop :=
  m_inputBuffers (m_buffers st') = m_inputBuffers (m_buffers st)
  /\ m_outputBuffers (m_buffers st') = m_outputBuffers (m_buffers st)
  /\ m_atomInputPorts (m_buffers st') = m_atomInputPorts (m_buffers st)
  /\ m_atomOutputPorts (m_buffers st') = m_atomOutputPorts (m_buffers st)
  /\ m_controlPortsOut (m_buffers st') = m_controlPortsOut (m_buffers st)
  /\ m_audioPortsIn st' = m_audioPortsIn st
  /\ m_audioPortsOut st' = m_audioPortsOut st
  /\ m_distributeChannels st' = m_distributeChannels st
  /\ m_eventBuffer st' = m_eventBuffer st.

(** The number of audio input ports and of audio output ports a plugin
    declares. *)
Definition is_audio (input : bool) (portData : LV2PortData) : bool :=
  match portType portData with
  | LV2AUDIO => Bool.eqb (isInput portData) input
  | _ => false
  end.

Definition audio_inputs (pluginData : LV2PluginData) : Z :=
  Z.of_nat (length (List.filter (is_audio true) (ports pluginData))).

Definition audio_outputs (pluginData : LV2PluginData) : Z :=
  Z.of_nat (length (List.filter (is_audio false) (ports pluginData))).

(** Successive sendEvent calls. *)
Definition sendEvents (es : list (RealTime * snd_seq_event_t)) (st : LV2PluginInstance)
  : LV2PluginInstance :=
  fold_left (fun st te => sendEvent (fst te) (snd te) st) es st.

(** The calls added between two states of one instance. *)
Definition new_calls (st st' : LV2PluginInstance) : list Call :=
  drop (length (calls st)) (calls st').

(** Modelled from the spec: the worker thread of LV2Utils (not among the
    sources) "enqueues the result keyed by the same identity" when a job
    is done. *)
Definition worker_completes (pp : PluginPosition) (job : WorkerJob)
    (st : LV2PluginInstance) : LV2PluginInstance :=
  set_workerResponses (workerResponses st ++ [(pp, job)]) st.

(** Modelled from the spec: the engine (not among the sources) fills the
    bound audio input buffers, one per host channel, before it calls
    run. *)
Definition write_inputs (ins : list (list float)) (st : LV2PluginInstance)
  : LV2PluginInstance :=
  set_m_buffers (set_m_inputBuffers ins (m_buffers st)) st.

(** The states of an instance: what the constructor returns, and what the
    operations of the class and its environment make of a state. *)
Inductive reachable : LV2PluginInstance -> Prop :=
| reach_construct instrument position sampleRate blockSize idealChannelCount uri :
    reachable (construct instrument position sampleRate blockSize idealChannelCount uri)
| reach_sendEvent st t e : reachable st -> reachable (sendEvent t e st)
| reach_discardEvents st : reachable st -> reachable (discardEvents st)
| reach_run st rt : reachable st -> reachable (run rt st)
| reach_setPortValue st p v : reachable st -> reachable (setPortValue p v st)
| reach_setIdealChannelCount st channels :
    reachable st -> reachable (setIdealChannelCount channels st)
| reach_silence st : reachable st -> reachable (silence st)
| reach_worker_completes st pp job : reachable st -> reachable (worker_completes pp job st)
| reach_write_inputs st ins : reachable st -> reachable (write_inputs ins st).

(** Successive blocks of one instance. *)
Definition run_blocks (rts : list RealTime) (st : LV2PluginInstance) : LV2PluginInstance :=
  fold_left (fun st rt => run rt st) rts st.

End Instance.

(** * The rest of the class

    The members of LV2PluginInstance.cpp that the sections above leave
    out: the two control-value snapshots, setPortByteArray and
    getLatency. *)

(** (size_t) of a float, as in [return *m_latencyPort]: the value with its
    fraction dropped.  The conversion is undefined in C++ when that value
    is not a size_t: below zero, 2^64 or more, an infinity or a NaN;
    [None] stands for these. *)
Definition size_t_of_float (x : float) : option Z :=
  match x with
  | S754_zero _ => Some 0
  | S754_finite s m e =>
      let t := if 0 <=? e then Z.pos m * 2 ^ e else Z.pos m / 2 ^ (- e) in
      if s then (if t =? 0 then Some 0 else None)
      else if t <? 2 ^ 64 then Some t else None
  | _ => None
  end.

(** A uint32_t read from the first four bytes of a char array, low byte
    first (the byte order of x86-64 and AArch64). *)
Definition uint32_of_bytes (bs : list Z) : Z :=
  fold_right (fun b acc => b mod 256 + 256 * acc) 0 (take 4 bs).

(** The event setPortByteArray lays out in [buf]: eight bytes for the time
    stamp, set to frame 0, followed by the bytes of [ba], which so supply
    the atom header (size, then type) and the body.  The append copies the
    header and [size] body bytes out of [buf]; with fewer than eight bytes
    in [ba], or fewer body bytes than [size], it reads what the function
    never wrote, and [None] stands for that. *)
Definition byte_array_event (ba : list Z) : option LV2_Atom_Event :=
  let size := uint32_of_bytes ba in
  if ((8 <=? Z.of_nat (length ba)) && (size <=? Z.of_nat (length ba) - 8))%bool
  then Some (mkAtomEvent 0 size (uint32_of_bytes (drop 4 ba))
                         (take (Z.to_nat size) (drop 8 ba)))
  else None.

(** lv2_atom_sequence_append_event(ap.atomSeq, 8 * ABUFSIZED, event): the
    port with the event stored, or as it was when the event does not
    fit. *)
Definition store_event (event : LV2_Atom_Event) (ap : AtomPort) : AtomPort :=
  match lv2_atom_sequence_append_event (atomSeq ap) (8 * ABUFSIZED) event with
  | Some seq => mkAtomPort (index ap) (isMidi ap) seq
  | None => ap
  end.

(** The loop over [m_atomInputPorts] of setPortByteArray: the first port
    with the given index is offered the event, and the loop is left. *)
Fixpoint append_bytes (port : Z) (event : LV2_Atom_Event) (aips : list AtomPort)
  : list AtomPort * list Call :=
  match aips with
  | [] => ([], [])
  | ap :: rest =>
      if index ap =? port
      then (store_event event ap :: rest, [CallAppendEvent (index ap) event])
      else
        let '(rest', cs) := append_bytes port event rest in
        (ap :: rest', cs)
  end.

(** for (i = 0; i < count; ++i) for (j = 0; j < m_blockSize; ++j)
      m_inputBuffers[i][j] = 0.f
    A store outside a buffer is undefined in the source; here it stores
    nothing. *)
Fixpoint zero_loop (n j : nat) (buf : list float) : list float :=
  match n with
  | O => buf
  | S n' => zero_loop n' (S j) (<[j := float_zero]> buf)
  end.

Fixpoint zero_inputs_loop (n i : nat) (blockSize : nat) (ins : list (list float))
  : list (list float) :=
  match n with
  | O => ins
  | S n' =>
      zero_inputs_loop n' (S i) blockSize
        (match ins !! i with
         | Some buf => <[i := zero_loop blockSize 0 buf]> ins
         | None => ins
         end)
  end.

(** What the port calls say about the plugin's life cycle.  The plugin is
    active between an activate and the next deactivate.  [lifecycle]
    follows a record of calls from a given state and gives the state at its
    end, or [None] if the record activates an active plugin, deactivates an
    inactive one, or instantiates, connects or frees while the plugin is
    active. *)
Fixpoint lifecycle (active : bool) (cs : list Call) : option bool :=
  match cs with
  | [] => Some active
  | CallActivate :: cs' => if active then None else lifecycle true cs'
  | CallDeactivate :: cs' => if active then lifecycle false cs' else None
  | CallInstantiate _ :: cs' | CallConnectPort _ _ :: cs' | CallFree :: cs' =>
      if active then None else lifecycle false cs'
  | _ :: cs' => lifecycle active cs'
  end.

(** The calls that say nothing about the life cycle, and the calls on the
    LV2Utils lock. *)
Definition neutral (c : Call) : bool :=
  match c with
  | CallInstantiate _ | CallConnectPort _ _ | CallActivate | CallDeactivate | CallFree => false
  | _ => true
  end.

Definition locking (c : Call) : bool :=
  match c with
  | CallLock | CallUnlock => true
  | _ => false
  end.


(** The events a record forwards through LV2Utils::updatePortValue. *)
Definition forwarded (cs : list Call) : list (Z * LV2_Atom_Event) :=
  flat_map (fun c => match c with
                     | CallUpdatePortValue port ev => [(port, ev)]
                     | _ => []
                     end) cs.

(** The events a reader finds in the atom output ports that are not MIDI
    events, each with the index of its port. *)
Definition non_midi_events (midiEventUrid : Z) (aops : list AtomPort)
  : list (Z * LV2_Atom_Event) :=
  flat_map (fun ap =>
              map (fun ev => (index ap, ev))
                  (List.filter (fun ev => negb (body_type ev =? midiEventUrid))
                     (lv2_atom_sequence_foreach (atomSeq ap)))) aops.


(** An atom sequence as lv2_atom_sequence_clear leaves it, and as init
    leaves it: its size field at the buffer's room, over a body of zero
    bytes. *)
Definition cleared (ap : AtomPort) : Prop :=
  atom_size (atomSeq ap) = sizeof_LV2_Atom_Sequence_Body /\ seq_events (atomSeq ap) = [].

Definition as_initialised (ap : AtomPort) : Prop :=
  atom_size (atomSeq ap) = 8 * ABUFSIZED - 8
  /\ seq_events (atomSeq ap) = zeroed_body /\ seq_beyond (atomSeq ap) = [].

(** The bytes of a body whose events lie one behind the other: the header
    of the body and the extents of the events.  A sequence is [tight] when
    its size field is just that, so that a reader finds the events of
    [seq_events] and no other; a clear leaves a sequence tight, and so
    does an append that finds room. *)
Definition events_extent (events : list LV2_Atom_Event) : Z :=
  fold_right (fun ev n => lv2_atom_event_extent ev + n) 0 events.

Definition tight (seq : LV2_Atom_Sequence) : Prop :=
  atom_size seq = sizeof_LV2_Atom_Sequence_Body + events_extent (seq_events seq).

(** One atom input port before and after the event loop of run, when every
    event is stored: a MIDI port has taken the events, another port
    nothing.  [has_room n]: a MIDI port has room for [n] more events of up
    to 100 body bytes (120 bytes each with header and padding). *)
Definition port_takes (events : list LV2_Atom_Event) (a a' : AtomPort) : Prop :=
  index a' = index a /\ isMidi a' = isMidi a
  /\ seq_events (atomSeq a') = seq_events (atomSeq a) ++ (if isMidi a then events else []).

Definition has_room (n : Z) (a : AtomPort) : Prop :=
  isMidi a = true ->
  8 <= atom_size (atomSeq a) /\ atom_size (atomSeq a) + 120 * n <= 8 * ABUFSIZED.

(** run calls the decoder with a buffer of 100 bytes; a decoder that
    respects it reports no more than 100. *)
Definition decoder_bounded `{AlsaMidi} : Prop :=
  forall parser event, fst (snd (snd_midi_event_decode parser event)) <= 100.

(** The control ports and the atom ports of one direction, as init tells
    them apart: an audio port is neither, and of the others the atom
    protocol decides. *)
Definition is_control (input : bool) (portData : LV2PortData) : bool :=
  match portType portData, portProtocol portData with
  | LV2AUDIO, _ | _, LV2ATOM => false
  | _, _ => Bool.eqb (isInput portData) input
  end.

Definition is_atom (input : bool) (portData : LV2PortData) : bool :=
  match portType portData, portProtocol portData with
  | LV2AUDIO, _ => false
  | _, LV2ATOM => Bool.eqb (isInput portData) input
  | _, _ => false
  end.

(** A control output that init takes for the latency port. *)
Definition is_latency_port (portData : LV2PortData) : bool :=
  match portType portData, portProtocol portData with
  | LV2AUDIO, _ | _, LV2ATOM => false
  | _, _ =>
      negb (isInput portData)
      && (String.eqb (name portData) "latency" || String.eqb (name portData) "_latency")
  end.

(** The numbers of the ports that satisfy a test, counted from [i]. *)
Fixpoint indices_where (f : LV2PortData -> bool) (i : Z) (ps : list LV2PortData) : list Z :=
  match ps with
  | [] => []
  | portData :: rest =>
      (if f portData then [i] else []) ++ indices_where f (i + 1) rest
  end.

(** The atom ports init creates for the atom ports of one direction, the
    ports being numbered from [i]. *)
Fixpoint atom_ports `{LV2Utils} (input : bool) (i : Z) (ps : list LV2PortData)
  : list AtomPort :=
  match ps with
  | [] => []
  | portData :: rest =>
      (if is_atom input portData then [new_atom_port i portData] else [])
      ++ atom_ports input (i + 1) rest
  end.

(** The control map that holds 0.0 for each of the given port numbers. *)
Definition zeros (indices : list Z) : std_map float := map (fun i => (i, float_zero)) indices.

Section Rest.
Context `{AlsaMidi} `{LV2Plugin} `{LV2Utils}.

(** ** getControlInValues and getControlOutValues

    The argument is the caller's map, passed by reference: it is cleared
    and filled with one assignment per entry. *)
Definition getControlInValues (controlValues : std_map float) (st : LV2PluginInstance)
  : std_map float :=
  let controlValues : std_map float := [] in
  fold_left (fun controlValues pair => map_assign (fst pair) (snd pair) controlValues)
            (m_controlPortsIn (m_buffers st)) controlValues.

Definition getControlOutValues (controlValues : std_map float) (st : LV2PluginInstance)
  : std_map float :=
  let controlValues : std_map float := [] in
  fold_left (fun controlValues pair => map_assign (fst pair) (snd pair) controlValues)
            (m_controlPortsOut (m_buffers st)) controlValues.

(** ** setPortByteArray *)

Definition LV2_ATOM__eventTransfer : string := "http://lv2plug.in/ns/ext/atom#eventTransfer".

(** [m_atomTransferUrid]: the constructor sets it and nothing changes it. *)
Definition m_atomTransferUrid : Z := uridMap LV2_ATOM__eventTransfer.

(** With the event-transfer protocol and the index of an atom input port,
    the bytes are appended to that port as one event at frame 0; with
    another protocol or another port nothing happens (and the bytes are
    not looked at).  [None]: the source reads bytes it never wrote. *)
Definition setPortByteArray (port protocol : Z) (ba : list Z) (st : LV2PluginInstance)
  : option LV2PluginInstance :=
  let b := m_buffers st in
  if protocol =? m_atomTransferUrid
  then
    if existsb (fun ap => index ap =? port) (m_atomInputPorts b)
    then
      match byte_array_event ba with
      | Some event =>
          let '(aips, cs) := append_bytes port event (m_atomInputPorts b) in
          Some (record_calls cs (set_m_buffers (set_m_atomInputPorts aips b) st))
      | None => None
      end
    else Some st
  else Some st.

(** ** getLatency

    [audioInputCount] is what getAudioInputCount() returns; the accessor
    is defined in LV2PluginInstance.h, which is not among the sources, so
    its value is an argument here.  [m_latencyPort] points into
    [m_controlPortsOut]; reading through it when the map has no such entry
    is undefined, as is a conversion that does not fit ([None]). *)
Definition zero_inputs (audioInputCount : Z) (st : LV2PluginInstance) : LV2PluginInstance :=
  set_m_buffers
    (set_m_inputBuffers
       (zero_inputs_loop (Z.to_nat audioInputCount) 0 (Z.to_nat (m_blockSize st))
          (m_inputBuffers (m_buffers st)))
       (m_buffers st)) st.

Definition getLatency (audioInputCount : Z) (st : LV2PluginInstance)
  : option Z * LV2PluginInstance :=
  match m_latencyPort st with
  | Some port =>
      let st := if m_run st then st else run 0 (zero_inputs audioInputCount st) in
      (map_find port (m_controlPortsOut (m_buffers st)) ≫= size_t_of_float, st)
  | None => (Some 0, st)
  end.

(** The instance as the constructor's member initialisers leave it, before
    init is called. *)
Definition members (instrument position sampleRate blockSize : Z) (uri : string)
  : LV2PluginInstance :=
  {| m_instrument := instrument; m_position := position; m_instance := None;
     m_uri := uri; m_pluginData := getPluginData uri; m_channelCount := 0;
     m_midiParser := snd_midi_event_new;
     m_midiEventUrid := uridMap LV2_MIDI__MidiEvent;
     m_blockSize := blockSize; m_sampleRate := sampleRate;
     m_latencyPort := None; m_run := false; m_distributeChannels := false;
     m_audioPortsIn := []; m_audioPortsOut := [];
     m_buffers := mkBuffers [] [] [] [] [] [];
     m_eventBuffer := []; m_workerInterface := None;
     workerResponses := []; calls := [] |}.

(** ** The states of one instance

    What an instance can become through the member functions of the class,
    called in any order with any arguments. *)
Inductive becomes : LV2PluginInstance -> LV2PluginInstance -> Prop :=
| becomes_refl st : becomes st st
| becomes_sendEvent st0 st t e : becomes st0 st -> becomes st0 (sendEvent t e st)
| becomes_discardEvents st0 st : becomes st0 st -> becomes st0 (discardEvents st)
| becomes_run st0 st rt : becomes st0 st -> becomes st0 (run rt st)
| becomes_setPortValue st0 st p v : becomes st0 st -> becomes st0 (setPortValue p v st)
| becomes_setPortValue_state st0 st p v :
    becomes st0 st -> becomes st0 (setPortValue_state p v st)
| becomes_setPortByteArray st0 st port protocol ba st' :
    becomes st0 st -> setPortByteArray port protocol ba st = Some st' -> becomes st0 st'
| becomes_getLatency st0 st n : becomes st0 st -> becomes st0 (snd (getLatency n st))
| becomes_setIdealChannelCount st0 st channels :
    becomes st0 st -> becomes st0 (setIdealChannelCount channels st)
| becomes_silence st0 st : becomes st0 st -> becomes st0 (silence st).

(** The members that are set at construction. *)
Definition same_configuration (st st' : LV2PluginInstance) : Prop :=
  m_instrument st' = m_instrument st /\ m_position st' = m_position st
  /\ m_uri st' = m_uri st /\ m_pluginData st' = m_pluginData st
  /\ m_channelCount st' = m_channelCount st
  /\ m_midiEventUrid st' = m_midiEventUrid st
  /\ m_blockSize st' = m_blockSize st /\ m_sampleRate st' = m_sampleRate st
  /\ m_latencyPort st' = m_latencyPort st
  /\ m_distributeChannels st' = m_distributeChannels st
  /\ m_audioPortsIn st' = m_audioPortsIn st /\ m_audioPortsOut st' = m_audioPortsOut st
  /\ m_workerInterface st' = m_workerInterface st.

End Rest.

(** * An environment for the examples

    A decoder in the manner of ALSA's for the channel messages: a note or
    controller event gives its status byte (left out while the running
    status holds) and two data bytes; any other event type is refused with
    -ENOENT. *)
Module Example.

Record seq_event := mkSeqEvent {
  ev_type : Z;
  ev_channel : Z;
  ev_param : Z;
  ev_value : Z
}.

Definition SND_SEQ_EVENT_NOTEON : Z := 6.
Definition SND_SEQ_EVENT_NOTEOFF : Z := 7.
Definition SND_SEQ_EVENT_CONTROLLER : Z := 10.
Definition SND_SEQ_EVENT_NONE : Z := 255.
Definition ENOENT : Z := 2.

Definition status_of (ev : seq_event) : option Z :=
  if ev_type ev =? SND_SEQ_EVENT_NOTEOFF then Some 128
  else if ev_type ev =? SND_SEQ_EVENT_NOTEON then Some 144
  else if ev_type ev =? SND_SEQ_EVENT_CONTROLLER then Some 176
  else None.

Definition decode (lastcmd : Z) (ev : seq_event) : Z * (Z * list Z) :=
  match status_of ev with
  | None => (lastcmd, (- ENOENT, []))
  | Some status =>
      let cmd := Z.lor status (Z.land (ev_channel ev) 15) in
      let body := [Z.land (ev_param ev) 127; Z.land (ev_value ev) 127] in
      if lastcmd =? cmd then (lastcmd, (2, body))
      else (cmd, (3, cmd :: body))
  end.

#[global] Instance alsa : AlsaMidi := {|
  snd_seq_event_t := seq_event;
  snd_midi_event_t := Z;
  snd_midi_event_new := 255;
  snd_midi_event_decode := decode
|}.

(** A mono pass-through plugin: port 0 audio in, port 1 audio out, port 2
    the control input "gain" with range [0, 1], port 3 a MIDI atom input.
    Its instance counts the callbacks it has received.  A second URI names
    a plugin with the same ports whose instantiation fails. *)
Definition mono_uri : string := "urn:example:mono".
Definition broken_uri : string := "urn:example:broken".

Definition mono_ports : list LV2PortData :=
  [ mkPortData "in" LV2AUDIO LV2FLOAT true float_zero float_zero;
    mkPortData "out" LV2AUDIO LV2FLOAT false float_zero float_zero;
    mkPortData "gain" LV2CONTROL LV2FLOAT true (f32_of_Z 0 0) (f32_of_Z 1 0);
    mkPortData "events" LV2MIDI LV2ATOM true float_zero float_zero ].

Definition mono_run (inst : nat) (b : PortBuffers) (n : Z) : nat * PortBuffers :=
  (S inst,
   match m_inputBuffers b !! 0%nat with
   | Some in0 => set_m_outputBuffers (<[0%nat := in0]> (m_outputBuffers b)) b
   | None => b
   end).

Definition mono_worker : LV2_Worker_Interface nat :=
  {| work_response := fun inst job => (inst + Z.to_nat (size job))%nat;
     end_run := Some S |}.

#[global] Instance plugin : LV2Plugin := {|
  LilvInstance := nat;
  lilv_plugin_instantiate := fun uri rate =>
    if String.eqb uri mono_uri then Some 0%nat else None;
  lilv_instance_activate := fun inst => inst;
  lilv_instance_deactivate := fun inst => inst;
  lilv_instance_run := mono_run;
  lilv_instance_get_extension_data := fun inst =>
    match inst with Some _ => Some mono_worker | None => None end
|}.

#[global] Instance utils : LV2Utils := {|
  uridMap := fun uri =>
    if String.eqb uri LV2_MIDI__MidiEvent then 1
    else if String.eqb uri LV2_ATOM__Sequence then 2 else 3;
  getPluginData := fun uri => mkPluginData mono_ports;
  getDefaultStateByUri := fun uri => [(2, FloatValue (f32_of_Z 1 (-1)))]
|}.

(** The mono plugin on a stereo bus, 1000 frames per second (one frame per
    millisecond), blocks of four frames. *)
Definition stereo : LV2PluginInstance := construct 1 0 1000 4 2 mono_uri.
Definition broken : LV2PluginInstance := construct 1 0 1000 4 2 broken_uri.

Definition ms : Z := 1000000.
Definition noteOn : seq_event := mkSeqEvent SND_SEQ_EVENT_NOTEON 0 60 100.
Definition noteOff : seq_event := mkSeqEvent SND_SEQ_EVENT_NOTEOFF 0 60 0.
Definition notMidi : seq_event := mkSeqEvent SND_SEQ_EVENT_NONE 0 0 0.

(** One note exactly one block length after the block start. *)
Definition at_block_end : LV2PluginInstance := sendEvent (4 * ms) noteOn stereo.

(** An event the decoder refuses, followed by a note, both due. *)
Definition with_refused : LV2PluginInstance :=
  sendEvent (2 * ms) noteOn (sendEvent (1 * ms) notMidi stereo).

(** Two notes in one block, and one for a later block. *)
Definition with_notes : LV2PluginInstance :=
  sendEvent (9 * ms) noteOff (sendEvent (3 * ms) noteOff (sendEvent (1 * ms) noteOn stereo)).

(** Responses for this instance and for another one. *)
Definition with_responses : LV2PluginInstance :=
  worker_completes (mkPosition 1 0) (mkJob 2 [7; 7])
    (worker_completes (mkPosition 9 9) (mkJob 1 [0])
       (worker_completes (mkPosition 1 0) (mkJob 1 [5]) stereo)).

(** A note sent for 1 ms, before any block, and a note sent for 9 ms
    after the first block. *)
Definition late_first : LV2PluginInstance := sendEvent (1 * ms) noteOn stereo.
Definition late_second : LV2PluginInstance := sendEvent (9 * ms) noteOn (run 0 stereo).

(** A refused envelope at the head of the queue, and a completed job. *)
Definition refused_with_response : LV2PluginInstance :=
  worker_completes (mkPosition 1 0) (mkJob 1 [5]) with_refused.

(** Blocks of two frames, with L = [1, 3] and R = [3, 5] on the inputs. *)
Definition two_frames : LV2PluginInstance :=
  write_inputs [[f32_of_Z 1 0; f32_of_Z 3 0]; [f32_of_Z 3 0; f32_of_Z 5 0]]
    (construct 1 0 1000 2 2 mono_uri).

End Example.

(** * A second environment for the examples

    An effect with a MIDI input, a latency report and a notification
    output: port 0 a MIDI atom input, port 1 audio in, port 2 audio out,
    port 3 the control input "level" with range [0, 1], port 4 the control
    output "latency", port 5 an atom output.  Its process callback reports
    a latency of 64 frames and leaves two events in the atom output, a
    MIDI event and an event of another type.  The default state sets the
    level to the int 2.  The MIDI decoder is the one of the first
    environment. *)
Module Synth.

Definition synth_uri : string := "urn:example:synth".
Definition broken_uri : string := "urn:example:synth-broken".

Definition synth_ports : list LV2PortData :=
  [ mkPortData "midi_in" LV2MIDI LV2ATOM true float_zero float_zero;
    mkPortData "in" LV2AUDIO LV2FLOAT true float_zero float_zero;
    mkPortData "out" LV2AUDIO LV2FLOAT false float_zero float_zero;
    mkPortData "level" LV2CONTROL LV2FLOAT true (f32_of_Z 0 0) (f32_of_Z 1 0);
    mkPortData "latency" LV2CONTROL LV2FLOAT false float_zero float_zero;
    mkPortData "notify" LV2CONTROL LV2ATOM false float_zero float_zero ].

Definition midi_out : LV2_Atom_Event := mkAtomEvent 0 3 1 [144; 60; 100].
Definition notice : LV2_Atom_Event := mkAtomEvent 0 4 5 [1; 2; 3; 4].

(** The two events take 24 bytes each, so the sequence the callback
    writes has the size 8 + 48; behind it the buffer is as it was zeroed. *)
Definition synth_notify (seq : LV2_Atom_Sequence) : LV2_Atom_Sequence :=
  mkAtomSeq 56 (atom_type seq) [midi_out; notice] (replicate (Z.to_nat 49996) zero_event).

Definition synth_run (inst : nat) (b : PortBuffers) (n : Z) : nat * PortBuffers :=
  (S inst,
   set_m_atomOutputPorts
     (map (fun ap => mkAtomPort (index ap) (isMidi ap) (synth_notify (atomSeq ap)))
          (m_atomOutputPorts b))
     (set_m_controlPortsOut (map_assign 4 (f32_of_Z 64 0) (m_controlPortsOut b)) b)).

#[local] Instance plugin : LV2Plugin := {|
  LilvInstance := nat;
  lilv_plugin_instantiate := fun uri rate =>
    if String.eqb uri synth_uri then Some 0%nat else None;
  lilv_instance_activate := fun inst => inst;
  lilv_instance_deactivate := fun inst => inst;
  lilv_instance_run := synth_run;
  lilv_instance_get_extension_data := fun inst => None
|}.

#[local] Instance utils : LV2Utils := {|
  uridMap := fun uri =>
    if String.eqb uri LV2_MIDI__MidiEvent then 1
    else if String.eqb uri LV2_ATOM__Sequence then 2 else 3;
  getPluginData := fun uri => mkPluginData synth_ports;
  getDefaultStateByUri := fun uri => [(3, IntValue 2)]
|}.

(** On a stereo bus, 1000 frames per second, blocks of four frames; and
    the same for the URI whose plugin does not instantiate. *)
Definition fresh : LV2PluginInstance := construct 2 1 1000 4 2 synth_uri.
Definition broken : LV2PluginInstance := construct 2 1 1000 4 2 broken_uri.

(** With a note due in the first block, and with a signal on the
    inputs. *)
Definition with_note : LV2PluginInstance :=
  sendEvent (1 * Example.ms) Example.noteOn fresh.

Definition with_signal : LV2PluginInstance :=
  write_inputs [replicate 4 (f32_of_Z 1 0); replicate 4 (f32_of_Z 3 0)] with_note.

(** After a first block, with a note for the second one (the blocks are
    4 ms long). *)
Definition after_block : LV2PluginInstance :=
  sendEvent (5 * Example.ms) Example.noteOn (run 0 fresh).

(** An atom of type 7 with the two body bytes 9, 9, as the bytes of its
    header and body. *)
Definition blob : list Z := [2; 0; 0; 0; 7; 0; 0; 0; 9; 9].

End Synth.

(** * A third environment for the examples

    A plugin with one port, an atom output, whose process callback leaves
    every buffer as it finds it. *)
Module Quiet.

Definition quiet_uri : string := "urn:example:quiet".

Definition quiet_ports : list LV2PortData :=
  [ mkPortData "notify" LV2CONTROL LV2ATOM false float_zero float_zero ].

#[local] Instance plugin : LV2Plugin := {|
  LilvInstance := nat;
  lilv_plugin_instantiate := fun uri rate => Some 0%nat;
  lilv_instance_activate := fun inst => inst;
  lilv_instance_deactivate := fun inst => inst;
  lilv_instance_run := fun inst b n => (S inst, b);
  lilv_instance_get_extension_data := fun inst => None
|}.

#[local] Instance utils : LV2Utils := {|
  uridMap := fun uri =>
    if String.eqb uri LV2_MIDI__MidiEvent then 1
    else if String.eqb uri LV2_ATOM__Sequence then 2 else 3;
  getPluginData := fun uri => mkPluginData quiet_ports;
  getDefaultStateByUri := fun uri => []
|}.

Definition fresh : LV2PluginInstance := construct 3 0 1000 4 2 quiet_uri.

End Quiet.

(** * Facts about the map model *)
Section StdMapFacts.
Context {V : Type}.
Implicit Types (m : std_map V) (k : Z) (v : V).

Lemma ordered_cons_inv k v m :
  ordered ((k, v) :: m) = true -> ordered m = true /\ Forall (fun k' => k < k') (keys m).
Proof.
  revert k v. induction m as [|[k' v'] m IH]; intros k v Hord.
  - split; [reflexivity | constructor].
  - change (ordered ((k, v) :: (k', v') :: m))
      with ((k <? k') && ordered ((k', v') :: m)) in Hord.
    apply andb_true_iff in Hord as [Hlt Hm].
    apply Z.ltb_lt in Hlt. split; [exact Hm|].
    destruct (IH _ _ Hm) as [_ Hall]. cbn. constructor; [exact Hlt|].
    eapply Forall_impl; [exact Hall|]. cbn. intros; lia.
Qed.

Lemma ordered_cons k v m :
  ordered m = true -> Forall (fun k' => k < k') (keys m) -> ordered ((k, v) :: m) = true.
Proof.
  destruct m as [|[k' v'] m]; [reflexivity|].
  intros Hm Hall.
  change (ordered ((k, v) :: (k', v') :: m))
    with ((k <? k') && ordered ((k', v') :: m)).
  cbn in Hall. inversion Hall; subst.
  apply andb_true_iff. split; [now apply Z.ltb_lt | exact Hm].
Qed.

Lemma ordered_app_inv m1 m2 :
  ordered (m1 ++ m2) = true ->
  ordered m2 = true /\
  forall k1 k2, In k1 (keys m1) -> In k2 (keys m2) -> k1 < k2.
Proof.
  induction m1 as [|[k v] m1 IH]; cbn [app]; intros Hord.
  - split; [exact Hord|]. intros ? ? [].
  - apply ordered_cons_inv in Hord as [Hm Hall].
    destruct (IH Hm) as [H2 Hlt]. split; [exact H2|].
    intros k1 k2 [<-|Hin] Hin2.
    + rewrite Forall_forall in Hall. apply Hall. unfold keys.
      rewrite map_app. apply list_elem_of_In, in_or_app. right. exact Hin2.
    + apply Hlt; assumption.
Qed.

Lemma keys_map_assign k v m k' :
  In k' (keys (map_assign k v m)) <-> k' = k \/ In k' (keys m).
Proof.
  induction m as [|[k0 v0] m IH]; cbn.
  - intuition congruence.
  - destruct (k <? k0) eqn:E1; [cbn; intuition congruence|].
    destruct (k0 <? k) eqn:E2; cbn.
    + rewrite IH. intuition congruence.
    + assert (k0 = k) by lia. subst. intuition congruence.
Qed.

Lemma ordered_map_assign k v m :
  ordered m = true -> ordered (map_assign k v m) = true.
Proof.
  induction m as [|[k0 v0] m IH]; intros Hord; [reflexivity|].
  cbn [map_assign].
  destruct (k <? k0) eqn:E1.
  - change (ordered ((k, v) :: (k0, v0) :: m))
      with ((k <? k0) && ordered ((k0, v0) :: m)).
    rewrite E1. exact Hord.
  - destruct (k0 <? k) eqn:E2.
    + apply ordered_cons_inv in Hord as [Hm Hall].
      apply ordered_cons; [auto|].
      rewrite Forall_forall. intros k' Hin.
      apply list_elem_of_In, keys_map_assign in Hin as [->|Hin]; [lia|].
      rewrite Forall_forall in Hall. apply Hall, list_elem_of_In, Hin.
    + assert (k0 = k) by lia. subst.
      apply ordered_cons_inv in Hord as [Hm Hall]. now apply ordered_cons.
Qed.

Lemma map_find_assign_eq k v m : map_find k (map_assign k v m) = Some v.
Proof.
  induction m as [|[k0 v0] m IH]; cbn.
  - now rewrite Z.eqb_refl.
  - destruct (k <? k0) eqn:E1; [cbn; now rewrite Z.eqb_refl|].
    destruct (k0 <? k) eqn:E2; cbn.
    + destruct (k =? k0) eqn:E3; [lia | exact IH].
    + now rewrite Z.eqb_refl.
Qed.

Lemma map_assign_twice k v1 v2 m :
  map_assign k v2 (map_assign k v1 m) = map_assign k v2 m.
Proof.
  induction m as [|[k0 v0] m IH]; cbn.
  - now rewrite Z.ltb_irrefl.
  - destruct (k <? k0) eqn:E1; cbn.
    + now rewrite Z.ltb_irrefl.
    + destruct (k0 <? k) eqn:E2; cbn.
      * rewrite E1, E2. now rewrite IH.
      * now rewrite Z.ltb_irrefl.
Qed.

Lemma entries_at_above k m :
  Forall (fun k' => k < k') (keys m) -> entries_at k m = [].
Proof.
  induction m as [|[k0 v0] m IH]; cbn; [reflexivity|].
  intros Hall. inversion Hall; subst.
  destruct (k0 =? k) eqn:E; [lia | auto].
Qed.

Lemma entries_at_map_assign k v m :
  ordered m = true -> entries_at k (map_assign k v m) = [(k, v)].
Proof.
  induction m as [|[k0 v0] m IH]; intros Hord; cbn.
  - now rewrite Z.eqb_refl.
  - apply ordered_cons_inv in Hord as [Hm Hall].
    destruct (k <? k0) eqn:E1; cbn.
    + rewrite Z.eqb_refl. destruct (k0 =? k) eqn:E; [lia|].
      f_equal. apply entries_at_above.
      eapply Forall_impl; [exact Hall|]. cbn. intros; lia.
    + destruct (k0 <? k) eqn:E2; cbn.
      * destruct (k0 =? k) eqn:E; [lia | auto].
      * rewrite Z.eqb_refl. f_equal. apply entries_at_above.
        assert (k0 = k) by lia. now subst.
Qed.

Lemma ordered_NoDup m : ordered m = true -> NoDup (keys m).
Proof.
  induction m as [|[k v] m IH]; intros Hord; cbn; [constructor|].
  apply ordered_cons_inv in Hord as [Hm Hall]. constructor; [|auto].
  intros Hin. rewrite Forall_forall in Hall. specialize (Hall _ Hin). lia.
Qed.

End StdMapFacts.

(** * Frame offsets *)
Section FrameFacts.

Lemma realTime2Frame_nonneg time sampleRate :
  0 <= time -> 0 <= sampleRate -> 0 <= realTime2Frame time sampleRate.
Proof.
  intros Ht Hr. unfold realTime2Frame, ONE_BILLION.
  destruct (time <? 0) eqn:E; [lia|].
  apply Z.div_pos; [|lia]. change (1000000000 / 2) with 500000000. nia.
Qed.

Lemma realTime2Frame_mono t1 t2 sampleRate :
  0 <= t1 <= t2 -> 0 <= sampleRate ->
  realTime2Frame t1 sampleRate <= realTime2Frame t2 sampleRate.
Proof.
  intros Ht Hr. unfold realTime2Frame, ONE_BILLION.
  destruct (t1 <? 0) eqn:E1; [lia|]. destruct (t2 <? 0) eqn:E2; [lia|].
  apply Z.div_le_mono; [lia|]. nia.
Qed.

Lemma realTime2Frame_zero sampleRate : realTime2Frame 0 sampleRate = 0.
Proof. reflexivity. Qed.

(** An event that is late for the block gets offset 0. *)
Lemma frameOffsetOf_late bufferStart sampleRate first :
  first < bufferStart -> frameOffsetOf bufferStart sampleRate first = 0.
Proof.
  intros Hlate. unfold frameOffsetOf.
  destruct (first <? bufferStart) eqn:E; [|lia].
  now rewrite Z.sub_diag, realTime2Frame_zero.
Qed.

Lemma size_t_of_long_nonneg x : 0 <= x -> size_t_of_long x = x.
Proof. intros Hx. unfold size_t_of_long. destruct (x <? 0) eqn:E; lia. Qed.

Lemma frameOffsetOf_mono bufferStart sampleRate t1 t2 :
  0 <= sampleRate -> t1 <= t2 ->
  frameOffsetOf bufferStart sampleRate t1 <= frameOffsetOf bufferStart sampleRate t2.
Proof.
  intros Hr Ht. unfold frameOffsetOf. cbv zeta.
  match goal with
  | |- size_t_of_long (realTime2Frame ?a _) <= size_t_of_long (realTime2Frame ?b _) =>
      assert (H12 : 0 <= a <= b)
        by (destruct (t1 <? bufferStart) eqn:E1, (t2 <? bufferStart) eqn:E2; lia);
      generalize dependent b; generalize dependent a
  end.
  intros d1 d2 H12.
  rewrite !size_t_of_long_nonneg by (apply realTime2Frame_nonneg; lia).
  now apply realTime2Frame_mono.
Qed.

Lemma ordered_offsets_sorted {V} bufferStart sampleRate (m : std_map V) :
  0 <= sampleRate -> ordered m = true ->
  StronglySorted Z.le (map (frameOffsetOf bufferStart sampleRate) (keys m)).
Proof.
  intros Hr. induction m as [|[k v] m IH]; intros Hord; cbn; [constructor|].
  apply ordered_cons_inv in Hord as [Hm Hall]. constructor; [auto|].
  rewrite Forall_forall. intros x Hin.
  apply list_elem_of_In, in_map_iff in Hin as (k' & <- & Hin).
  apply frameOffsetOf_mono; [exact Hr|].
  rewrite Forall_forall in Hall. apply list_elem_of_In, Hall in Hin. lia.
Qed.

Lemma sublist_sorted (l k : list Z) :
  k `sublist_of` l -> StronglySorted Z.le l -> StronglySorted Z.le k.
Proof.
  induction 1 as [|x k l Hsub IH|x k l Hsub IH]; intros Hs.
  - constructor.
  - apply StronglySorted_cons in Hs as [Hall Hs]. constructor; [auto|].
    rewrite Forall_forall in Hall |- *. intros y Hy.
    apply Hall. eapply elem_of_sublist; eassumption.
  - apply StronglySorted_cons in Hs as [_ Hs]. auto.
Qed.

End FrameFacts.

(** * The event loop *)
Section DrainFacts.
Context `{AlsaMidi}.
Variables (bufferStart : RealTime) (sampleRate blockSize midiEventUrid : Z).

Abbreviation drain' := (drain bufferStart sampleRate blockSize midiEventUrid).
Abbreviation offset := (frameOffsetOf bufferStart sampleRate).

Lemma append_midi_calls event aips :
  snd (append_midi event aips) = offer event (midi_indices aips).
Proof.
  unfold offer, midi_indices.
  induction aips as [|aip rest IH]; [reflexivity|]. cbn.
  destruct (append_midi event rest) as [rest' cs]. cbn in IH.
  destruct (isMidi aip); cbn; now rewrite IH.
Qed.

Lemma append_midi_ports event aips :
  Forall2 (port_grows [event]) aips (fst (append_midi event aips)).
Proof.
  induction aips as [|aip rest IH]; [constructor|]. cbn.
  destruct (append_midi event rest) as [rest' cs]. cbn in IH.
  destruct (isMidi aip) eqn:Emidi; cbn; constructor; try exact IH.
  - unfold lv2_atom_sequence_append_event.
    destruct (_ <? _); cbn; (split; [reflexivity|]); (split; [cbn; congruence|]).
    + exists []. rewrite app_nil_r.
      split; [reflexivity|]. split; [apply sublist_nil_l | congruence].
    + exists [event]. split; [reflexivity|]. split; [reflexivity | congruence].
  - split; [reflexivity|]. split; [reflexivity|]. exists []. rewrite app_nil_r.
    split; [reflexivity|]. split; [apply sublist_nil_l | reflexivity].
Qed.

Lemma port_grows_indices events aips aips' :
  Forall2 (port_grows events) aips aips' -> midi_indices aips' = midi_indices aips.
Proof.
  unfold midi_indices. induction 1 as [|a a' l l' (Hi & Hm & _) _ IH]; [reflexivity|].
  cbn. rewrite Hm. destruct (isMidi a); cbn; now rewrite ?Hi, IH.
Qed.

Lemma port_grows_trans ev1 ev2 aips1 aips2 aips3 :
  Forall2 (port_grows ev1) aips1 aips2 ->
  Forall2 (port_grows ev2) aips2 aips3 ->
  Forall2 (port_grows (ev1 ++ ev2)) aips1 aips3.
Proof.
  intros H12. revert aips3. induction H12 as [|a b l1 l2 Hab _ IH]; intros aips3 H23.
  - inversion H23; constructor.
  - inversion H23 as [|b' c l2' l3 Hbc Hrest]; subst. constructor; [|auto].
    destruct Hab as (Hi & Hm & add1 & He1 & Hs1 & Hn1).
    destruct Hbc as (Hi' & Hm' & add2 & He2 & Hs2 & Hn2).
    repeat split; [congruence | congruence |].
    exists (add1 ++ add2). repeat split.
    + rewrite He2, He1. now rewrite app_assoc.
    + now apply sublist_app.
    + intros Hf. rewrite Hn1, Hn2 by congruence. reflexivity.
Qed.

Lemma port_grows_refl aips : Forall2 (port_grows []) aips aips.
Proof.
  induction aips; constructor; [|assumption].
  split; [reflexivity|]. split; [reflexivity|]. exists []. rewrite app_nil_r.
  split; [reflexivity|]. split; [constructor | reflexivity].
Qed.

(** What the loop did, whichever way it ended: it passed a prefix of the
    map, offered one event per envelope of the prefix to every MIDI port,
    and left the rest of the map. *)
Lemma drain_spec it parser aips cs :
  let d := drain' it parser aips cs in
  exists consumed events,
    it = consumed ++ drain_events d
    /\ Forall2 (consumed_as bufferStart sampleRate blockSize midiEventUrid) consumed events
    /\ drain_calls d = cs ++ flat_map (fun ev => offer ev (midi_indices aips)) events
    /\ Forall2 (port_grows events) aips (drain_ports d).
Proof.
  revert parser aips cs. induction it as [|[first qEvent] next IH]; intros parser aips cs.
  - exists [], []. cbn. rewrite app_nil_r. repeat split; [constructor | apply port_grows_refl].
  - cbn [drain]. cbn zeta.
    destruct (offset first >? blockSize) eqn:Erange.
    { exists [], []. cbn. rewrite app_nil_r.
      repeat split; [constructor | apply port_grows_refl]. }
    destruct (snd_midi_event_decode parser qEvent) as [parser' [bytes buf]] eqn:Edec.
    destruct (bytes <=? 0) eqn:Ebytes.
    { exists [], []. cbn. rewrite app_nil_r.
      repeat split; [constructor | apply port_grows_refl]. }
    set (event := mkAtomEvent (offset first) bytes midiEventUrid (take (Z.to_nat bytes) buf)).
    pose proof (append_midi_calls event aips) as Hcalls.
    pose proof (append_midi_ports event aips) as Hports.
    destruct (append_midi event aips) as [aips' cs'] eqn:Eapp. cbn in Hcalls, Hports.
    destruct (IH parser' aips' (cs ++ cs')) as (consumed & events & Hq & Hcons & Hcs & Hgrow).
    exists ((first, qEvent) :: consumed), (event :: events).
    repeat split.
    + cbn. now rewrite <- Hq.
    + constructor; [|exact Hcons]. split; [cbn; lia|].
      exists parser. cbn [fst snd]. rewrite Edec. cbn. split; [lia | reflexivity].
    + rewrite Hcs, Hcalls. cbn. rewrite (port_grows_indices _ _ _ Hports).
      now rewrite <- app_assoc.
    + change (event :: events) with ([event] ++ events).
      eapply port_grows_trans; eassumption.
Qed.

(** Why the loop stopped where it did. *)
Lemma drain_stop it parser aips cs :
  let d := drain' it parser aips cs in
  match drain_events d, drain_exit d with
  | [], DrainDone => True
  | (first, _) :: _, DrainDone => blockSize < offset first
  | (first, qEvent) :: _, DecodeError =>
      offset first <= blockSize
      /\ exists p, fst (snd (snd_midi_event_decode p qEvent)) <= 0
  | [], DecodeError => False
  end.
Proof.
  revert parser aips cs. induction it as [|[first qEvent] next IH]; intros parser aips cs.
  - exact I.
  - cbn [drain]. cbn zeta.
    destruct (offset first >? blockSize) eqn:Erange; [cbn; lia|].
    destruct (snd_midi_event_decode parser qEvent) as [parser' [bytes buf]] eqn:Edec.
    destruct (bytes <=? 0) eqn:Ebytes.
    { cbn. split; [lia|]. exists parser. rewrite Edec. cbn. lia. }
    destruct (append_midi _ aips) as [aips' cs']. apply IH.
Qed.

End DrainFacts.

(** * Properties of the class *)
Section Properties.
Context `{AlsaMidi} `{LV2Plugin} `{LV2Utils}.
Implicit Types (st : LV2PluginInstance) (rt : RealTime).

Lemma new_calls_app st st' cs : calls st' = calls st ++ cs -> new_calls st st' = cs.
Proof. unfold new_calls. intros ->. now rewrite drop_app_length. Qed.

(** ** The phases of run *)

Lemma getResponse_some pp q job q' :
  getResponse pp q = Some (job, q') ->
  jobs_of pp q = job :: jobs_of pp q' /\ jobs_of_others pp q = jobs_of_others pp q'.
Proof.
  unfold jobs_of, jobs_of_others.
  revert job q'. induction q as [|[p j] rest IH]; intros job q'; cbn; [discriminate|].
  destruct (PluginPosition_eqb p pp) eqn:E; cbn.
  - intros [= <- <-]. auto.
  - destruct (getResponse pp rest) as [[j' r']|]; [|discriminate].
    intros [= <- <-]. cbn. rewrite E. cbn.
    destruct (IH _ _ eq_refl) as [-> ->]. auto.
Qed.

Lemma getResponse_none pp q :
  getResponse pp q = None -> jobs_of pp q = [] /\ jobs_of_others pp q = q.
Proof.
  unfold jobs_of, jobs_of_others.
  induction q as [|[p j] rest IH]; cbn; [auto|].
  destruct (PluginPosition_eqb p pp) eqn:E; cbn; [discriminate|].
  destruct (getResponse pp rest) as [[j' r']|]; [discriminate|].
  intros _. destruct (IH eq_refl) as [-> ->]. auto.
Qed.

(** The poll loop ends, having forwarded the jobs of this instance in
    queue order and left the others in the queue. *)
Lemma work_responses_spec wi pp inst q cs :
  work_responses wi pp inst q cs
  = (fold_left (fun i job => flip (work_response wi) job <$> i) (jobs_of pp q) inst,
     jobs_of_others pp q,
     cs ++ map CallWorkResponse (jobs_of pp q)).
Proof.
  funelim (work_responses wi pp inst q cs).
  - destruct (getResponse_some _ _ _ _ e) as [Hj Ho].
    rewrite H2, Hj, Ho. cbn. now rewrite <- app_assoc.
  - destruct (getResponse_none _ _ e) as [Hj Ho].
    rewrite Hj, Ho. cbn. now rewrite app_nil_r.
Qed.



Lemma instance_ext st1 st2 :
  m_instrument st1 = m_instrument st2 -> m_position st1 = m_position st2 ->
  m_instance st1 = m_instance st2 -> m_uri st1 = m_uri st2 ->
  m_pluginData st1 = m_pluginData st2 -> m_channelCount st1 = m_channelCount st2 ->
  m_midiParser st1 = m_midiParser st2 -> m_midiEventUrid st1 = m_midiEventUrid st2 ->
  m_blockSize st1 = m_blockSize st2 -> m_sampleRate st1 = m_sampleRate st2 ->
  m_latencyPort st1 = m_latencyPort st2 -> m_run st1 = m_run st2 ->
  m_distributeChannels st1 = m_distributeChannels st2 ->
  m_audioPortsIn st1 = m_audioPortsIn st2 -> m_audioPortsOut st1 = m_audioPortsOut st2 ->
  m_buffers st1 = m_buffers st2 -> m_eventBuffer st1 = m_eventBuffer st2 ->
  m_workerInterface st1 = m_workerInterface st2 ->
  workerResponses st1 = workerResponses st2 -> calls st1 = calls st2 ->
  st1 = st2.
Proof. destruct st1, st2; cbn; intros; subst; reflexivity. Qed.

(** The conditional steps, as updates of the members they may write. *)
Lemma combine_step_eq st :
  combine_step st
  = set_m_buffers (if m_distributeChannels st
                   then combine_inputs (m_blockSize st) (m_buffers st)
                   else m_buffers st) st.
Proof.
  unfold combine_step. destruct (m_distributeChannels st); [reflexivity|].
  destruct st; reflexivity.
Qed.

Lemma distribute_step_eq st :
  distribute_step st
  = set_m_buffers (if m_distributeChannels st
                   then distribute_outputs (m_blockSize st) (m_buffers st)
                   else m_buffers st) st.
Proof.
  unfold distribute_step. destruct (m_distributeChannels st); [reflexivity|].
  destruct st; reflexivity.
Qed.

Lemma collect_worker_responses_eq st :
  collect_worker_responses st
  = set_calls (calls st ++ worker_calls st)
      (set_workerResponses (block_responses st)
         (set_m_instance (worker_instance st (m_instance st)) st)).
Proof.
  unfold collect_worker_responses, worker_calls, block_responses, worker_instance.
  destruct (m_workerInterface st) as [wi|] eqn:Ewi.
  - rewrite work_responses_spec. cbn zeta.
    destruct (end_run wi); apply instance_ext; cbn;
      rewrite <- ?app_assoc, ?app_nil_r; reflexivity.
  - rewrite app_nil_r. destruct st; reflexivity.
Qed.

(** The block after the event loop, as one update of the instance. *)
Lemma process_block_eq st :
  process_block st
  = set_calls (calls st ++ block_calls st)
      (set_workerResponses (block_responses st)
         (set_m_run true
            (set_m_buffers (block_buffers st)
               (set_m_instance (block_instance st) st)))).
Proof.
  unfold process_block. cbv zeta.
  rewrite distribute_step_eq, collect_worker_responses_eq, combine_step_eq.
  apply instance_ext; try reflexivity;
    cbn; unfold block_buffers, block_calls, worker_calls, plugin_output, plugin_input,
           pluginPosition;
    cbn; rewrite <- ?app_assoc;
    destruct (m_distributeChannels st), (m_instance st); reflexivity.
Qed.

Lemma process_block_calls st : calls (process_block st) = calls st ++ block_calls st.
Proof. now rewrite process_block_eq. Qed.

Lemma process_block_events st : m_eventBuffer (process_block st) = m_eventBuffer st.
Proof. now rewrite process_block_eq. Qed.

Lemma process_block_run st : m_run (process_block st) = true.
Proof. now rewrite process_block_eq. Qed.

Lemma process_block_responses st :
  workerResponses (process_block st) = block_responses st.
Proof. now rewrite process_block_eq. Qed.

Lemma process_block_buffers st : m_buffers (process_block st) = block_buffers st.
Proof. now rewrite process_block_eq. Qed.

Lemma drained_calls rt st :
  calls (drained rt st) = calls st ++ CallLock :: drain_calls (run_drain rt st).
Proof. unfold drained, record_calls, record_call. cbn. now rewrite <- app_assoc. Qed.

Lemma drained_buffers rt st :
  m_buffers (drained rt st)
  = set_m_atomInputPorts (drain_ports (run_drain rt st)) (m_buffers st).
Proof. reflexivity. Qed.

Lemma drained_run rt st : m_run (drained rt st) = m_run st.
Proof. reflexivity. Qed.

Lemma drained_distributeChannels rt st :
  m_distributeChannels (drained rt st) = m_distributeChannels st.
Proof. reflexivity. Qed.

Lemma drained_blockSize rt st : m_blockSize (drained rt st) = m_blockSize st.
Proof. reflexivity. Qed.

Lemma drained_midiEventUrid rt st : m_midiEventUrid (drained rt st) = m_midiEventUrid st.
Proof. reflexivity. Qed.

Lemma drained_worker_calls rt st : worker_calls (drained rt st) = worker_calls st.
Proof. reflexivity. Qed.

Lemma drained_responses rt st : block_responses (drained rt st) = block_responses st.
Proof. reflexivity. Qed.

Lemma block_calls_drained rt st :
  block_calls (drained rt st)
  = [CallRun (plugin_input (drained rt st)) (m_blockSize st)]
    ++ worker_calls st
    ++ flat_map (atom_out_calls (m_midiEventUrid st))
                (m_atomOutputPorts (plugin_output (drained rt st)))
    ++ [CallUnlock].
Proof.
  unfold block_calls.
  now rewrite drained_blockSize, drained_worker_calls, drained_midiEventUrid.
Qed.

Lemma plugin_input_inputs st :
  m_inputBuffers (plugin_input st)
  = if m_distributeChannels st
    then combine_buffers (m_blockSize st) (m_inputBuffers (m_buffers st))
    else m_inputBuffers (m_buffers st).
Proof. unfold plugin_input. destruct (m_distributeChannels st); reflexivity. Qed.

Lemma block_buffers_outputs st :
  m_outputBuffers (block_buffers st)
  = if m_distributeChannels st
    then distribute_buffers (m_blockSize st) (m_outputBuffers (plugin_output st))
    else m_outputBuffers (plugin_output st).
Proof. unfold block_buffers. destruct (m_distributeChannels st); reflexivity. Qed.

Lemma record_call_buffers c st : m_buffers (record_call c st) = m_buffers st.
Proof. reflexivity. Qed.

Lemma record_call_run c st : m_run (record_call c st) = m_run st.
Proof. reflexivity. Qed.

Lemma run_decode_error rt st :
  drain_exit (run_drain rt st) = DecodeError ->
  run rt st = record_call CallUnlock (drained rt st).
Proof. unfold run. now intros ->. Qed.

Lemma run_drain_done rt st :
  drain_exit (run_drain rt st) = DrainDone ->
  run rt st = process_block (drained rt st).
Proof. unfold run. now intros ->. Qed.

Lemma run_events rt st : m_eventBuffer (run rt st) = drain_events (run_drain rt st).
Proof.
  unfold run. destruct (drain_exit (run_drain rt st));
    rewrite ?process_block_events; reflexivity.
Qed.

(** The calls of one run: the lock, the append calls of the event loop,
    and then either the unlock of the early return or the rest of the
    block. *)
Lemma run_calls rt st :
  new_calls st (run rt st)
  = CallLock :: drain_calls (run_drain rt st)
    ++ match drain_exit (run_drain rt st) with
       | DecodeError => [CallUnlock]
       | DrainDone => block_calls (drained rt st)
       end.
Proof.
  apply new_calls_app. unfold run.
  destruct (drain_exit (run_drain rt st)).
  - rewrite process_block_calls, drained_calls. now rewrite <- app_assoc.
  - unfold record_call. cbn -[drained]. rewrite drained_calls.
    now rewrite <- app_assoc.
Qed.

Lemma run_responses rt st :
  workerResponses (run rt st)
  = match drain_exit (run_drain rt st) with
    | DecodeError => workerResponses st
    | DrainDone => block_responses st
    end.
Proof.
  unfold run. destruct (drain_exit (run_drain rt st)); [|reflexivity].
  now rewrite process_block_responses, drained_responses.
Qed.

Lemma offer_appends event indices :
  Forall (fun c => exists port ev, c = CallAppendEvent port ev) (offer event indices).
Proof. unfold offer. apply Forall_forall. intros c (i & -> & _)%list_elem_of_fmap. eauto. Qed.

Lemma drain_calls_appends rt st :
  Forall (fun c => exists port ev, c = CallAppendEvent port ev)
         (drain_calls (run_drain rt st)).
Proof.
  unfold run_drain.
  destruct (drain_spec rt (m_sampleRate st) (m_blockSize st) (m_midiEventUrid st)
              (m_eventBuffer st) (m_midiParser st) (m_atomInputPorts (m_buffers st)) [])
    as (consumed & events & _ & _ & -> & _).
  cbn. induction events as [|ev events IH]; cbn; [constructor|].
  apply Forall_app. split; [apply offer_appends | exact IH].
Qed.

Lemma atom_out_calls_updates urid aops :
  Forall (fun c => exists port ev, c = CallUpdatePortValue port ev)
         (flat_map (atom_out_calls urid) aops).
Proof.
  induction aops as [|ap aops IH]; cbn; [constructor|].
  apply Forall_app. split; [|exact IH].
  unfold atom_out_calls.
  induction (lv2_atom_sequence_foreach (atomSeq ap)) as [|ev evs IHe]; cbn;
    [constructor|].
  destruct (body_type ev =? urid); cbn; [exact IHe|]. constructor; eauto.
Qed.

(** ** The event queue *)

Lemma sendEvent_ordered st t e :
  ordered (m_eventBuffer st) = true -> ordered (m_eventBuffer (sendEvent t e st)) = true.
Proof. apply ordered_map_assign. Qed.

Lemma sendEvents_ordered es st :
  ordered (m_eventBuffer st) = true -> ordered (m_eventBuffer (sendEvents es st)) = true.
Proof.
  revert st. induction es as [|[t e] es IH]; intros st Hord; [exact Hord|].
  cbn. apply IH. now apply sendEvent_ordered.
Qed.

(** C10: the queue holds at most one event per time.  Two sendEvent calls
    with the same time, with any other sendEvent calls between them and no
    run or discardEvents, leave exactly one entry for that time, the
    second event; sent back to back, the pair has the effect of the second
    call alone. *)
Theorem sendEvent_same_time_replaces st t e1 e2 (others : list (RealTime * snd_seq_event_t)) :
  ordered (m_eventBuffer st) = true ->
  let st2 := sendEvent t e2 (sendEvents others (sendEvent t e1 st)) in
  entries_at t (m_eventBuffer st2) = [(t, e2)]
  /\ NoDup (keys (m_eventBuffer st2))
  /\ ordered (m_eventBuffer st2) = true
  /\ sendEvent t e2 (sendEvent t e1 st) = sendEvent t e2 st.
Proof.
  intros Hord st2.
  assert (Hmid : ordered (m_eventBuffer (sendEvents others (sendEvent t e1 st))) = true)
    by now apply sendEvents_ordered, sendEvent_ordered.
  assert (H2 : ordered (m_eventBuffer st2) = true) by now apply sendEvent_ordered.
  repeat split.
  - unfold st2, sendEvent at 1. cbn. now apply entries_at_map_assign.
  - now apply ordered_NoDup.
  - exact H2.
  - unfold sendEvent. cbn. now rewrite map_assign_twice.
Qed.

(** ** Control ports *)

Lemma clamp_two_tests lo hi v :
  float_lt hi lo = false ->
  (let v1 := if float_lt v lo then lo else v in
   if float_gt v1 hi then hi else v1) = clamp lo hi v.
Proof.
  unfold clamp, float_gt, float_lt. intros Hrange. cbn zeta.
  destruct (SFltb v lo); [now rewrite Hrange | reflexivity].
Qed.

(** C7: on a control input port whose declared range is a range (max not
    below min), setPortValue followed by getPortValue returns the value
    clamped to [min, max]. *)
Theorem setPortValue_getPortValue_clamped st portNumber value portData old :
  map_find portNumber (m_controlPortsIn (m_buffers st)) = Some old ->
  ports (m_pluginData st) !! Z.to_nat portNumber = Some portData ->
  float_lt (max portData) (min portData) = false ->
  getPortValue portNumber (setPortValue portNumber value st)
  = clamp (min portData) (max portData) value.
Proof.
  intros Hfind Hport Hrange.
  unfold setPortValue, getPortValue. rewrite Hfind, Hport. cbn.
  rewrite map_find_assign_eq. now apply clamp_two_tests.
Qed.

(** ** The worker responses *)

(** C8, as the code has it.  In a run that comes out of its event loop,
    the calls after the plugin's process callback are one work_response
    per completed job queued for this instance's (instrument, position),
    in queue order, followed by end_run when the plugin provides that
    hook; those jobs leave the queue and the jobs of other instances stay;
    without a worker interface there is neither a response nor a hook
    call, and the queue is left as it is.  A run that leaves its event
    loop by the early return makes no call after the append calls of the
    loop but the unlock: the process callback is not invoked, no response
    is polled or forwarded, the hook is not called, and the queue of
    responses is as it was. *)
Theorem run_forwards_worker_responses_unless_it_returns_early rt st :
  match drain_exit (run_drain rt st) with
  | DrainDone =>
      exists appends updates,
        new_calls st (run rt st)
        = CallLock :: appends
          ++ [CallRun (plugin_input (drained rt st)) (m_blockSize st)]
          ++ match m_workerInterface st with
             | Some wi =>
                 map CallWorkResponse (jobs_of (pluginPosition st) (workerResponses st))
                 ++ match end_run wi with Some _ => [CallEndRun] | None => [] end
             | None => []
             end
          ++ updates ++ [CallUnlock]
        /\ Forall (fun c => exists port ev, c = CallAppendEvent port ev) appends
        /\ Forall (fun c => exists port ev, c = CallUpdatePortValue port ev) updates
        /\ workerResponses (run rt st)
           = match m_workerInterface st with
             | Some _ => jobs_of_others (pluginPosition st) (workerResponses st)
             | None => workerResponses st
             end
  | DecodeError =>
      exists appends,
        new_calls st (run rt st) = CallLock :: appends ++ [CallUnlock]
        /\ Forall (fun c => exists port ev, c = CallAppendEvent port ev) appends
        /\ workerResponses (run rt st) = workerResponses st
  end.
Proof.
  destruct (drain_exit (run_drain rt st)) eqn:Hexit.
  - exists (drain_calls (run_drain rt st)),
           (flat_map (atom_out_calls (m_midiEventUrid st))
                     (m_atomOutputPorts (plugin_output (drained rt st)))).
    split; [|split; [|split]].
    + rewrite run_calls, Hexit, block_calls_drained. reflexivity.
    + apply drain_calls_appends.
    + apply atom_out_calls_updates.
    + rewrite run_responses, Hexit. reflexivity.
  - exists (drain_calls (run_drain rt st)).
    split; [|split].
    + rewrite run_calls, Hexit. reflexivity.
    + apply drain_calls_appends.
    + rewrite run_responses, Hexit. reflexivity.
Qed.

(** ** The early return of the event loop *)

(** C2, as the code has it: when the first pending envelope is in range
    and the decoder refuses it, run returns at once.  The envelope is still
    in the queue with all that follow it, the only calls are the lock and
    the unlock (so the process callback is not invoked), and neither the
    buffers nor the [m_run] flag change. *)
Theorem run_decode_failure_returns_early rt st first qEvent rest :
  m_eventBuffer st = (first, qEvent) :: rest ->
  frameOffsetOf rt (m_sampleRate st) first <= m_blockSize st ->
  fst (snd (snd_midi_event_decode (m_midiParser st) qEvent)) <= 0 ->
  m_eventBuffer (run rt st) = (first, qEvent) :: rest
  /\ new_calls st (run rt st) = [CallLock; CallUnlock]
  /\ m_buffers (run rt st) = m_buffers st
  /\ m_run (run rt st) = m_run st.
Proof.
  intros Hq Hrange Hdec.
  assert (Hd : run_drain rt st
               = mkDrain ((first, qEvent) :: rest)
                         (fst (snd_midi_event_decode (m_midiParser st) qEvent))
                         (m_atomInputPorts (m_buffers st)) [] DecodeError).
  { unfold run_drain. rewrite Hq. cbn [drain]. cbn zeta.
    destruct (frameOffsetOf rt (m_sampleRate st) first >? m_blockSize st) eqn:E; [lia|].
    destruct (snd_midi_event_decode (m_midiParser st) qEvent) as [p' [bytes buf]].
    cbn in Hdec. destruct (bytes <=? 0) eqn:E'; [reflexivity | lia]. }
  split; [|split; [|split]].
  - rewrite run_events, Hd. reflexivity.
  - rewrite run_calls, Hd. reflexivity.
  - rewrite run_decode_error by now rewrite Hd.
    rewrite record_call_buffers, drained_buffers, Hd.
    destruct (m_buffers st); reflexivity.
  - rewrite run_decode_error by now rewrite Hd.
    now rewrite record_call_run, drained_run.
Qed.

(** ** The end of the block *)

Lemma drain_cons_consumed `{AlsaMidi} bufferStart sampleRate blockSize urid
    first qEvent next parser aips cs :
  frameOffsetOf bufferStart sampleRate first <= blockSize ->
  0 < fst (snd (snd_midi_event_decode parser qEvent)) ->
  let event := midi_event (frameOffsetOf bufferStart sampleRate first) urid
                          (snd (snd_midi_event_decode parser qEvent)) in
  drain bufferStart sampleRate blockSize urid ((first, qEvent) :: next) parser aips cs
  = drain bufferStart sampleRate blockSize urid next
          (fst (snd_midi_event_decode parser qEvent))
          (fst (append_midi event aips))
          (cs ++ offer event (midi_indices aips)).
Proof.
  intros Hrange Hdec event. cbn [drain]. cbn zeta.
  destruct (frameOffsetOf bufferStart sampleRate first >? blockSize) eqn:E; [lia|].
  subst event. destruct (snd_midi_event_decode parser qEvent) as [p' [bytes buf]].
  cbn in Hdec |- *. destruct (bytes <=? 0) eqn:E'; [lia|].
  unfold midi_event. cbn [fst snd].
  rewrite <- append_midi_calls.
  destruct (append_midi _ aips) as [aips' cs']. reflexivity.
Qed.

(** C1, as the code has it: the loop stops only at an offset greater than
    the block length.  A first envelope whose offset equals the block
    length is taken in this block: it leaves the queue, and an event
    stamped with the block length is offered to every MIDI port. *)
Theorem run_takes_event_at_block_length rt st first qEvent rest :
  m_eventBuffer st = (first, qEvent) :: rest ->
  frameOffsetOf rt (m_sampleRate st) first = m_blockSize st ->
  0 < fst (snd (snd_midi_event_decode (m_midiParser st) qEvent)) ->
  let event := midi_event (m_blockSize st) (m_midiEventUrid st)
                          (snd (snd_midi_event_decode (m_midiParser st) qEvent)) in
  (exists consumed, rest = consumed ++ m_eventBuffer (run rt st))
  /\ exists cs,
       new_calls st (run rt st)
       = CallLock :: offer event (midi_indices (m_atomInputPorts (m_buffers st))) ++ cs.
Proof.
  intros Hq Hoff Hdec event.
  assert (Hd : run_drain rt st
               = drain rt (m_sampleRate st) (m_blockSize st) (m_midiEventUrid st) rest
                       (fst (snd_midi_event_decode (m_midiParser st) qEvent))
                       (fst (append_midi event (m_atomInputPorts (m_buffers st))))
                       ([] ++ offer event (midi_indices (m_atomInputPorts (m_buffers st))))).
  { unfold run_drain. rewrite Hq. subst event. rewrite <- Hoff.
    apply drain_cons_consumed; [lia | exact Hdec]. }
  destruct (drain_spec rt (m_sampleRate st) (m_blockSize st) (m_midiEventUrid st) rest
              (fst (snd_midi_event_decode (m_midiParser st) qEvent))
              (fst (append_midi event (m_atomInputPorts (m_buffers st))))
              ([] ++ offer event (midi_indices (m_atomInputPorts (m_buffers st)))))
    as (consumed & events & Hrest & _ & Hcalls & _).
  rewrite <- Hd in Hrest, Hcalls. split.
  - exists consumed. now rewrite run_events.
  - rewrite run_calls, Hcalls. cbn [app]. rewrite <- app_assoc. eauto.
Qed.

(** ** Order and uniqueness of delivery *)

Lemma consumed_frames rt rate n urid consumed events :
  Forall2 (consumed_as rt rate n urid) consumed events ->
  map time_frames events = map (frameOffsetOf rt rate) (keys consumed).
Proof.
  induction 1 as [|te ev consumed events (_ & p & _ & ->) _ IH]; [reflexivity|].
  cbn. now rewrite IH.
Qed.

Lemma appended_frames_app cs1 cs2 :
  appended_frames (cs1 ++ cs2) = appended_frames cs1 ++ appended_frames cs2.
Proof. unfold appended_frames. apply flat_map_app. Qed.

Lemma appended_frames_offer event indices :
  appended_frames (offer event indices) = map (fun _ => time_frames event) indices.
Proof.
  induction indices as [|i indices IH]; [reflexivity|].
  change (time_frames event :: appended_frames (offer event indices)
          = time_frames event :: map (fun _ => time_frames event) indices).
  now rewrite IH.
Qed.

Lemma appended_frames_cons c cs :
  appended_frames (c :: cs)
  = match c with CallAppendEvent _ event => [time_frames event] | _ => [] end
    ++ appended_frames cs.
Proof. reflexivity. Qed.

Lemma appended_frames_none cs :
  Forall (fun c => forall port ev, c <> CallAppendEvent port ev) cs ->
  appended_frames cs = [].
Proof.
  induction 1 as [|c cs Hc _ IH]; [reflexivity|].
  rewrite appended_frames_cons, IH.
  destruct c; try reflexivity. now destruct (Hc port event).
Qed.

Lemma appended_frames_block_calls st : appended_frames (block_calls st) = [].
Proof.
  apply appended_frames_none. unfold block_calls, worker_calls.
  repeat (apply Forall_app; split).
  - repeat constructor. discriminate.
  - destruct (m_workerInterface st) as [wi|]; [|constructor].
    apply Forall_app. split.
    + apply Forall_forall. intros c (job & -> & _)%list_elem_of_fmap. discriminate.
    + destruct (end_run wi); repeat constructor. discriminate.
  - eapply Forall_impl; [apply atom_out_calls_updates|].
    intros c (port & ev & ->). discriminate.
  - repeat constructor. discriminate.
Qed.

Lemma offers_cons ev events indices :
  flat_map (fun ev => offer ev indices) (ev :: events)
  = offer ev indices ++ flat_map (fun ev => offer ev indices) events.
Proof. reflexivity. Qed.

Lemma appended_frames_offers indices events x :
  In x (appended_frames (flat_map (fun ev => offer ev indices) events)) ->
  In x (map time_frames events).
Proof.
  induction events as [|ev events IH]; [intros []|].
  rewrite offers_cons, appended_frames_app, appended_frames_offer.
  intros [Hin|Hin]%in_app_or; [|right; auto].
  apply in_map_iff in Hin as (_ & <- & _). now left.
Qed.

Lemma appended_frames_sorted indices events :
  StronglySorted Z.le (map time_frames events) ->
  StronglySorted Z.le (appended_frames (flat_map (fun ev => offer ev indices) events)).
Proof.
  induction events as [|ev events IH]; intros Hs; [constructor|].
  cbn [map] in Hs. apply StronglySorted_cons in Hs as [Hall Hs].
  rewrite offers_cons, appended_frames_app, appended_frames_offer.
  apply StronglySorted_app. split; [|split; [|auto]].
  - intros x1 x2 (_ & -> & _)%list_elem_of_fmap Hx2.
    rewrite Forall_forall in Hall. apply Hall, list_elem_of_In.
    eapply appended_frames_offers, list_elem_of_In, Hx2.
  - clear. induction indices as [|i indices IHi]; cbn; constructor; [exact IHi|].
    apply Forall_forall. intros y (_ & -> & _)%list_elem_of_fmap. lia.
Qed.

Lemma sublist_map {A B} (f : A -> B) (k l : list A) :
  k `sublist_of` l -> map f k `sublist_of` map f l.
Proof. induction 1; cbn; now constructor. Qed.

(** One run passes a prefix of the queue. *)
Lemma run_passes_prefix rt st :
  exists consumed events,
    m_eventBuffer st = consumed ++ m_eventBuffer (run rt st)
    /\ Forall2 (consumed_as rt (m_sampleRate st) (m_blockSize st) (m_midiEventUrid st))
               consumed events
    /\ drain_calls (run_drain rt st)
       = flat_map (fun ev => offer ev (midi_indices (m_atomInputPorts (m_buffers st)))) events
    /\ Forall2 (port_grows events) (m_atomInputPorts (m_buffers st))
               (drain_ports (run_drain rt st)).
Proof.
  destruct (drain_spec rt (m_sampleRate st) (m_blockSize st) (m_midiEventUrid st)
              (m_eventBuffer st) (m_midiParser st) (m_atomInputPorts (m_buffers st)) [])
    as (consumed & events & Hq & Hcons & Hcalls & Hports).
  exists consumed, events. rewrite run_events. auto.
Qed.

(** A refusal anywhere in the loop: the envelopes before
    the refused one have been passed on to the ports, the refused one and
    those after it stay, and the run ends with the unlock, without the
    process callback. *)
Lemma run_stops_at_refused_envelope rt st :
  drain_exit (run_drain rt st) = DecodeError ->
  exists consumed first qEvent rest appends,
    m_eventBuffer st = consumed ++ (first, qEvent) :: rest
    /\ m_eventBuffer (run rt st) = (first, qEvent) :: rest
    /\ frameOffsetOf rt (m_sampleRate st) first <= m_blockSize st
    /\ (exists p, fst (snd (snd_midi_event_decode p qEvent)) <= 0)
    /\ new_calls st (run rt st) = CallLock :: appends ++ [CallUnlock]
    /\ Forall (fun c => exists port ev, c = CallAppendEvent port ev) appends
    /\ m_run (run rt st) = m_run st.
Proof.
  intros Hexit.
  pose proof (drain_stop rt (m_sampleRate st) (m_blockSize st) (m_midiEventUrid st)
                (m_eventBuffer st) (m_midiParser st)
                (m_atomInputPorts (m_buffers st)) []) as Hstop.
  destruct (run_passes_prefix rt st) as (consumed & events & Hq & _).
  cbv zeta in Hstop. fold (run_drain rt st) in Hstop.
  rewrite Hexit in Hstop. rewrite run_events in Hq.
  destruct (drain_events (run_drain rt st)) as [|[first qEvent] rest] eqn:Erest;
    [destruct Hstop|].
  destruct Hstop as [Hrange Hrefused].
  exists consumed, first, qEvent, rest, (drain_calls (run_drain rt st)).
  split; [exact Hq|]. split; [now rewrite run_events|].
  split; [exact Hrange|]. split; [exact Hrefused|].
  split; [now rewrite run_calls, Hexit|].
  split; [apply drain_calls_appends|].
  rewrite run_decode_error by exact Hexit.
  now rewrite record_call_run, drained_run.
Qed.

Lemma run_ordered rt st :
  ordered (m_eventBuffer st) = true -> ordered (m_eventBuffer (run rt st)) = true.
Proof.
  destruct (run_passes_prefix rt st) as (consumed & _ & Hq & _).
  rewrite Hq at 1. intros Hord. now apply ordered_app_inv in Hord.
Qed.

Lemma run_blocks_suffix rts st :
  exists consumed, m_eventBuffer st = consumed ++ m_eventBuffer (run_blocks rts st).
Proof.
  revert st. induction rts as [|rt rts IH]; intros st.
  - now exists [].
  - change (run_blocks (rt :: rts) st) with (run_blocks rts (run rt st)).
    destruct (run_passes_prefix rt st) as (c1 & _ & Hc1 & _).
    destruct (IH (run rt st)) as (c2 & Hc2).
    exists (c1 ++ c2). rewrite <- app_assoc, <- Hc2. exact Hc1.
Qed.

(** C3: with the queue in key order (its times pairwise distinct), one
    run passes a prefix of the queue: it builds one event per envelope of
    the prefix, stamped with that envelope's frame offset, and these
    offsets are non-decreasing.  The append calls of the run carry these
    stamps in that order, and each atom input port, as the loop leaves it
    for the plugin, has grown by a sub-sequence of these events.  The
    envelopes of the prefix have left the queue, and none of their times
    is in the queue after any number of further runs, so none is delivered
    a second time. *)
Theorem run_delivers_in_order_and_once rt st :
  ordered (m_eventBuffer st) = true ->
  0 <= m_sampleRate st ->
  exists consumed events,
    m_eventBuffer st = consumed ++ m_eventBuffer (run rt st)
    /\ Forall2 (consumed_as rt (m_sampleRate st) (m_blockSize st) (m_midiEventUrid st))
               consumed events
    /\ StronglySorted Z.le (map time_frames events)
    /\ appended_frames (new_calls st (run rt st))
       = appended_frames
           (flat_map (fun ev => offer ev (midi_indices (m_atomInputPorts (m_buffers st))))
                     events)
    /\ StronglySorted Z.le (appended_frames (new_calls st (run rt st)))
    /\ Forall2 (fun a a' =>
                  exists added,
                    seq_events (atomSeq a') = seq_events (atomSeq a) ++ added
                    /\ added `sublist_of` events
                    /\ StronglySorted Z.le (map time_frames added))
               (m_atomInputPorts (m_buffers st)) (drain_ports (run_drain rt st))
    /\ forall rts t,
         In t (keys consumed) ->
         ~ In t (keys (m_eventBuffer (run_blocks rts (run rt st)))).
Proof.
  intros Hord Hrate.
  destruct (run_passes_prefix rt st) as (consumed & events & Hq & Hcons & Hcalls & Hports).
  assert (Hsorted : StronglySorted Z.le (map time_frames events)).
  { rewrite (consumed_frames _ _ _ _ _ _ Hcons).
    rewrite Hq in Hord. unfold keys.
    assert (Hc : ordered consumed = true).
    { clear -Hord. induction consumed as [|[k v] c IH]; [reflexivity|].
      cbn [app] in Hord. apply ordered_cons_inv in Hord as [Hm Hall].
      apply ordered_cons; [auto|]. unfold keys in *. rewrite map_app in Hall.
      now apply Forall_app in Hall as [Hall _]. }
    now apply ordered_offsets_sorted. }
  assert (Hframes : appended_frames (new_calls st (run rt st))
                    = appended_frames
                        (flat_map (fun ev => offer ev (midi_indices (m_atomInputPorts (m_buffers st))))
                                  events)).
  { rewrite run_calls, Hcalls.
    rewrite appended_frames_cons, appended_frames_app. cbn [app].
    destruct (drain_exit (run_drain rt st));
      [rewrite appended_frames_block_calls | cbn]; now rewrite app_nil_r. }
  exists consumed, events. repeat (split; [assumption|]).
  split; [|split].
  - rewrite Hframes. now apply appended_frames_sorted.
  - eapply Forall2_impl; [exact Hports|].
    intros a a' (_ & _ & added & Hadd & Hsub & _). exists added.
    repeat (split; [assumption|]).
    eapply sublist_sorted; [|exact Hsorted]. now apply sublist_map.
  - intros rts t Hin Hin'.
    destruct (run_blocks_suffix rts (run rt st)) as (c2 & Hc2).
    rewrite Hq, Hc2 in Hord.
    apply ordered_app_inv in Hord as [_ Hlt].
    assert (t < t); [|lia]. apply Hlt; [exact Hin|].
    unfold keys. rewrite map_app. apply in_or_app. now right.
Qed.

(** ** Changing the channel count *)

Lemma keeps_buffers_refl st : keeps_buffers st st.
Proof. repeat split. Qed.

Lemma keeps_buffers_trans st1 st2 st3 :
  keeps_buffers st1 st2 -> keeps_buffers st2 st3 -> keeps_buffers st1 st3.
Proof.
  intros (?&?&?&?&?&?&?&?&?) (?&?&?&?&?&?&?&?&?). repeat split; congruence.
Qed.

(** The destructor is where the buffers go: it deletes every audio input
    buffer. *)
Lemma destruct_instance_deletes_inputs st k :
  (k < length (m_audioPortsIn st))%nat ->
  In (CallDeleteArray (InputBuffer k)) (new_calls st (destruct_instance st)).
Proof.
  intros Hk.
  assert (Hcalls : exists pre post,
             calls (destruct_instance st)
             = calls st ++ pre
               ++ map (fun i => CallDeleteArray (InputBuffer i))
                      (seq 0 (length (m_audioPortsIn st)))
               ++ post).
  { unfold destruct_instance, cleanup, deactivate, record_calls, record_call, isOK.
    cbv zeta. cbn.
    destruct (m_instance st);
      [exists [CallUnRegisterPlugin (pluginPosition st); CallDeactivate; CallFree]
      |exists [CallUnRegisterPlugin (pluginPosition st); CallFree]];
      eexists; cbn; rewrite <- !app_assoc; cbn; reflexivity. }
  destruct Hcalls as (pre & post & Hcalls).
  rewrite (new_calls_app _ _ _ Hcalls).
  apply in_or_app. right. apply in_or_app. left.
  apply in_map_iff. exists k. split; [reflexivity|]. apply in_seq. lia.
Qed.

Lemma setPortValue_shell portNumber value st :
  m_sampleRate (setPortValue portNumber value st) = m_sampleRate st.
Proof.
  unfold setPortValue.
  destruct (map_find _ _); [|reflexivity]. destruct (_ !! _); reflexivity.
Qed.

Lemma setPortValue_frame portNumber value st :
  calls (setPortValue portNumber value st) = calls st
  /\ m_instance (setPortValue portNumber value st) = m_instance st
  /\ m_uri (setPortValue portNumber value st) = m_uri st
  /\ keeps_buffers st (setPortValue portNumber value st).
Proof.
  unfold setPortValue.
  destruct (map_find _ _); [|repeat split].
  destruct (_ !! _); repeat split.
Qed.

Lemma restore_frame values st :
  let st' := fold_left (fun st pv => setPortValue_state (fst pv) (snd pv) st) values st in
  calls st' = calls st /\ m_instance st' = m_instance st /\ m_uri st' = m_uri st
  /\ keeps_buffers st st'.
Proof.
  revert st. induction values as [|[i v] values IH]; intros st; cbn.
  - repeat split.
  - destruct (IH (setPortValue_state i v st)) as (Hc & Hi & Hu & Hk).
    assert (Hs : calls (setPortValue_state i v st) = calls st
                 /\ m_instance (setPortValue_state i v st) = m_instance st
                 /\ m_uri (setPortValue_state i v st) = m_uri st
                 /\ keeps_buffers st (setPortValue_state i v st)).
    { destruct v; cbn; try apply setPortValue_frame. repeat split. }
    destruct Hs as (Hc' & Hi' & Hu' & Hk').
    repeat split; try congruence.
    all: eapply keeps_buffers_trans in Hk; [|exact Hk']; apply Hk.
Qed.

Lemma connectPorts_frame st :
  calls (connectPorts st) = calls st ++ connect_calls st
  /\ m_instance (connectPorts st) = m_instance st
  /\ keeps_buffers st (connectPorts st).
Proof.
  unfold connectPorts. cbv zeta.
  destruct (restore_frame (getDefaultStateByUri (m_uri (record_calls (connect_calls st) st)))
              (record_calls (connect_calls st) st)) as (Hc & Hi & _ & Hk).
  rewrite Hc, Hi. repeat split; apply Hk.
Qed.

Lemma connect_audio_no_delete mk audioPorts buf b :
  ~ In (CallDeleteArray b) (connect_audio mk audioPorts buf).
Proof.
  revert buf. induction audioPorts as [|p l IH]; intros buf Hin; cbn in Hin; [destruct Hin|].
  destruct (p =? -1); [now apply IH in Hin|].
  destruct Hin as [Hin|Hin]; [discriminate | now apply IH in Hin].
Qed.

Lemma setIdealChannelCount_changed channels st :
  channels <> m_channelCount st ->
  let st' := setIdealChannelCount channels st in
  let ok := match lilv_plugin_instantiate (m_uri st) (m_sampleRate st) with
            | Some _ => true
            | None => false
            end in
  calls st'
  = calls st
    ++ (if isOK st then [CallDeactivate] else [])
    ++ [CallFree; CallInstantiate (m_sampleRate st)]
    ++ (if ok then connect_calls st ++ [CallActivate] else [])
  /\ isOK st' = ok /\ keeps_buffers st st'.
Proof.
  intros Hne st' ok. subst st' ok. unfold setIdealChannelCount.
  destruct (channels =? m_channelCount st) eqn:E; [lia|]. cbv zeta.
  set (st1 := if isOK st then deactivate st else st).
  assert (Hst1 : calls st1 = calls st ++ (if isOK st then [CallDeactivate] else [])
                 /\ m_uri st1 = m_uri st /\ m_sampleRate st1 = m_sampleRate st
                 /\ m_buffers st1 = m_buffers st
                 /\ m_audioPortsIn st1 = m_audioPortsIn st
                 /\ m_audioPortsOut st1 = m_audioPortsOut st
                 /\ m_distributeChannels st1 = m_distributeChannels st
                 /\ m_eventBuffer st1 = m_eventBuffer st).
  { subst st1. destruct (isOK st); cbn; rewrite ?app_nil_r; repeat split. }
  destruct Hst1 as (Hc1 & Hu1 & Hr1 & Hb1 & Hi1 & Ho1 & Hd1 & He1).
  clearbody st1.
  set (st3 := instantiate (m_sampleRate (cleanup st1)) (cleanup st1)).
  assert (Hst3 : calls st3 = calls st1 ++ [CallFree; CallInstantiate (m_sampleRate st)]
                 /\ m_instance st3 = lilv_plugin_instantiate (m_uri st) (m_sampleRate st)
                 /\ m_buffers st3 = m_buffers st1
                 /\ m_audioPortsIn st3 = m_audioPortsIn st1
                 /\ m_audioPortsOut st3 = m_audioPortsOut st1
                 /\ m_distributeChannels st3 = m_distributeChannels st1
                 /\ m_eventBuffer st3 = m_eventBuffer st1).
  { subst st3. unfold instantiate, cleanup, record_call. cbn.
    rewrite Hu1, Hr1, <- app_assoc. repeat split. }
  destruct Hst3 as (Hc3 & Hi3 & Hb3 & Hin3 & Hout3 & Hd3 & He3).
  clearbody st3.
  assert (Hconn : connect_calls st3 = connect_calls st).
  { unfold connect_calls. now rewrite Hin3, Hout3, Hb3, Hi1, Ho1, Hb1. }
  assert (Hok3 : isOK st3 = match lilv_plugin_instantiate (m_uri st) (m_sampleRate st) with
                            | Some _ => true
                            | None => false
                            end) by (unfold isOK; now rewrite Hi3).
  rewrite Hok3.
  destruct (lilv_plugin_instantiate (m_uri st) (m_sampleRate st)) as [inst|] eqn:Einst.
  - destruct (connectPorts_frame st3) as (Hc & Hi & Hk).
    unfold activate, record_call, isOK. cbn. rewrite Hc, Hi, Hi3, Hc3, Hc1, Hconn. cbn.
    split; [now rewrite <- !app_assoc|]. split; [reflexivity|].
    destruct Hk as (?&?&?&?&?&?&?&?&?).
    repeat split; cbn; congruence.
  - rewrite Hc3, Hc1. split; [now rewrite <- !app_assoc|].
    split; [exact Hok3|].
    repeat split; congruence.
Qed.

(** C9 as amended: a request for the current channel count changes
    nothing.  A request for another count deactivates the instance if it
    is runnable, frees the plugin instance and instantiates the plugin
    again; if that yields a handle the ports are connected again, to the
    same buffers, and the instance is activated.  No buffer is released on
    the way: the audio buffers, the atom buffers, the pending events and
    the port lists are those the instance had. *)
Theorem setIdealChannelCount_reinstantiates_on_same_buffers channels st :
  (channels = m_channelCount st -> setIdealChannelCount channels st = st)
  /\ (channels <> m_channelCount st ->
      let st' := setIdealChannelCount channels st in
      let ok := match lilv_plugin_instantiate (m_uri st) (m_sampleRate st) with
                | Some _ => true
                | None => false
                end in
      new_calls st st'
      = (if isOK st then [CallDeactivate] else [])
        ++ [CallFree; CallInstantiate (m_sampleRate st)]
        ++ (if ok then connect_calls st ++ [CallActivate] else [])
      /\ isOK st' = ok
      /\ keeps_buffers st st'
      /\ forall b, ~ In (CallDeleteArray b) (new_calls st st')).
Proof.
  split.
  - intros ->. unfold setIdealChannelCount. now rewrite Z.eqb_refl.
  - intros Hne st' ok.
    destruct (setIdealChannelCount_changed channels st Hne) as (Hcalls & Hok & Hkeep).
    fold st' in Hcalls, Hok, Hkeep. fold ok in Hcalls, Hok.
    rewrite (new_calls_app _ _ _ Hcalls).
    split; [reflexivity|]. split; [exact Hok|]. split; [exact Hkeep|].
    intros b Hin.
    apply in_app_or in Hin as [Hin|Hin]; [destruct (isOK st); cbn in Hin; intuition congruence|].
    apply in_app_or in Hin as [Hin|Hin]; [cbn in Hin; intuition congruence|].
    destruct ok; [|destruct Hin].
    apply in_app_or in Hin as [Hin|Hin]; [|cbn in Hin; intuition congruence].
    unfold connect_calls in Hin.
    repeat (apply in_app_or in Hin as [Hin|Hin]);
      try (apply in_map_iff in Hin as (? & ? & _); discriminate);
      eapply connect_audio_no_delete; exact Hin.
Qed.

(** ** Life cycle *)

Lemma init_port_shell i portData st : same_shell st (init_port i portData st).
Proof.
  unfold init_port.
  destruct (portType portData), (portProtocol portData), (isInput portData);
    try (repeat split; reflexivity).
  all: destruct (_ || _)%bool; repeat split; reflexivity.
Qed.

Lemma init_ports_shell ps i st : same_shell st (init_ports i ps st).
Proof.
  revert i st. induction ps as [|portData ps IH]; intros i st; cbn [init_ports].
  - repeat split; reflexivity.
  - destruct (IH (i + 1) (init_port i portData st)) as (?&?&?&?&?&?&?&?).
    destruct (init_port_shell i portData st) as (?&?&?&?&?&?&?&?).
    repeat split; congruence.
Qed.

Lemma init_shell idealChannelCount st : same_shell st (init idealChannelCount st).
Proof.
  unfold init. cbv zeta.
  set (st1 := init_ports 0 _ _).
  assert (Hs : same_shell st st1).
  { destruct (init_ports_shell (ports (m_pluginData (set_m_channelCount idealChannelCount st)))
                0 (set_m_channelCount idealChannelCount st)) as (?&?&?&?&?&?&?&?).
    repeat split; assumption. }
  destruct Hs as (?&?&?&?&?&?&?&?).
  destruct (_ && _)%bool; repeat split; assumption.
Qed.

(** ** The queue invariant holds in every state the class can be in *)

Lemma construct_events instrument position sampleRate blockSize idealChannelCount uri :
  m_eventBuffer (construct instrument position sampleRate blockSize idealChannelCount uri)
  = [].
Proof.
  unfold construct. cbv zeta.
  set (st0 := mkInstance _ _ _ _ _ _ _ _ _ _ _ _ _ _ _ _ _ _ _ _).
  destruct (init_shell idealChannelCount st0) as (_&_&_&_&_&_&_&Hev).
  set (st1 := init idealChannelCount st0) in *.
  set (st2 := instantiate sampleRate _).
  assert (Hst2 : m_eventBuffer st2 = m_eventBuffer st1) by reflexivity.
  clearbody st2. cbn.
  destruct (isOK st2).
  - destruct (connectPorts_frame st2) as (_ & _ & Hk).
    destruct Hk as (_&_&_&_&_&_&_&_&He). cbn. rewrite He, Hst2. exact Hev.
  - rewrite Hst2. exact Hev.
Qed.

Lemma reachable_ordered st : reachable st -> ordered (m_eventBuffer st) = true.
Proof.
  induction 1 as [instrument position sampleRate blockSize idealChannelCount uri
                 | st t e _ IH | st _ IH | st rt _ IH | st p v _ IH | st channels _ IH
                 | st _ IH | st pp job _ IH | st ins _ IH].
  - now rewrite construct_events.
  - now apply sendEvent_ordered.
  - reflexivity.
  - now apply run_ordered.
  - destruct (setPortValue_frame p v st) as (_ & _ & _ & Hk).
    destruct Hk as (_&_&_&_&_&_&_&_&He). now rewrite He.
  - destruct (Z.eq_dec channels (m_channelCount st)) as [->|Hne].
    + unfold setIdealChannelCount. now rewrite Z.eqb_refl.
    + destruct (setIdealChannelCount_changed channels st Hne) as (_ & _ & Hk).
      destruct Hk as (_&_&_&_&_&_&_&_&He). now rewrite He.
  - unfold silence. destruct (isOK st); [exact IH | exact IH].
  - exact IH.
  - exact IH.
Qed.


(** ** Channel adaptation *)

Lemma init_port_audio i portData st :
  m_audioPortsIn (init_port i portData st)
  = m_audioPortsIn st ++ (if is_audio true portData then [i] else [])
  /\ m_audioPortsOut (init_port i portData st)
     = m_audioPortsOut st ++ (if is_audio false portData then [i] else [])
  /\ m_channelCount (init_port i portData st) = m_channelCount st.
Proof.
  unfold init_port, is_audio.
  destruct (portType portData), (portProtocol portData), (isInput portData); cbn;
    rewrite ?app_nil_r; try (repeat split; reflexivity).
  all: destruct (_ || _)%bool; cbn; rewrite ?app_nil_r; repeat split; reflexivity.
Qed.

Lemma init_ports_audio ps i st :
  length (m_audioPortsIn (init_ports i ps st))
  = (length (m_audioPortsIn st) + length (List.filter (is_audio true) ps))%nat
  /\ length (m_audioPortsOut (init_ports i ps st))
     = (length (m_audioPortsOut st) + length (List.filter (is_audio false) ps))%nat
  /\ m_channelCount (init_ports i ps st) = m_channelCount st.
Proof.
  revert i st. induction ps as [|portData ps IH]; intros i st; cbn [init_ports List.filter].
  - cbn [length]. repeat split; lia.
  - destruct (IH (i + 1) (init_port i portData st)) as (Hin & Hout & Hc).
    destruct (init_port_audio i portData st) as (Hin' & Hout' & Hc').
    rewrite Hin, Hout, Hc, Hin', Hout', Hc', !length_app.
    destruct (is_audio true portData), (is_audio false portData); cbn; repeat split; lia.
Qed.

(** init raises the flag exactly for one audio input, one audio output
    and two channels. *)
Lemma init_distributeChannels idealChannelCount st :
  m_audioPortsIn st = [] -> m_audioPortsOut st = [] ->
  m_distributeChannels (init idealChannelCount st)
  = ((audio_inputs (m_pluginData st) =? 1) && (audio_outputs (m_pluginData st) =? 1)
     && (idealChannelCount =? 2))%bool.
Proof.
  intros Hin Hout. unfold init, audio_inputs, audio_outputs. cbv zeta.
  set (st1 := init_ports 0 _ _).
  destruct (init_ports_audio (ports (m_pluginData (set_m_channelCount idealChannelCount st)))
              0 (set_m_channelCount idealChannelCount st)) as (Hi & Ho & Hc).
  fold st1 in Hi, Ho, Hc. cbn in Hi, Ho, Hc. rewrite Hin in Hi. rewrite Hout in Ho.
  cbn in Hi, Ho. cbn. rewrite Hi, Ho, Hc.
  destruct (_ && _)%bool; reflexivity.
Qed.

Lemma construct_distributeChannels
    instrument position sampleRate blockSize idealChannelCount uri :
  m_distributeChannels
    (construct instrument position sampleRate blockSize idealChannelCount uri)
  = ((audio_inputs (getPluginData uri) =? 1) && (audio_outputs (getPluginData uri) =? 1)
     && (idealChannelCount =? 2))%bool.
Proof.
  unfold construct. cbv zeta.
  set (st0 := mkInstance _ _ _ _ _ _ _ _ _ _ _ _ _ _ _ _ _ _ _ _).
  pose proof (init_distributeChannels idealChannelCount st0 eq_refl eq_refl) as Hflag.
  set (st1 := init idealChannelCount st0) in *.
  set (st2 := instantiate sampleRate _).
  assert (Hst2 : m_distributeChannels st2 = m_distributeChannels st1) by reflexivity.
  clearbody st2. cbn.
  destruct (isOK st2).
  - destruct (connectPorts_frame st2) as (_ & _ & Hk).
    destruct Hk as (_&_&_&_&_&_&_&Hd&_). cbn. rewrite Hd, Hst2. exact Hflag.
  - rewrite Hst2. exact Hflag.
Qed.

Lemma combine_loop_full n : forall i in0 in1,
  length in0 = (i + n)%nat -> length in1 = (i + n)%nat ->
  combine_loop n i in0 in1 = take i in0 ++ zip_with mix (drop i in0) (drop i in1).
Proof.
  induction n as [|n IH]; intros i in0 in1 Hl0 Hl1; cbn [combine_loop].
  - rewrite drop_ge by lia. cbn. rewrite app_nil_r. now rewrite take_ge by lia.
  - destruct (lookup_lt_is_Some_2 in0 i ltac:(lia)) as [l Hl].
    destruct (lookup_lt_is_Some_2 in1 i ltac:(lia)) as [r Hr].
    rewrite Hl, Hr.
    rewrite IH by (rewrite ?length_insert; lia).
    rewrite (take_S_r _ _ (mix l r)) by (apply list_lookup_insert_eq; lia).
    rewrite take_insert_ge by lia.
    rewrite drop_insert_lt by lia.
    rewrite (drop_S in0 l i Hl), (drop_S in1 r i Hr). cbn.
    now rewrite <- app_assoc.
Qed.

Lemma distribute_loop_full n : forall i out0 out1,
  length out0 = (i + n)%nat -> length out1 = (i + n)%nat ->
  distribute_loop n i out0 out1 = take i out1 ++ drop i out0.
Proof.
  induction n as [|n IH]; intros i out0 out1 Hl0 Hl1; cbn [distribute_loop].
  - rewrite drop_ge by lia. rewrite app_nil_r. now rewrite take_ge by lia.
  - destruct (lookup_lt_is_Some_2 out0 i ltac:(lia)) as [x Hx]. rewrite Hx.
    rewrite IH by (rewrite ?length_insert; lia).
    rewrite (take_S_r _ _ x) by (apply list_lookup_insert_eq; lia).
    rewrite take_insert_ge by lia.
    rewrite (drop_S out0 x i Hx). now rewrite <- app_assoc.
Qed.

Lemma combine_buffers_pair blockSize in0 in1 :
  length in0 = Z.to_nat blockSize -> length in1 = Z.to_nat blockSize ->
  combine_buffers blockSize [in0; in1] = [zip_with mix in0 in1; in1].
Proof.
  intros Hl0 Hl1. unfold combine_buffers. cbn.
  now rewrite combine_loop_full by (cbn; assumption).
Qed.

Lemma distribute_buffers_pair blockSize out0 out1 :
  length out0 = Z.to_nat blockSize -> length out1 = Z.to_nat blockSize ->
  distribute_buffers blockSize [out0; out1] = [out0; out0].
Proof.
  intros Hl0 Hl1. unfold distribute_buffers. cbn.
  now rewrite distribute_loop_full by (cbn; assumption).
Qed.

Lemma run_calls_contain_run rt st :
  drain_exit (run_drain rt st) = DrainDone ->
  In (CallRun (plugin_input (drained rt st)) (m_blockSize st)) (new_calls st (run rt st)).
Proof.
  intros Hexit. rewrite run_calls, Hexit, block_calls_drained.
  right. apply in_or_app. right. now left.
Qed.

Lemma run_outputs rt st :
  drain_exit (run_drain rt st) = DrainDone ->
  m_outputBuffers (m_buffers (run rt st))
  = if m_distributeChannels st
    then distribute_buffers (m_blockSize st) (m_outputBuffers (plugin_output (drained rt st)))
    else m_outputBuffers (plugin_output (drained rt st)).
Proof.
  intros Hexit. rewrite run_drain_done by exact Hexit.
  now rewrite process_block_buffers, block_buffers_outputs,
    drained_distributeChannels, drained_blockSize.
Qed.

Lemma run_inputs rt st :
  m_inputBuffers (plugin_input (drained rt st))
  = if m_distributeChannels st
    then combine_buffers (m_blockSize st) (m_inputBuffers (m_buffers st))
    else m_inputBuffers (m_buffers st).
Proof.
  now rewrite plugin_input_inputs, drained_distributeChannels, drained_blockSize,
    drained_buffers.
Qed.

(** C5: the flag is raised exactly for a plugin with one audio input and
    one audio output on two channels, so never when the plugin's audio
    port counts equal the channel count.  In a run that reaches the
    process callback on a flagged instance, the callback finds in the
    first input buffer the samples (L[i] + R[i]) / 2, and after it the
    second output buffer is a copy of the first; on an unflagged instance
    the callback finds the input buffers as they were and its output
    buffers are left as it wrote them.  For L = [1, 3] and R = [3, 5] the
    mix is [2, 4], and a mono output [2, 4] gives [2, 4] on both
    channels. *)
Theorem channel_adaptation_only_when_flagged :
  (forall instrument position sampleRate blockSize idealChannelCount uri,
      let st := construct instrument position sampleRate blockSize idealChannelCount uri in
      (m_distributeChannels st = true
       <-> audio_inputs (getPluginData uri) = 1 /\ audio_outputs (getPluginData uri) = 1
           /\ idealChannelCount = 2)
      /\ (audio_inputs (getPluginData uri) = idealChannelCount ->
          audio_outputs (getPluginData uri) = idealChannelCount ->
          m_distributeChannels st = false))
  /\ (forall rt st in0 in1,
        m_distributeChannels st = true ->
        drain_exit (run_drain rt st) = DrainDone ->
        m_inputBuffers (m_buffers st) = [in0; in1] ->
        length in0 = Z.to_nat (m_blockSize st) ->
        length in1 = Z.to_nat (m_blockSize st) ->
        exists b, In (CallRun b (m_blockSize st)) (new_calls st (run rt st))
                  /\ m_inputBuffers b = [zip_with mix in0 in1; in1])
  /\ (forall rt st out0 out1,
        m_distributeChannels st = true ->
        drain_exit (run_drain rt st) = DrainDone ->
        m_outputBuffers (plugin_output (drained rt st)) = [out0; out1] ->
        length out0 = Z.to_nat (m_blockSize st) ->
        length out1 = Z.to_nat (m_blockSize st) ->
        m_outputBuffers (m_buffers (run rt st)) = [out0; out0])
  /\ (forall rt st,
        m_distributeChannels st = false ->
        drain_exit (run_drain rt st) = DrainDone ->
        (exists b, In (CallRun b (m_blockSize st)) (new_calls st (run rt st))
                   /\ m_inputBuffers b = m_inputBuffers (m_buffers st))
        /\ m_outputBuffers (m_buffers (run rt st))
           = m_outputBuffers (plugin_output (drained rt st)))
  /\ zip_with mix [f32_of_Z 1 0; f32_of_Z 3 0] [f32_of_Z 3 0; f32_of_Z 5 0]
     = [f32_of_Z 2 0; f32_of_Z 4 0]
  /\ distribute_buffers 2 [[f32_of_Z 2 0; f32_of_Z 4 0]; [float_zero; float_zero]]
     = [[f32_of_Z 2 0; f32_of_Z 4 0]; [f32_of_Z 2 0; f32_of_Z 4 0]].
Proof.
  split; [|split; [|split; [|split; [|split]]]].
  - intros instrument position sampleRate blockSize idealChannelCount uri st.
    subst st. rewrite construct_distributeChannels. split.
    + rewrite !andb_true_iff, !Z.eqb_eq. tauto.
    + intros Hin Hout. rewrite Hin, Hout.
      destruct (idealChannelCount =? 1) eqn:E1; [|reflexivity].
      destruct (idealChannelCount =? 2) eqn:E2; [lia | reflexivity].
  - intros rt st in0 in1 Hflag Hexit Hbufs Hl0 Hl1.
    exists (plugin_input (drained rt st)). split; [now apply run_calls_contain_run|].
    rewrite run_inputs, Hflag, Hbufs. now apply combine_buffers_pair.
  - intros rt st out0 out1 Hflag Hexit Hbufs Hl0 Hl1.
    rewrite run_outputs, Hflag, Hbufs by exact Hexit. now apply distribute_buffers_pair.
  - intros rt st Hflag Hexit. split.
    + exists (plugin_input (drained rt st)). split; [now apply run_calls_contain_run|].
      now rewrite run_inputs, Hflag.
    + now rewrite run_outputs, Hflag by exact Hexit.
  - vm_compute. reflexivity.
  - vm_compute. reflexivity.
Qed.

End Properties.

Lemma setPortValue_getPortValue_clamped_witness :
  map_find 2 (m_controlPortsIn (m_buffers Example.stereo)) = Some (f32_of_Z 1 (-1))
  /\ float_lt (f32_of_Z 1 0) (f32_of_Z 0 0) = false
  /\ getPortValue 2 (setPortValue 2 (f32_of_Z 3 (-1)) Example.stereo) = f32_of_Z 1 0.
Proof.
  split; [reflexivity|]. split; [reflexivity|].
  rewrite (setPortValue_getPortValue_clamped Example.stereo 2 (f32_of_Z 3 (-1))
             (mkPortData "gain" LV2CONTROL LV2FLOAT true (f32_of_Z 0 0) (f32_of_Z 1 0))
             (f32_of_Z 1 (-1)));
    reflexivity.
Defined.

Lemma sendEvent_same_time_replaces_witness :
  let st2 := sendEvent 5 (Example.mkSeqEvent 7 0 60 0)
               (sendEvents [(3, Example.mkSeqEvent 6 0 62 90)]
                  (sendEvent 5 (Example.mkSeqEvent 6 0 60 100) Example.stereo)) in
  entries_at 5 (m_eventBuffer st2) = [(5, Example.mkSeqEvent 7 0 60 0)].
Proof.
  exact (proj1 (sendEvent_same_time_replaces Example.stereo 5
                  (Example.mkSeqEvent 6 0 60 100) (Example.mkSeqEvent 7 0 60 0)
                  [(3, Example.mkSeqEvent 6 0 62 90)] eq_refl)).
Defined.

(** * The theorems on the example environment *)

Lemma run_takes_event_at_block_length_witness :
  frameOffsetOf 0 1000 (4 * Example.ms) = m_blockSize Example.at_block_end
  /\ m_eventBuffer (run 0 Example.at_block_end) = []
  /\ exists cs,
       new_calls Example.at_block_end (run 0 Example.at_block_end)
       = CallLock :: CallAppendEvent 3 (mkAtomEvent 4 3 1 [144; 60; 100]) :: cs.
Proof.
  destruct (run_takes_event_at_block_length 0 Example.at_block_end
              (4 * Example.ms) Example.noteOn [] eq_refl eq_refl
              ltac:(vm_compute; reflexivity))
    as [[consumed Hq] [cs Hcs]].
  split; [reflexivity|]. split.
  - symmetry in Hq. apply app_eq_nil in Hq. apply Hq.
  - exists cs. exact Hcs.
Defined.

Lemma run_decode_failure_returns_early_witness :
  m_eventBuffer (run 0 Example.with_refused)
  = [(1 * Example.ms, Example.notMidi); (2 * Example.ms, Example.noteOn)]
  /\ new_calls Example.with_refused (run 0 Example.with_refused) = [CallLock; CallUnlock]
  /\ m_run (run 0 Example.with_refused) = false.
Proof.
  destruct (run_decode_failure_returns_early 0 Example.with_refused
              (1 * Example.ms) Example.notMidi [(2 * Example.ms, Example.noteOn)]
              eq_refl ltac:(now vm_compute) ltac:(now vm_compute))
    as (Hq & Hcalls & _ & Hrun).
  split; [exact Hq|]. split; [exact Hcalls | exact Hrun].
Defined.

Lemma run_delivers_in_order_and_once_witness :
  exists consumed,
    m_eventBuffer Example.with_notes = consumed ++ m_eventBuffer (run 0 Example.with_notes)
    /\ StronglySorted Z.le
         (appended_frames (new_calls Example.with_notes (run 0 Example.with_notes)))
    /\ forall rts t,
         In t (keys consumed) ->
         ~ In t (keys (m_eventBuffer (run_blocks rts (run 0 Example.with_notes)))).
Proof.
  destruct (run_delivers_in_order_and_once 0 Example.with_notes
              eq_refl ltac:(now vm_compute))
    as (consumed & events & Hq & _ & _ & _ & Hsorted & _ & Honce).
  exists consumed. split; [exact Hq|]. split; [exact Hsorted | exact Honce].
Defined.

Lemma setPortValue_range_example :
  clamp (f32_of_Z 0 0) (f32_of_Z 1 0) (f32_of_Z 3 (-1)) = f32_of_Z 1 0.
Proof. reflexivity. Qed.

(** On a queue with a refused envelope at its head the responses stay in
    the queue; on the example with three completed jobs the two of this
    instance are forwarded in queue order, then the hook is called, and
    the job of the other instance stays. *)
Lemma run_forwards_worker_responses_unless_it_returns_early_witness :
  (workerResponses Example.refused_with_response = [(mkPosition 1 0, mkJob 1 [5])]
   /\ exists appends,
        new_calls Example.refused_with_response (run 0 Example.refused_with_response)
        = CallLock :: appends ++ [CallUnlock]
        /\ workerResponses (run 0 Example.refused_with_response)
           = workerResponses Example.refused_with_response)
  /\ workerResponses (run 0 Example.with_responses) = [(mkPosition 9 9, mkJob 1 [0])]
  /\ exists appends updates b,
       new_calls Example.with_responses (run 0 Example.with_responses)
       = CallLock :: appends
         ++ [CallRun b 4]
         ++ [CallWorkResponse (mkJob 1 [5]); CallWorkResponse (mkJob 2 [7; 7]); CallEndRun]
         ++ updates ++ [CallUnlock].
Proof.
  split.
  - split; [vm_compute; reflexivity|].
    pose proof (run_forwards_worker_responses_unless_it_returns_early
                  0 Example.refused_with_response) as Hrun.
    assert (Hexit : drain_exit (run_drain 0 Example.refused_with_response) = DecodeError)
      by (vm_compute; reflexivity).
    rewrite Hexit in Hrun. destruct Hrun as (appends & Hcalls & _ & Hq).
    exists appends. split; [exact Hcalls | exact Hq].
  - pose proof (run_forwards_worker_responses_unless_it_returns_early
                  0 Example.with_responses) as Hrun.
    assert (Hexit : drain_exit (run_drain 0 Example.with_responses) = DrainDone)
      by (vm_compute; reflexivity).
    rewrite Hexit in Hrun. destruct Hrun as (appends & updates & Hcalls & _ & _ & Hq).
    split; [exact Hq|].
    exists appends, updates, (plugin_input (drained 0 Example.with_responses)).
    exact Hcalls.
Defined.

Lemma channel_adaptation_only_when_flagged_witness :
  (exists b, In (CallRun b 2) (new_calls Example.two_frames (run 0 Example.two_frames))
             /\ m_inputBuffers b
                = [[f32_of_Z 2 0; f32_of_Z 4 0]; [f32_of_Z 3 0; f32_of_Z 5 0]])
  /\ m_outputBuffers (m_buffers (run 0 Example.two_frames))
     = [[f32_of_Z 2 0; f32_of_Z 4 0]; [f32_of_Z 2 0; f32_of_Z 4 0]].
Proof.
  pose proof channel_adaptation_only_when_flagged as (_ & Hpre & Hpost & _).
  split.
  - exact (Hpre 0 Example.two_frames
                [f32_of_Z 1 0; f32_of_Z 3 0] [f32_of_Z 3 0; f32_of_Z 5 0]
                eq_refl eq_refl eq_refl eq_refl eq_refl).
  - exact (Hpost 0 Example.two_frames
                 [f32_of_Z 2 0; f32_of_Z 4 0] [float_zero; float_zero]
                 eq_refl eq_refl eq_refl eq_refl eq_refl).
Defined.

Lemma setIdealChannelCount_reinstantiates_on_same_buffers_witness :
  new_calls Example.stereo (setIdealChannelCount 1 Example.stereo)
  = [CallDeactivate; CallFree; CallInstantiate 1000;
     CallConnectPort 0 (InputBuffer 0); CallConnectPort 1 (OutputBuffer 0);
     CallConnectPort 2 (ControlIn 2); CallConnectPort 3 (AtomIn 3); CallActivate]
  /\ m_inputBuffers (m_buffers (setIdealChannelCount 1 Example.stereo))
     = m_inputBuffers (m_buffers Example.stereo).
Proof.
  destruct (proj2 (setIdealChannelCount_reinstantiates_on_same_buffers 1 Example.stereo)
              ltac:(now vm_compute))
    as (Hcalls & _ & Hkeep & _).
  split; [exact Hcalls | apply Hkeep].
Defined.

(** C9 as stated fails: on the example instance a change of the channel
    count from 2 to 1 deactivates, re-instantiates and reactivates, but no
    buffer is freed. *)
Lemma setIdealChannelCount_frees_buffers_counterexample :
  let st := Example.stereo in
  let cs := new_calls st (setIdealChannelCount 1 st) in
  ~ (In CallDeactivate cs
     /\ (forall k, (k < length (m_inputBuffers (m_buffers st)))%nat ->
                   In (CallDeleteArray (InputBuffer k)) cs)
     /\ In (CallInstantiate (m_sampleRate st)) cs
     /\ In CallActivate cs).
Proof.
  intros st cs (_ & Hfreed & _).
  assert (Hlen : (0 < length (m_inputBuffers (m_buffers st)))%nat)
    by (vm_compute; lia).
  specialize (Hfreed 0%nat Hlen).
  assert (Hcs : cs = [CallDeactivate; CallFree; CallInstantiate 1000;
                      CallConnectPort 0 (InputBuffer 0); CallConnectPort 1 (OutputBuffer 0);
                      CallConnectPort 2 (ControlIn 2); CallConnectPort 3 (AtomIn 3);
                      CallActivate])
    by (vm_compute; reflexivity).
  rewrite Hcs in Hfreed. cbn [In] in Hfreed.
  repeat (destruct Hfreed as [Hfreed|Hfreed]; [discriminate|]).
  exact Hfreed.
Qed.

(** * More facts about the map model *)
Section StdMapMoreFacts.
Context {V : Type}.
Implicit Types (m : std_map V) (k : Z) (v : V).

Lemma map_assign_above k v m :
  Forall (fun k' => k' < k) (keys m) -> map_assign k v m = m ++ [(k, v)].
Proof.
  induction m as [|[k0 v0] m IH]; cbn; [reflexivity|].
  intros Hall. inversion Hall; subst.
  destruct (k <? k0) eqn:E1; [lia|]. destruct (k0 <? k) eqn:E2; [|lia].
  now rewrite IH.
Qed.

Lemma map_find_assign_neq k k' v m :
  k' <> k -> map_find k' (map_assign k v m) = map_find k' m.
Proof.
  intros Hne. induction m as [|[k0 v0] m IH]; cbn.
  - destruct (k' =? k) eqn:E; [lia | reflexivity].
  - destruct (k <? k0) eqn:E1; cbn.
    + destruct (k' =? k) eqn:E; [lia | reflexivity].
    + destruct (k0 <? k) eqn:E2; cbn.
      * now rewrite IH.
      * assert (k0 = k) by lia. subst.
        destruct (k' =? k) eqn:E; [lia | reflexivity].
Qed.

Lemma map_find_none_above k m :
  Forall (fun k' => k < k') (keys m) -> map_find k m = None.
Proof.
  induction m as [|[k0 v0] m IH]; cbn; [reflexivity|].
  intros Hall. inversion Hall; subst.
  destruct (k =? k0) eqn:E; [lia | auto].
Qed.

Lemma keys_map_assign_present k v m old :
  ordered m = true -> map_find k m = Some old -> keys (map_assign k v m) = keys m.
Proof.
  induction m as [|[k0 v0] m IH]; intros Hord Hfind; [discriminate|].
  apply ordered_cons_inv in Hord as [Hm Hall]. cbn in *.
  destruct (k =? k0) eqn:E.
  - assert (k = k0) by lia. subst. rewrite Z.ltb_irrefl. reflexivity.
  - destruct (k <? k0) eqn:E1.
    + rewrite map_find_none_above in Hfind; [discriminate|].
      eapply Forall_impl; [exact Hall|]. cbn. intros; lia.
    + destruct (k0 <? k) eqn:E2; [|lia]. cbn. f_equal. now apply IH.
Qed.

Lemma map_find_In k v m : map_find k m = Some v -> In (k, v) m.
Proof.
  induction m as [|[k0 v0] m IH]; cbn; [discriminate|].
  destruct (k =? k0) eqn:E.
  - intros [= ->]. left. f_equal. lia.
  - intros Hf. right. auto.
Qed.

Lemma map_find_keys k m : In k (keys m) -> exists v, map_find k m = Some v.
Proof.
  induction m as [|[k0 v0] m IH]; cbn; [intros []|].
  destruct (k =? k0) eqn:E; [eauto|].
  intros [Heq|Hin]; [lia | auto].
Qed.

(** Copying an ordered map entry by entry into an empty one gives the
    map. *)
Lemma copy_ordered m acc :
  ordered (acc ++ m) = true ->
  fold_left (fun cv (pair : Z * V) => map_assign (fst pair) (snd pair) cv) m acc = acc ++ m.
Proof.
  revert acc. induction m as [|[k v] m IH]; intros acc Hord; cbn.
  - now rewrite app_nil_r.
  - rewrite map_assign_above.
    + rewrite IH; rewrite <- app_assoc; [reflexivity | exact Hord].
    + apply Forall_forall. intros k' Hin.
      apply (proj2 (ordered_app_inv acc ((k, v) :: m) Hord)).
      * now apply list_elem_of_In.
      * now left.
Qed.

End StdMapMoreFacts.

(** * Records of calls *)
Section CallFacts.

Lemma lifecycle_app cs1 cs2 active :
  lifecycle active (cs1 ++ cs2) = lifecycle active cs1 ≫= fun a => lifecycle a cs2.
Proof.
  revert active. induction cs1 as [|c cs1 IH]; intros active; [reflexivity|].
  destruct c; cbn [app lifecycle]; destruct active; cbn; auto.
Qed.

Lemma lifecycle_neutral cs active :
  Forall (fun c => neutral c = true) cs -> lifecycle active cs = Some active.
Proof.
  induction 1 as [|c cs Hc _ IH]; [reflexivity|].
  destruct c; try discriminate; cbn; exact IH.
Qed.

Lemma lifecycle_connects cs :
  Forall (fun c => exists port buf, c = CallConnectPort port buf) cs ->
  lifecycle false cs = Some false.
Proof.
  induction 1 as [|c cs (port & buf & ->) _ IH]; [reflexivity|]. exact IH.
Qed.


Lemma forwarded_app cs1 cs2 : forwarded (cs1 ++ cs2) = forwarded cs1 ++ forwarded cs2.
Proof. unfold forwarded. apply flat_map_app. Qed.

Lemma forwarded_cons c cs :
  forwarded (c :: cs)
  = match c with CallUpdatePortValue port ev => [(port, ev)] | _ => [] end ++ forwarded cs.
Proof. reflexivity. Qed.

Lemma forwarded_none cs :
  Forall (fun c => forall port ev, c <> CallUpdatePortValue port ev) cs -> forwarded cs = [].
Proof.
  induction 1 as [|c cs Hc _ IH]; [reflexivity|].
  rewrite forwarded_cons, IH, app_nil_r.
  destruct c; try reflexivity. now destruct (Hc port event).
Qed.

Lemma forwarded_atom_out_calls urid aops :
  forwarded (flat_map (atom_out_calls urid) aops) = non_midi_events urid aops.
Proof.
  unfold non_midi_events.
  induction aops as [|ap aops IH]; [reflexivity|].
  cbn [flat_map]. rewrite forwarded_app, IH. f_equal.
  unfold atom_out_calls.
  induction (lv2_atom_sequence_foreach (atomSeq ap)) as [|ev evs IHe]; [reflexivity|].
  cbn [flat_map List.filter].
  destruct (body_type ev =? urid); cbn [negb]; [exact IHe|].
  cbn [map app]. rewrite <- IHe. reflexivity.
Qed.

End CallFacts.

(** * The members left alone *)
Section Configuration.
Context `{AlsaMidi} `{LV2Plugin} `{LV2Utils}.
Implicit Types (st : LV2PluginInstance) (rt : RealTime).

Lemma same_configuration_refl st : same_configuration st st.
Proof. repeat split. Qed.

Lemma same_configuration_trans st1 st2 st3 :
  same_configuration st1 st2 -> same_configuration st2 st3 -> same_configuration st1 st3.
Proof.
  intros (?&?&?&?&?&?&?&?&?&?&?&?&?) (?&?&?&?&?&?&?&?&?&?&?&?&?).
  repeat split; congruence.
Qed.

Lemma run_configuration rt st : same_configuration st (run rt st).
Proof.
  unfold run. destruct (drain_exit (run_drain rt st)); [rewrite process_block_eq|];
    repeat split.
Qed.

Lemma setPortValue_configuration p v st : same_configuration st (setPortValue p v st).
Proof.
  unfold setPortValue.
  destruct (map_find _ _); [|repeat split]. destruct (_ !! _); repeat split.
Qed.

Lemma setPortValue_state_configuration p v st :
  same_configuration st (setPortValue_state p v st).
Proof. destruct v; cbn; try apply setPortValue_configuration. repeat split. Qed.

Lemma restore_configuration values st :
  same_configuration st
    (fold_left (fun st pv => setPortValue_state (fst pv) (snd pv) st) values st).
Proof.
  revert st. induction values as [|[i v] values IH]; intros st; cbn.
  - apply same_configuration_refl.
  - eapply same_configuration_trans; [apply setPortValue_state_configuration | apply IH].
Qed.

Lemma connectPorts_configuration st : same_configuration st (connectPorts st).
Proof.
  unfold connectPorts. cbv zeta.
  eapply same_configuration_trans; [|apply restore_configuration]. repeat split.
Qed.

Lemma silence_configuration st : same_configuration st (silence st).
Proof. unfold silence. destruct (isOK st); repeat split. Qed.

Lemma setIdealChannelCount_configuration channels st :
  same_configuration st (setIdealChannelCount channels st).
Proof.
  unfold setIdealChannelCount.
  destruct (channels =? m_channelCount st); [apply same_configuration_refl|]. cbv zeta.
  set (st1 := if isOK st then deactivate st else st).
  assert (Hst1 : same_configuration st st1) by (subst st1; destruct (isOK st); repeat split).
  clearbody st1.
  set (st3 := instantiate (m_sampleRate (cleanup st1)) (cleanup st1)).
  assert (Hst3 : same_configuration st1 st3) by (subst st3; repeat split).
  clearbody st3.
  eapply same_configuration_trans; [exact Hst1|].
  eapply same_configuration_trans; [exact Hst3|].
  destruct (isOK st3); [|apply same_configuration_refl].
  eapply same_configuration_trans; [apply connectPorts_configuration|]. repeat split.
Qed.

Lemma setPortByteArray_configuration port protocol ba st st' :
  setPortByteArray port protocol ba st = Some st' -> same_configuration st st'.
Proof.
  unfold setPortByteArray. cbv zeta.
  destruct (protocol =? m_atomTransferUrid); [|intros [= <-]; apply same_configuration_refl].
  destruct (existsb _ _); [|intros [= <-]; apply same_configuration_refl].
  destruct (byte_array_event ba) as [event|]; [|discriminate].
  destruct (append_bytes port event _) as [aips cs]. intros [= <-]. repeat split.
Qed.

Lemma getLatency_configuration n st : same_configuration st (snd (getLatency n st)).
Proof.
  unfold getLatency. destruct (m_latencyPort st); [|apply same_configuration_refl].
  cbn [snd]. destruct (m_run st); [apply same_configuration_refl|].
  eapply same_configuration_trans; [|apply run_configuration]. repeat split.
Qed.

Lemma becomes_configuration st0 st : becomes st0 st -> same_configuration st0 st.
Proof.
  induction 1 as [st|st0 st t e _ IH|st0 st _ IH|st0 st rt _ IH|st0 st p v _ IH
                 |st0 st p v _ IH|st0 st port protocol ba st' _ IH Hset|st0 st n _ IH
                 |st0 st channels _ IH|st0 st _ IH];
    try (eapply same_configuration_trans; [exact IH|]).
  - apply same_configuration_refl.
  - repeat split.
  - repeat split.
  - apply run_configuration.
  - apply setPortValue_configuration.
  - apply setPortValue_state_configuration.
  - eapply setPortByteArray_configuration, Hset.
  - apply getLatency_configuration.
  - apply setIdealChannelCount_configuration.
  - apply silence_configuration.
Qed.

End Configuration.

(** * The record of calls of the member functions *)
Section Records.
Context `{AlsaMidi} `{LV2Plugin} `{LV2Utils}.
Implicit Types (st : LV2PluginInstance) (rt : RealTime).

Lemma worker_calls_kind st :
  Forall (fun c => (exists job, c = CallWorkResponse job) \/ c = CallEndRun) (worker_calls st).
Proof.
  unfold worker_calls. destruct (m_workerInterface st) as [wi|]; [|constructor].
  apply Forall_app. split.
  - apply Forall_forall. intros c (job & -> & _)%list_elem_of_fmap. eauto.
  - destruct (end_run wi); [|constructor]. constructor; [now right | constructor].
Qed.

(** The calls of one run, in full. *)
Lemma run_calls_eq rt st :
  calls (run rt st)
  = calls st
    ++ CallLock :: drain_calls (run_drain rt st)
    ++ match drain_exit (run_drain rt st) with
       | DecodeError => []
       | DrainDone =>
           CallRun (plugin_input (drained rt st)) (m_blockSize st)
           :: worker_calls st
           ++ flat_map (atom_out_calls (m_midiEventUrid st))
                       (m_atomOutputPorts (plugin_output (drained rt st)))
       end
    ++ [CallUnlock].
Proof.
  unfold run. destruct (drain_exit (run_drain rt st)).
  - rewrite process_block_calls, drained_calls, block_calls_drained.
    cbn [app]. now rewrite <- !app_assoc.
  - unfold record_call. cbn -[drained]. rewrite drained_calls.
    cbn [app]. now rewrite <- !app_assoc.
Qed.

(** Every call of a run but the lock and the unlock satisfies what the
    append calls, the process callback, the worker calls and the
    updatePortValue calls satisfy. *)
Lemma run_calls_all (P : Call -> Prop) rt st :
  (forall port ev, P (CallAppendEvent port ev)) ->
  (forall b n, P (CallRun b n)) ->
  (forall job, P (CallWorkResponse job)) -> P CallEndRun ->
  (forall port ev, P (CallUpdatePortValue port ev)) ->
  exists mid,
    calls (run rt st) = calls st ++ CallLock :: mid ++ [CallUnlock] /\ Forall P mid.
Proof.
  intros Happend Hrun Hwork Hend Hupdate.
  eexists. split.
  - rewrite run_calls_eq. rewrite (app_assoc (drain_calls _)). reflexivity.
  - apply Forall_app. split.
    + eapply Forall_impl; [apply drain_calls_appends|].
      intros c (port & ev & ->). apply Happend.
    + destruct (drain_exit (run_drain rt st)); [|constructor].
      constructor; [apply Hrun|]. apply Forall_app. split.
      * eapply Forall_impl; [apply worker_calls_kind|].
        intros c [(job & ->)| ->]; [apply Hwork | apply Hend].
      * eapply Forall_impl; [apply atom_out_calls_updates|].
        intros c (port & ev & ->). apply Hupdate.
Qed.

Lemma worker_instance_ok st inst :
  match worker_instance st inst with Some _ => true | None => false end
  = match inst with Some _ => true | None => false end.
Proof.
  unfold worker_instance. destruct (m_workerInterface st) as [wi|]; [|reflexivity].
  assert (Hfold : forall jobs i,
             match fold_left (fun i job => flip (work_response wi) job <$> i) jobs i with
             | Some _ => true | None => false end
             = match i with Some _ => true | None => false end).
  { induction jobs as [|job jobs IH]; intros i; [reflexivity|].
    cbn [fold_left]. rewrite IH. now destruct i. }
  specialize (Hfold (jobs_of (pluginPosition st) (workerResponses st)) inst).
  destruct (end_run wi); [|exact Hfold].
  destruct (fold_left _ _ inst); cbn in *; exact Hfold.
Qed.

Lemma run_isOK rt st : isOK (run rt st) = isOK st.
Proof.
  unfold isOK, run. destruct (drain_exit (run_drain rt st)); [|reflexivity].
  rewrite process_block_eq. cbn -[drained]. unfold block_instance.
  rewrite worker_instance_ok.
  change (m_instance (drained rt st)) with (m_instance st).
  now destruct (m_instance st).
Qed.

End Records.

(** * The life cycle of the plugin *)
Section LifeCycle.
Context `{AlsaMidi} `{LV2Plugin} `{LV2Utils}.
Implicit Types (st : LV2PluginInstance) (rt : RealTime).

Lemma connect_audio_connects mk audioPorts buf :
  Forall (fun c => exists port b, c = CallConnectPort port b) (connect_audio mk audioPorts buf).
Proof.
  revert buf. induction audioPorts as [|p l IH]; intros buf; cbn; [constructor|].
  destruct (p =? -1); [apply IH|]. constructor; [eauto | apply IH].
Qed.

Lemma connect_calls_connects st :
  Forall (fun c => exists port b, c = CallConnectPort port b) (connect_calls st).
Proof.
  unfold connect_calls. cbv zeta.
  repeat (apply Forall_app; split); try apply connect_audio_connects;
    apply Forall_forall; intros c (x & -> & _)%list_elem_of_fmap; eauto.
Qed.

(** The calls of the constructor. *)
Lemma construct_calls instrument position sampleRate blockSize idealChannelCount uri :
  let st1 := init idealChannelCount (members instrument position sampleRate blockSize uri) in
  let st := construct instrument position sampleRate blockSize idealChannelCount uri in
  let ok := match lilv_plugin_instantiate uri sampleRate with
            | Some _ => true
            | None => false
            end in
  calls st
  = CallInstantiate sampleRate
    :: (if ok then connect_calls st1 ++ [CallActivate] else [])
    ++ [CallGetExtensionData (negb ok); CallRegisterPlugin (mkPosition instrument position)]
  /\ isOK st = ok.
Proof.
  intros st1 st ok. subst st. unfold construct. cbv zeta.
  fold (members instrument position sampleRate blockSize uri). fold st1.
  destruct (init_shell idealChannelCount (members instrument position sampleRate blockSize uri))
    as (Huri & Hinst & Hcalls & Hi & Hp & Hrate & _).
  fold st1 in Huri, Hinst, Hcalls, Hi, Hp, Hrate. cbn in Huri, Hinst, Hcalls, Hi, Hp, Hrate.
  set (st2 := instantiate sampleRate _).
  assert (Hst2 : calls st2 = [CallInstantiate sampleRate]
                 /\ m_instance st2 = lilv_plugin_instantiate uri sampleRate
                 /\ connect_calls st2 = connect_calls st1
                 /\ m_instrument st2 = instrument /\ m_position st2 = position).
  { subst st2. unfold instantiate, record_call. cbn. rewrite Hcalls, Huri, Hi, Hp.
    repeat split. }
  destruct Hst2 as (Hc2 & Hi2 & Hconn & Hin2 & Hp2). clearbody st2.
  assert (Hok : isOK st2 = ok) by (unfold isOK; now rewrite Hi2).
  rewrite Hok. subst ok.
  destruct (lilv_plugin_instantiate uri sampleRate) as [inst|].
  - destruct (connectPorts_frame st2) as (Hc & Hi' & _).
    destruct (connectPorts_configuration st2) as (Hin & Hpos & _).
    unfold activate, record_call, pluginPosition, isOK. cbn.
    rewrite Hc, Hi', Hi2, Hc2, Hconn, Hin, Hpos, Hin2, Hp2. cbn.
    split; [|reflexivity]. now rewrite <- !app_assoc.
  - unfold record_call, pluginPosition, isOK. cbn. rewrite Hi2, Hc2, Hin2, Hp2.
    split; reflexivity.
Qed.

Lemma destruct_instance_calls st :
  exists deletes,
    calls (destruct_instance st)
    = calls st ++ CallUnRegisterPlugin (pluginPosition st)
      :: (if isOK st then [CallDeactivate] else []) ++ CallFree :: deletes
    /\ Forall (fun c => exists b, c = CallDeleteArray b) deletes.
Proof.
  eexists. split.
  - unfold destruct_instance, cleanup, deactivate, record_calls, record_call, isOK.
    cbv zeta. cbn. destruct (m_instance st); cbn; rewrite <- !app_assoc; cbn; reflexivity.
  - repeat (apply Forall_app; split);
      apply Forall_forall; intros c (x & -> & _)%list_elem_of_fmap; eauto.
Qed.

(** The invariant: the record of calls is a proper life cycle, and the
    plugin is active exactly when there is an instance. *)
Lemma lifecycle_step st cs (ok : bool) :
  lifecycle false (calls st) = Some (isOK st) ->
  lifecycle (isOK st) cs = Some ok ->
  lifecycle false (calls st ++ cs) = Some ok.
Proof. intros Hst Hcs. rewrite lifecycle_app, Hst. exact Hcs. Qed.

Lemma run_lifecycle rt st :
  lifecycle false (calls st) = Some (isOK st) ->
  lifecycle false (calls (run rt st)) = Some (isOK (run rt st)).
Proof.
  intros Hst. rewrite run_isOK.
  destruct (run_calls_all (fun c => neutral c = true) rt st) as (mid & -> & Hmid);
    try reflexivity.
  apply lifecycle_step; [exact Hst|]. apply lifecycle_neutral.
  constructor; [reflexivity|]. apply Forall_app. split; [exact Hmid | now constructor].
Qed.

Lemma setIdealChannelCount_lifecycle channels st :
  lifecycle false (calls st) = Some (isOK st) ->
  lifecycle false (calls (setIdealChannelCount channels st))
  = Some (isOK (setIdealChannelCount channels st)).
Proof.
  intros Hst. destruct (Z.eq_dec channels (m_channelCount st)) as [->|Hne].
  - unfold setIdealChannelCount. now rewrite Z.eqb_refl.
  - destruct (setIdealChannelCount_changed channels st Hne) as (Hcalls & Hok & _).
    cbv zeta in Hcalls, Hok. rewrite Hcalls, Hok.
    apply lifecycle_step; [exact Hst|].
    rewrite lifecycle_app.
    assert (Hdown : lifecycle (isOK st) (if isOK st then [CallDeactivate] else [])
                    = Some false) by now destruct (isOK st).
    rewrite Hdown. cbn.
    destruct (lilv_plugin_instantiate (m_uri st) (m_sampleRate st)); [|reflexivity].
    rewrite lifecycle_app, (lifecycle_connects _ (connect_calls_connects st)). reflexivity.
Qed.

Lemma setPortByteArray_calls port protocol ba st st' :
  setPortByteArray port protocol ba st = Some st' ->
  m_instance st' = m_instance st
  /\ exists cs, calls st' = calls st ++ cs
                /\ Forall (fun c => exists p ev, c = CallAppendEvent p ev) cs.
Proof.
  unfold setPortByteArray. cbv zeta.
  destruct (protocol =? m_atomTransferUrid);
    [|intros [= <-]; split; [reflexivity|]; exists []; now rewrite app_nil_r].
  destruct (existsb _ _);
    [|intros [= <-]; split; [reflexivity|]; exists []; now rewrite app_nil_r].
  destruct (byte_array_event ba) as [event|]; [|discriminate].
  destruct (append_bytes port event _) as [aips cs] eqn:E. intros [= <-].
  split; [reflexivity|]. exists cs. split; [reflexivity|].
  clear -E. revert aips cs E.
  induction (m_atomInputPorts (m_buffers st)) as [|ap rest IH]; intros aips cs; cbn.
  - intros [= <- <-]. constructor.
  - destruct (index ap =? port).
    + intros [= <- <-]. repeat constructor. eauto.
    + destruct (append_bytes port event rest) as [rest' cs'].
      intros [= <- <-]. now apply (IH rest').
Qed.

Lemma becomes_lifecycle st0 st :
  becomes st0 st ->
  lifecycle false (calls st0) = Some (isOK st0) ->
  lifecycle false (calls st) = Some (isOK st).
Proof.
  induction 1 as [st|st0 st t e _ IH|st0 st _ IH|st0 st rt _ IH|st0 st p v _ IH
                 |st0 st p v _ IH|st0 st port protocol ba st' _ IH Hset|st0 st n _ IH
                 |st0 st channels _ IH|st0 st _ IH];
    intros Hst0; try specialize (IH Hst0).
  - exact Hst0.
  - exact IH.
  - exact IH.
  - now apply run_lifecycle.
  - destruct (setPortValue_frame p v st) as (Hc & Hi & _).
    unfold isOK. now rewrite Hc, Hi.
  - destruct v; cbn; try exact IH;
      match goal with |- context [setPortValue ?p ?v st] =>
        destruct (setPortValue_frame p v st) as (Hc & Hi & _) end;
      unfold isOK; now rewrite Hc, Hi.
  - destruct (setPortByteArray_calls _ _ _ _ _ Hset) as (Hi & cs & Hc & Happ).
    rewrite Hc. unfold isOK. rewrite Hi. fold (isOK st).
    apply lifecycle_step; [exact IH|]. apply lifecycle_neutral.
    eapply Forall_impl; [exact Happ|]. now intros c (q & ev & ->).
  - unfold getLatency. destruct (m_latencyPort st); [|exact IH]. cbn [snd].
    destruct (m_run st); [exact IH|]. apply run_lifecycle. exact IH.
  - now apply setIdealChannelCount_lifecycle.
  - unfold silence. destruct (isOK st) eqn:Eok; [|now rewrite Eok].
    unfold activate, deactivate, record_call, isOK in *. cbn.
    destruct (m_instance st); [|discriminate]. cbn.
    rewrite <- app_assoc, lifecycle_app, IH. reflexivity.
Qed.

End LifeCycle.

(** * What a reader finds in an atom sequence *)
Section AtomSequences.

(** Clearing a sequence leaves nothing for a reader to find; the events
    stay behind the new end. *)
Lemma lv2_atom_sequence_clear_eq seq :
  lv2_atom_sequence_clear seq
  = mkAtomSeq sizeof_LV2_Atom_Sequence_Body (atom_type seq) []
              (seq_events seq ++ seq_beyond seq).
Proof.
  unfold lv2_atom_sequence_clear, set_atom_size. cbv zeta.
  now destruct (seq_events seq ++ seq_beyond seq).
Qed.

Lemma lv2_atom_event_extent_bound event : 16 <= lv2_atom_event_extent event.
Proof.
  unfold lv2_atom_event_extent, sizeof_LV2_Atom_Event.
  pose proof (Z.mod_pos_bound (lv2_atom_pad_size (body_size event)) (2 ^ 32) ltac:(lia)).
  lia.
Qed.

Lemma events_extent_cons ev events :
  events_extent (ev :: events) = lv2_atom_event_extent ev + events_extent events.
Proof. reflexivity. Qed.

Lemma events_extent_nonneg events : 0 <= events_extent events.
Proof.
  induction events as [|ev events IH]; [cbn; lia|].
  rewrite events_extent_cons. pose proof (lv2_atom_event_extent_bound ev). lia.
Qed.

Lemma events_extent_app events events' :
  events_extent (events ++ events') = events_extent events + events_extent events'.
Proof.
  induction events as [|ev events IH]; [reflexivity|].
  cbn [app]. rewrite !events_extent_cons, IH. lia.
Qed.

(** A reader of a tight sequence finds its events, whatever lies behind
    them. *)
Lemma walk_tight events beyond : forall offset,
  lv2_atom_sequence_walk offset (offset + events_extent events) (events ++ beyond) = events.
Proof.
  induction events as [|ev events IH]; intros offset.
  - cbn [app]. change (events_extent []) with 0. rewrite Z.add_0_r.
    destruct beyond; cbn; [reflexivity|]. now rewrite Z.ltb_irrefl.
  - cbn [app lv2_atom_sequence_walk]. rewrite events_extent_cons.
    pose proof (lv2_atom_event_extent_bound ev) as Hev.
    pose proof (events_extent_nonneg events) as Hrest.
    destruct (offset <? _) eqn:E; [|apply Z.ltb_ge in E; lia].
    rewrite Z.add_assoc. now rewrite IH.
Qed.

Lemma foreach_tight seq : tight seq -> lv2_atom_sequence_foreach seq = seq_events seq.
Proof. unfold tight, lv2_atom_sequence_foreach. intros ->. apply walk_tight. Qed.

Lemma cleared_tight ap : cleared ap -> tight (atomSeq ap).
Proof. intros [Hsize Hevents]. unfold tight. rewrite Hsize, Hevents. reflexivity. Qed.

(** What a reader finds in a sequence as init left it: the events the
    zeroed buffer reads as, none of which has a body. *)
Lemma walk_zero_events n : forall offset size,
  offset + 16 * Z.of_nat n <= size ->
  lv2_atom_sequence_walk offset size (replicate n zero_event) = replicate n zero_event.
Proof.
  induction n as [|n IH]; intros offset size Hroom; [reflexivity|].
  cbn [replicate lv2_atom_sequence_walk].
  destruct (offset <? size) eqn:E; [|lia].
  f_equal. apply IH.
  change (lv2_atom_event_extent zero_event) with 16. lia.
Qed.

Lemma walk_zeroed_body :
  lv2_atom_sequence_walk sizeof_LV2_Atom_Sequence_Body (8 * ABUFSIZED - 8) zeroed_body
  = zeroed_body.
Proof.
  unfold zeroed_body. apply walk_zero_events.
  change ((8 * ABUFSIZED - 8 - sizeof_LV2_Atom_Sequence_Body) / sizeof_LV2_Atom_Event)
    with 49999.
  rewrite Z2Nat.id by lia. unfold sizeof_LV2_Atom_Sequence_Body, ABUFSIZED. lia.
Qed.

Lemma foreach_initialised ap :
  as_initialised ap -> lv2_atom_sequence_foreach (atomSeq ap) = zeroed_body.
Proof.
  intros (Hsize & Hevents & Hbeyond). unfold lv2_atom_sequence_foreach.
  rewrite Hsize, Hevents, Hbeyond, app_nil_r. apply walk_zeroed_body.
Qed.

Lemma zeroed_body_events ev : In ev zeroed_body -> body_size ev = 0.
Proof.
  unfold zeroed_body. intros Hin. apply list_elem_of_In, elem_of_replicate in Hin.
  destruct Hin as [-> _]. reflexivity.
Qed.

(** Raising the size field of a sequence that is as init left it changes
    nothing: it is at that size already. *)
Lemma set_atom_size_initialised ap :
  as_initialised ap -> set_atom_size (8 * ABUFSIZED - 8) (atomSeq ap) = atomSeq ap.
Proof.
  destruct ap as [i midi [size type events beyond]].
  unfold as_initialised. cbn [atomSeq atom_size seq_events seq_beyond].
  intros (-> & -> & ->). unfold set_atom_size.
  cbn [atom_type seq_events seq_beyond]. cbv zeta.
  rewrite app_nil_r, walk_zeroed_body. now rewrite drop_all.
Qed.

Lemma init_atom_out_initialised aops :
  Forall as_initialised aops -> init_atom_out aops = aops.
Proof.
  induction 1 as [|ap aops Hap _ IH]; [reflexivity|].
  cbn [init_atom_out map]. fold (init_atom_out aops).
  rewrite IH, (set_atom_size_initialised ap Hap). now destruct ap.
Qed.

Lemma filter_zeroed_body urid :
  urid <> 0 ->
  List.filter (fun ev => negb (body_type ev =? urid)) zeroed_body = zeroed_body.
Proof.
  intros Hurid. apply forallb_filter_id, forallb_forall.
  intros ev Hin. unfold zeroed_body in Hin.
  apply list_elem_of_In, elem_of_replicate in Hin. destruct Hin as [-> _].
  cbn [body_type zero_event]. destruct (0 =? urid) eqn:E; [lia | reflexivity].
Qed.

End AtomSequences.

(** * Life cycle, locking and the control ports *)
Section MoreProperties.
Context `{AlsaMidi} `{LV2Plugin} `{LV2Utils}.
Implicit Types (st : LV2PluginInstance) (rt : RealTime).

(** X1: whatever member functions are called on a constructed instance, in
    whatever order, the calls made on the plugin form a proper life cycle:
    the plugin is never activated twice in a row nor deactivated while
    inactive, it is instantiated, connected and freed only while inactive,
    and it is active exactly when the instance is runnable.  The
    destructor then leaves it deactivated: it deactivates a live plugin
    before it frees it, and does not deactivate when there is none. *)
Theorem plugin_calls_follow_the_life_cycle
    instrument position sampleRate blockSize idealChannelCount uri st :
  becomes (construct instrument position sampleRate blockSize idealChannelCount uri) st ->
  lifecycle false (calls st) = Some (isOK st)
  /\ lifecycle false (calls (destruct_instance st)) = Some false.
Proof.
  intros Hbecomes.
  assert (Hst : lifecycle false (calls st) = Some (isOK st)).
  { apply (becomes_lifecycle _ _ Hbecomes).
    destruct (construct_calls instrument position sampleRate blockSize idealChannelCount uri)
      as (Hcalls & Hok).
    cbv zeta in Hcalls, Hok. rewrite Hcalls, Hok.
    destruct (lilv_plugin_instantiate uri sampleRate); [|reflexivity].
    cbn [lifecycle]. rewrite <- app_assoc, lifecycle_app.
    rewrite (lifecycle_connects _ (connect_calls_connects _)). reflexivity. }
  split; [exact Hst|].
  destruct (destruct_instance_calls st) as (deletes & -> & Hdel).
  apply lifecycle_step; [exact Hst|]. cbn [lifecycle].
  rewrite lifecycle_app.
  assert (Hdown : lifecycle (isOK st) (if isOK st then [CallDeactivate] else []) = Some false)
    by now destruct (isOK st).
  rewrite Hdown. cbn. apply lifecycle_neutral.
  eapply Forall_impl; [exact Hdel|]. now intros c (b & ->).
Qed.

(** X2: run takes the LV2Utils lock first and releases it last, once each,
    on the early return as well as at the end of a full block; nothing in
    between touches the lock. *)
Theorem run_holds_the_lock_once rt st :
  exists mid,
    new_calls st (run rt st) = CallLock :: mid ++ [CallUnlock]
    /\ Forall (fun c => locking c = false) mid.
Proof.
  destruct (run_calls_all (fun c => locking c = false) rt st) as (mid & Hcalls & Hmid);
    try reflexivity.
  exists mid. split; [|exact Hmid]. now apply new_calls_app.
Qed.

Lemma non_midi_events_types urid aops :
  Forall (fun pe : Z * LV2_Atom_Event => body_type (snd pe) <> urid)
         (non_midi_events urid aops).
Proof.
  unfold non_midi_events. apply Forall_forall. intros [port ev] Hin.
  apply list_elem_of_In, in_flat_map in Hin as (ap & _ & Hin).
  apply in_map_iff in Hin as (ev' & [= _ <-] & Hin).
  apply filter_In in Hin as [_ Hne]. cbn. lia.
Qed.

Lemma plugin_input_atom_outputs rt st :
  m_atomOutputPorts (plugin_input (drained rt st))
  = init_atom_out (m_atomOutputPorts (m_buffers st)).
Proof.
  unfold plugin_input. rewrite drained_distributeChannels.
  destruct (m_distributeChannels st); reflexivity.
Qed.

(** X3: the events a run passes to LV2Utils::updatePortValue are the
    events a reader finds in the atom output ports as the plugin left
    them, walking each sequence as far as its size field says, that are
    not MIDI events, port by port and in sequence order.  A MIDI event in
    an output port is never passed on, and a run that returns early passes
    nothing on.  The run sets the size field of every output sequence to
    the room of its buffer before the process callback; so when the plugin
    leaves the output sequences as it finds them in the first block, over
    the bytes init zeroed, every event those bytes read as is passed
    on. *)
Theorem run_forwards_the_non_midi_output rt st :
  forwarded (new_calls st (run rt st))
  = match drain_exit (run_drain rt st) with
    | DrainDone =>
        non_midi_events (m_midiEventUrid st)
                        (m_atomOutputPorts (plugin_output (drained rt st)))
    | DecodeError => []
    end
  /\ Forall (fun pe => body_type (snd pe) <> m_midiEventUrid st)
            (forwarded (new_calls st (run rt st)))
  /\ (drain_exit (run_drain rt st) = DrainDone ->
      Forall as_initialised (m_atomOutputPorts (m_buffers st)) ->
      m_atomOutputPorts (plugin_output (drained rt st))
      = m_atomOutputPorts (plugin_input (drained rt st)) ->
      m_midiEventUrid st <> 0 ->
      forwarded (new_calls st (run rt st))
      = flat_map (fun ap => map (fun ev => (index ap, ev)) zeroed_body)
                 (m_atomOutputPorts (m_buffers st))).
Proof.
  assert (Heq : forwarded (new_calls st (run rt st))
                = match drain_exit (run_drain rt st) with
                  | DrainDone =>
                      non_midi_events (m_midiEventUrid st)
                                      (m_atomOutputPorts (plugin_output (drained rt st)))
                  | DecodeError => []
                  end).
  { rewrite (new_calls_app _ _ _ (run_calls_eq rt st)).
    rewrite forwarded_cons, !forwarded_app. cbn [app].
    rewrite (forwarded_none (drain_calls _)).
    2:{ eapply Forall_impl; [apply drain_calls_appends|].
        intros c (port & ev & ->). discriminate. }
    cbn [app]. rewrite app_nil_r.
    destruct (drain_exit (run_drain rt st)); [|reflexivity].
    rewrite forwarded_cons, forwarded_app. cbn [app].
    rewrite (forwarded_none (worker_calls st)).
    2:{ eapply Forall_impl; [apply worker_calls_kind|].
        intros c [(job & ->)| ->]; discriminate. }
    apply forwarded_atom_out_calls. }
  split; [exact Heq|]. split.
  - rewrite Heq.
    destruct (drain_exit (run_drain rt st)); [apply non_midi_events_types | constructor].
  - intros Hexit Hinit Hsame Hurid.
    rewrite Heq, Hexit, Hsame, plugin_input_atom_outputs.
    rewrite (init_atom_out_initialised _ Hinit).
    unfold non_midi_events. clear -Hinit Hurid.
    induction Hinit as [|ap aops Hap _ IH]; [reflexivity|].
    cbn [flat_map]. rewrite IH, (foreach_initialised ap Hap).
    now rewrite (filter_zeroed_body _ Hurid).
Qed.

(** X4: setPortValue writes one control input and nothing else.  On a port
    number that is not a control input it changes nothing at all (and
    getPortValue of such a port is 0.0); on a control input it keeps the
    set of control inputs and its order, and leaves the value of every
    other port as it was. *)
Theorem setPortValue_writes_one_control_input portNumber value st :
  ordered (m_controlPortsIn (m_buffers st)) = true ->
  (map_find portNumber (m_controlPortsIn (m_buffers st)) = None ->
   setPortValue portNumber value st = st /\ getPortValue portNumber st = float_zero)
  /\ keys (m_controlPortsIn (m_buffers (setPortValue portNumber value st)))
     = keys (m_controlPortsIn (m_buffers st))
  /\ ordered (m_controlPortsIn (m_buffers (setPortValue portNumber value st))) = true
  /\ forall other, other <> portNumber ->
                   getPortValue other (setPortValue portNumber value st)
                   = getPortValue other st.
Proof.
  intros Hord. unfold setPortValue, getPortValue. cbv zeta.
  destruct (map_find portNumber (m_controlPortsIn (m_buffers st))) as [old|] eqn:Hfind.
  - destruct (ports (m_pluginData st) !! Z.to_nat portNumber) as [portData|].
    + cbn. repeat split.
      * discriminate.
      * discriminate.
      * eapply keys_map_assign_present; eassumption.
      * now apply ordered_map_assign.
      * intros other Hne. now rewrite map_find_assign_neq.
    + repeat split; try discriminate. exact Hord.
  - repeat split. exact Hord.
Qed.

(** X5: getControlInValues and getControlOutValues hand back the control
    maps as they are, entry for entry, whatever the caller's map held
    before. *)
Theorem getControlValues_copy_the_maps (prior : std_map float) st :
  (ordered (m_controlPortsIn (m_buffers st)) = true ->
   getControlInValues prior st = m_controlPortsIn (m_buffers st))
  /\ (ordered (m_controlPortsOut (m_buffers st)) = true ->
      getControlOutValues prior st = m_controlPortsOut (m_buffers st)).
Proof.
  unfold getControlInValues, getControlOutValues. cbv zeta.
  split; intros Hord; now rewrite copy_ordered.
Qed.

End MoreProperties.

(** * The port classifier *)
Section Classifier.
Context `{AlsaMidi} `{LV2Plugin} `{LV2Utils}.
Implicit Types (st : LV2PluginInstance) (rt : RealTime).

Lemma indices_where_bounds f i ps : Forall (fun k => i <= k) (indices_where f i ps).
Proof.
  revert i. induction ps as [|pd ps IH]; intros i; cbn [indices_where]; [constructor|].
  apply Forall_app. split.
  - destruct (f pd); repeat constructor. lia.
  - eapply Forall_impl; [apply IH|]. cbn. intros; lia.
Qed.


(** What init does with one port. *)
Lemma init_port_buffers i portData st :
  let b := m_buffers st in
  let b' := m_buffers (init_port i portData st) in
  m_controlPortsIn b'
  = (if is_control true portData
     then map_assign i float_zero (m_controlPortsIn b) else m_controlPortsIn b)
  /\ m_controlPortsOut b'
     = (if is_control false portData
        then map_assign i float_zero (m_controlPortsOut b) else m_controlPortsOut b)
  /\ m_atomInputPorts b'
     = m_atomInputPorts b ++ (if is_atom true portData then [new_atom_port i portData] else [])
  /\ m_atomOutputPorts b'
     = m_atomOutputPorts b ++ (if is_atom false portData then [new_atom_port i portData] else [])
  /\ m_inputBuffers b' = m_inputBuffers b /\ m_outputBuffers b' = m_outputBuffers b
  /\ m_latencyPort (init_port i portData st)
     = (if is_latency_port portData then Some i else m_latencyPort st).
Proof.
  unfold init_port, is_control, is_atom, is_latency_port. cbv zeta.
  destruct (portType portData), (portProtocol portData), (isInput portData); cbn;
    rewrite ?app_nil_r; try (repeat split; reflexivity).
  all: destruct (_ || _)%bool; cbn; rewrite ?app_nil_r; repeat split; reflexivity.
Qed.

Lemma init_port_audio_lists i portData st :
  m_audioPortsIn (init_port i portData st)
  = m_audioPortsIn st ++ (if is_audio true portData then [i] else [])
  /\ m_audioPortsOut (init_port i portData st)
     = m_audioPortsOut st ++ (if is_audio false portData then [i] else []).
Proof. destruct (init_port_audio i portData st) as (? & ? & _). now split. Qed.

Lemma keys_zeros indices : keys (zeros indices) = indices.
Proof.
  unfold keys, zeros. rewrite map_map. cbn. now rewrite map_id.
Qed.

(** The loop of init over the ports from number [i] on. *)
Lemma init_ports_collections ps : forall i st,
  Forall (fun k => k < i) (keys (m_controlPortsIn (m_buffers st))) ->
  Forall (fun k => k < i) (keys (m_controlPortsOut (m_buffers st))) ->
  let b := m_buffers st in
  let st' := init_ports i ps st in
  let b' := m_buffers st' in
  m_audioPortsIn st' = m_audioPortsIn st ++ indices_where (is_audio true) i ps
  /\ m_audioPortsOut st' = m_audioPortsOut st ++ indices_where (is_audio false) i ps
  /\ m_controlPortsIn b' = m_controlPortsIn b ++ zeros (indices_where (is_control true) i ps)
  /\ m_controlPortsOut b' = m_controlPortsOut b ++ zeros (indices_where (is_control false) i ps)
  /\ m_atomInputPorts b' = m_atomInputPorts b ++ atom_ports true i ps
  /\ m_atomOutputPorts b' = m_atomOutputPorts b ++ atom_ports false i ps
  /\ m_inputBuffers b' = m_inputBuffers b /\ m_outputBuffers b' = m_outputBuffers b
  /\ m_latencyPort st'
     = match last (indices_where is_latency_port i ps) with
       | Some k => Some k
       | None => m_latencyPort st
       end.
Proof.
  induction ps as [|pd ps IH]; intros i st Hin Hout; cbn zeta.
  - cbn. rewrite !app_nil_r. repeat split.
  - cbn [init_ports indices_where atom_ports].
    destruct (init_port_buffers i pd st) as (Hci & Hco & Hai & Hao & Hib & Hob & Hl).
    destruct (init_port_audio_lists i pd st) as (Hini & Houti).
    cbv zeta in Hci, Hco, Hai, Hao, Hib, Hob.
    assert (Hin' : Forall (fun k => k < i + 1)
                          (keys (m_controlPortsIn (m_buffers (init_port i pd st))))).
    { rewrite Hci. destruct (is_control true pd).
      - rewrite map_assign_above by exact Hin. unfold keys. rewrite map_app.
        apply Forall_app. split; [|cbn; constructor; [lia | constructor]].
        eapply Forall_impl; [exact Hin|]. cbn. intros; lia.
      - eapply Forall_impl; [exact Hin|]. cbn. intros; lia. }
    assert (Hout' : Forall (fun k => k < i + 1)
                           (keys (m_controlPortsOut (m_buffers (init_port i pd st))))).
    { rewrite Hco. destruct (is_control false pd).
      - rewrite map_assign_above by exact Hout. unfold keys. rewrite map_app.
        apply Forall_app. split; [|cbn; constructor; [lia | constructor]].
        eapply Forall_impl; [exact Hout|]. cbn. intros; lia.
      - eapply Forall_impl; [exact Hout|]. cbn. intros; lia. }
    destruct (IH (i + 1) (init_port i pd st) Hin' Hout')
      as (E1 & E2 & E3 & E4 & E5 & E6 & E7 & E8 & E9).
    cbv zeta in E1, E2, E3, E4, E5, E6, E7, E8, E9.
    rewrite E1, E2, E3, E4, E5, E6, E7, E8, E9.
    rewrite Hini, Houti, Hci, Hco, Hai, Hao, Hib, Hob, Hl.
    rewrite <- !app_assoc.
    repeat split.
    + destruct (is_control true pd); [|reflexivity].
      rewrite map_assign_above by exact Hin. now rewrite <- app_assoc.
    + destruct (is_control false pd); [|reflexivity].
      rewrite map_assign_above by exact Hout. now rewrite <- app_assoc.
    + destruct (is_latency_port pd) eqn:El; cbn [app].
      * destruct (indices_where is_latency_port (i + 1) ps) as [|k l] eqn:E;
          [reflexivity|].
        change (last (i :: k :: l)) with (last (k :: l)).
        destruct (last (k :: l)) eqn:Elast; [reflexivity|].
        now apply last_None in Elast.
      * reflexivity.
Qed.

Lemma atom_ports_index input i ps :
  map index (atom_ports input i ps) = indices_where (is_atom input) i ps.
Proof.
  revert i. induction ps as [|pd ps IH]; intros i; cbn [atom_ports indices_where];
    [reflexivity|].
  rewrite map_app, IH. now destruct (is_atom input pd).
Qed.

Lemma new_atom_port_initialised i portData : as_initialised (new_atom_port i portData).
Proof.
  unfold as_initialised, new_atom_port. cbv zeta.
  rewrite lv2_atom_sequence_clear_eq.
  cbn [atomSeq atom_size atom_type seq_events seq_beyond app].
  unfold set_atom_size. cbn [atom_size atom_type seq_events seq_beyond app]. cbv zeta.
  rewrite walk_zeroed_body, drop_all. repeat split.
Qed.

Lemma atom_ports_initialised input i ps : Forall as_initialised (atom_ports input i ps).
Proof.
  revert i. induction ps as [|pd ps IH]; intros i; cbn [atom_ports]; [constructor|].
  apply Forall_app. split; [|apply IH].
  destruct (is_atom input pd); [|constructor].
  constructor; [apply new_atom_port_initialised | constructor].
Qed.

Lemma atom_ports_isMidi input ps : forall i,
  0 <= i ->
  Forall (fun ap => exists k portData,
              index ap = i + Z.of_nat k /\ ps !! k = Some portData
              /\ isMidi ap = match portType portData with LV2MIDI => true | _ => false end)
         (atom_ports input i ps).
Proof.
  induction ps as [|pd ps IH]; intros i Hi; cbn [atom_ports]; [constructor|].
  apply Forall_app. split.
  - destruct (is_atom input pd); repeat constructor.
    exists 0%nat, pd. cbn. repeat split. lia.
  - eapply Forall_impl; [apply (IH (i + 1)); lia|].
    intros ap (k & portData & Hidx & Hk & Hm). exists (S k), portData.
    repeat split; [lia | exact Hk | exact Hm].
Qed.

(** The collections as init leaves them in the constructor. *)
Lemma init_members instrument position sampleRate blockSize idealChannelCount uri :
  let ps := ports (getPluginData uri) in
  let st := init idealChannelCount (members instrument position sampleRate blockSize uri) in
  let pad := if m_distributeChannels st then [-1] else [] in
  m_audioPortsIn st = indices_where (is_audio true) 0 ps ++ pad
  /\ m_audioPortsOut st = indices_where (is_audio false) 0 ps ++ pad
  /\ m_buffers st
     = mkBuffers [] [] (zeros (indices_where (is_control true) 0 ps))
                 (zeros (indices_where (is_control false) 0 ps))
                 (atom_ports true 0 ps) (atom_ports false 0 ps)
  /\ m_latencyPort st = last (indices_where is_latency_port 0 ps)
  /\ m_channelCount st = idealChannelCount.
Proof.
  intros ps st pad. subst st pad. unfold init. cbv zeta.
  set (st0 := set_m_channelCount idealChannelCount
                (members instrument position sampleRate blockSize uri)).
  change (ports (m_pluginData st0)) with ps.
  destruct (init_ports_collections ps 0 st0 ltac:(constructor) ltac:(constructor))
    as (E1 & E2 & E3 & E4 & E5 & E6 & E7 & E8 & E9).
  destruct (init_ports_audio ps 0 st0) as (_ & _ & Ec).
  cbv zeta in E1, E2, E3, E4, E5, E6, E7, E8, E9.
  cbn in E1, E2, E3, E4, E5, E6, E7, E8, E9, Ec.
  set (st1 := init_ports 0 ps st0) in *.
  assert (Hb : m_buffers st1
               = mkBuffers [] [] (zeros (indices_where (is_control true) 0 ps))
                           (zeros (indices_where (is_control false) 0 ps))
                           (atom_ports true 0 ps) (atom_ports false 0 ps)).
  { destruct (m_buffers st1). cbn in *. congruence. }
  assert (Hl : m_latencyPort st1 = last (indices_where is_latency_port 0 ps)).
  { rewrite E9. now destruct (last _). }
  clearbody st1.
  destruct (_ && _)%bool; cbn; rewrite ?app_nil_r; repeat split; congruence.
Qed.

Lemma ordered_zeros f i ps : ordered (zeros (indices_where f i ps)) = true.
Proof.
  revert i. induction ps as [|pd ps IH]; intros i; cbn [indices_where]; [reflexivity|].
  destruct (f pd); cbn [app]; [|apply IH].
  change (zeros (i :: indices_where f (i + 1) ps))
    with ((i, float_zero) :: zeros (indices_where f (i + 1) ps)).
  apply ordered_cons; [apply IH|]. rewrite keys_zeros.
  eapply Forall_impl; [apply indices_where_bounds|]. cbn. intros; lia.
Qed.

Lemma setPortValue_control_keys p v st :
  ordered (m_controlPortsIn (m_buffers st)) = true ->
  keys (m_controlPortsIn (m_buffers (setPortValue p v st)))
  = keys (m_controlPortsIn (m_buffers st))
  /\ ordered (m_controlPortsIn (m_buffers (setPortValue p v st))) = true.
Proof.
  intros Hord. unfold setPortValue. cbv zeta.
  destruct (map_find p (m_controlPortsIn (m_buffers st))) as [old|] eqn:Hfind; [|now split].
  destruct (ports (m_pluginData st) !! Z.to_nat p); [|now split]. cbn. split.
  - eapply keys_map_assign_present; eassumption.
  - now apply ordered_map_assign.
Qed.

Lemma restore_control_keys values st :
  let st' := fold_left (fun st pv => setPortValue_state (fst pv) (snd pv) st) values st in
  (ordered (m_controlPortsIn (m_buffers st)) = true ->
   keys (m_controlPortsIn (m_buffers st')) = keys (m_controlPortsIn (m_buffers st))
   /\ ordered (m_controlPortsIn (m_buffers st')) = true)
  /\ m_run st' = m_run st.
Proof.
  revert st. induction values as [|[i v] values IH]; intros st; cbn [fold_left]; cbv zeta;
    [now split|].
  assert (Hstep : (ordered (m_controlPortsIn (m_buffers st)) = true ->
                   keys (m_controlPortsIn (m_buffers (setPortValue_state i v st)))
                   = keys (m_controlPortsIn (m_buffers st))
                   /\ ordered (m_controlPortsIn (m_buffers (setPortValue_state i v st))) = true)
                  /\ m_run (setPortValue_state i v st) = m_run st).
  { assert (Hrun : forall x, m_run (setPortValue i x st) = m_run st).
    { intros x. unfold setPortValue.
      destruct (map_find _ _); [|reflexivity]. destruct (_ !! _); reflexivity. }
    destruct v; cbn [fst snd setPortValue_state]; (split; [|auto]);
      try (now apply setPortValue_control_keys). now split. }
  destruct Hstep as [Hk Hr]. destruct (IH (setPortValue_state i v st)) as [Hk' Hr'].
  cbn [fst snd]. split; [|congruence].
  intros Hord. destruct (Hk Hord) as [Hk1 Ho1]. destruct (Hk' Ho1) as [Hk2 Ho2].
  split; [congruence | exact Ho2].
Qed.

Lemma connectPorts_control_keys st :
  (ordered (m_controlPortsIn (m_buffers st)) = true ->
   keys (m_controlPortsIn (m_buffers (connectPorts st)))
   = keys (m_controlPortsIn (m_buffers st))
   /\ ordered (m_controlPortsIn (m_buffers (connectPorts st))) = true)
  /\ m_run (connectPorts st) = m_run st.
Proof.
  unfold connectPorts. cbv zeta.
  apply (restore_control_keys _ (record_calls (connect_calls st) st)).
Qed.

(** The instance the constructor returns, member by member, in terms of
    what init made of the port list. *)
Lemma construct_members instrument position sampleRate blockSize idealChannelCount uri :
  let st1 := init idealChannelCount (members instrument position sampleRate blockSize uri) in
  let st := construct instrument position sampleRate blockSize idealChannelCount uri in
  m_audioPortsIn st = m_audioPortsIn st1 /\ m_audioPortsOut st = m_audioPortsOut st1
  /\ m_distributeChannels st = m_distributeChannels st1
  /\ m_latencyPort st = m_latencyPort st1 /\ m_channelCount st = m_channelCount st1
  /\ m_inputBuffers (m_buffers st)
     = replicate (length (m_audioPortsIn st1)) (zero_buffer blockSize)
  /\ m_outputBuffers (m_buffers st)
     = replicate (length (m_audioPortsOut st1)) (zero_buffer blockSize)
  /\ m_controlPortsOut (m_buffers st) = m_controlPortsOut (m_buffers st1)
  /\ m_atomInputPorts (m_buffers st) = m_atomInputPorts (m_buffers st1)
  /\ m_atomOutputPorts (m_buffers st) = m_atomOutputPorts (m_buffers st1)
  /\ (ordered (m_controlPortsIn (m_buffers st1)) = true ->
      keys (m_controlPortsIn (m_buffers st)) = keys (m_controlPortsIn (m_buffers st1))
      /\ ordered (m_controlPortsIn (m_buffers st)) = true)
  /\ m_sampleRate st = sampleRate /\ m_blockSize st = blockSize /\ m_uri st = uri
  /\ m_run st = false /\ m_eventBuffer st = []
  /\ m_midiEventUrid st = uridMap LV2_MIDI__MidiEvent.
Proof.
  intros st1 st. subst st. unfold construct. cbv zeta.
  fold (members instrument position sampleRate blockSize uri). fold st1.
  destruct (init_shell idealChannelCount (members instrument position sampleRate blockSize uri))
    as (Huri & _ & _ & _ & _ & Hrate & Hblock & Hev).
  fold st1 in Huri, Hrate, Hblock, Hev. cbn in Huri, Hrate, Hblock, Hev.
  assert (Hmisc : m_run st1 = false /\ m_midiEventUrid st1 = uridMap LV2_MIDI__MidiEvent).
  { subst st1. unfold init. cbv zeta. clear.
    set (st0 := set_m_channelCount _ _).
    assert (Hloop : forall ps i st, m_run (init_ports i ps st) = m_run st
                                    /\ m_midiEventUrid (init_ports i ps st) = m_midiEventUrid st).
    { induction ps as [|pd ps IH]; intros i st; [now split|].
      cbn [init_ports]. destruct (IH (i + 1) (init_port i pd st)) as [-> ->].
      unfold init_port.
      destruct (portType pd), (portProtocol pd), (isInput pd); try (now split).
      all: destruct (_ || _)%bool; now split. }
    destruct (Hloop (ports (m_pluginData st0)) 0 st0) as [Hr Hm].
    cbn in Hr, Hm.
    destruct (_ && _)%bool; cbn; rewrite Hr, Hm; now split. }
  destruct Hmisc as [Hrun Hurid].
  set (st2 := instantiate sampleRate _).
  assert (Hst2 : m_audioPortsIn st2 = m_audioPortsIn st1
                 /\ m_audioPortsOut st2 = m_audioPortsOut st1
                 /\ m_distributeChannels st2 = m_distributeChannels st1
                 /\ m_latencyPort st2 = m_latencyPort st1
                 /\ m_channelCount st2 = m_channelCount st1
                 /\ m_inputBuffers (m_buffers st2)
                    = replicate (length (m_audioPortsIn st1)) (zero_buffer blockSize)
                 /\ m_outputBuffers (m_buffers st2)
                    = replicate (length (m_audioPortsOut st1)) (zero_buffer blockSize)
                 /\ m_controlPortsOut (m_buffers st2) = m_controlPortsOut (m_buffers st1)
                 /\ m_atomInputPorts (m_buffers st2) = m_atomInputPorts (m_buffers st1)
                 /\ m_atomOutputPorts (m_buffers st2) = m_atomOutputPorts (m_buffers st1)
                 /\ m_controlPortsIn (m_buffers st2) = m_controlPortsIn (m_buffers st1)
                 /\ m_sampleRate st2 = sampleRate /\ m_blockSize st2 = blockSize
                 /\ m_uri st2 = uri /\ m_run st2 = false /\ m_eventBuffer st2 = []
                 /\ m_midiEventUrid st2 = uridMap LV2_MIDI__MidiEvent).
  { subst st2. unfold instantiate, record_call. cbn.
    rewrite Huri, Hrate, Hblock, Hev, Hrun, Hurid. repeat split. }
  clearbody st2.
  destruct Hst2 as (E1 & E2 & E3 & E4 & E5 & E6 & E7 & E8 & E9 & E10 & E11 & E12 & E13
                    & E14 & E15 & E16 & E17).
  destruct (isOK st2).
  - destruct (connectPorts_frame st2) as (_ & _ & Hk).
    destruct Hk as (K1 & K2 & K3 & K4 & K5 & K6 & K7 & K8 & K9).
    destruct (connectPorts_configuration st2)
      as (_ & _ & C3 & _ & C5 & C6 & C7 & C8 & C9 & _).
    destruct (connectPorts_control_keys st2) as (Hkeys & Hrun').
    cbn. rewrite K1, K2, K3, K4, K5, K6, K7, K8, K9, C3, C5, C6, C7, C8, C9, Hrun'.
    rewrite E1, E2, E3, E4, E5, E6, E7, E8, E9, E10, E12, E13, E14, E15, E16, E17.
    repeat split.
    all: match goal with
         | Hord : ordered _ = true |- _ =>
             rewrite <- ?E11; rewrite <- E11 in Hord; now apply Hkeys
         end.
  - cbn. rewrite E1, E2, E3, E4, E5, E6, E7, E8, E9, E10, E11.
    repeat split; try assumption.
Qed.

End Classifier.

(** * The constructor *)
Section Constructor.
Context `{AlsaMidi} `{LV2Plugin} `{LV2Utils}.
Implicit Types (st : LV2PluginInstance) (rt : RealTime).












(** X6: the constructor files every port of the plugin under exactly one
    heading, in port order.  An audio port is an audio input or output
    whatever its protocol; any other port is an atom port if its protocol
    is the atom protocol (a MIDI one if its type is MIDI) and a control
    port otherwise, so a MIDI port without the atom protocol is kept as a
    control port.  The control outputs start at 0.0, the latency port is
    the last control output named "latency" or "_latency", and there is
    one zeroed buffer of a block's length for every entry of the two audio
    lists, the padding entry -1 of a mono plugin on a stereo bus
    included. *)
Theorem constructor_sorts_every_port
    instrument position sampleRate blockSize idealChannelCount uri :
  let ps := ports (getPluginData uri) in
  let st := construct instrument position sampleRate blockSize idealChannelCount uri in
  let pad := if m_distributeChannels st then [-1] else [] in
  m_audioPortsIn st = indices_where (is_audio true) 0 ps ++ pad
  /\ m_audioPortsOut st = indices_where (is_audio false) 0 ps ++ pad
  /\ keys (m_controlPortsIn (m_buffers st)) = indices_where (is_control true) 0 ps
  /\ m_controlPortsOut (m_buffers st) = zeros (indices_where (is_control false) 0 ps)
  /\ map index (m_atomInputPorts (m_buffers st)) = indices_where (is_atom true) 0 ps
  /\ map index (m_atomOutputPorts (m_buffers st)) = indices_where (is_atom false) 0 ps
  /\ Forall (fun ap => exists portData,
                 ps !! Z.to_nat (index ap) = Some portData
                 /\ isMidi ap = match portType portData with LV2MIDI => true | _ => false end)
            (m_atomInputPorts (m_buffers st) ++ m_atomOutputPorts (m_buffers st))
  /\ m_latencyPort st = last (indices_where is_latency_port 0 ps)
  /\ m_inputBuffers (m_buffers st)
     = replicate (length (m_audioPortsIn st)) (zero_buffer blockSize)
  /\ m_outputBuffers (m_buffers st)
     = replicate (length (m_audioPortsOut st)) (zero_buffer blockSize).
Proof.
  intros ps st pad.
  destruct (construct_members instrument position sampleRate blockSize idealChannelCount uri)
    as (M1 & M2 & M3 & M4 & _ & M6 & M7 & M8 & M9 & M10 & M11 & _).
  destruct (init_members instrument position sampleRate blockSize idealChannelCount uri)
    as (I1 & I2 & I3 & I4 & _).
  cbv zeta in M1, M2, M3, M4, M6, M7, M8, M9, M10, M11, I1, I2, I3, I4.
  fold st ps in M1, M2, M3, M4, M6, M7, M8, M9, M10, M11, I1, I2, I3, I4.
  rewrite I3 in M8, M9, M10, M11.
  cbn [m_controlPortsIn m_controlPortsOut m_atomInputPorts m_atomOutputPorts]
    in M8, M9, M10, M11.
  destruct (M11 (ordered_zeros _ _ _)) as [Hkeys _]. rewrite keys_zeros in Hkeys.
  subst pad. rewrite M3.
  rewrite M6, M7, M8, M9, M10, !atom_ports_index, <- M1, <- M2.
  repeat split; try assumption; try congruence.
  apply Forall_app. split.
  all: eapply Forall_impl; [apply atom_ports_isMidi; lia|].
  all: intros ap (k & portData & Hidx & Hk & Hm); exists portData.
  all: rewrite Hidx, Z.add_0_l, Nat2Z.id; now split.
Qed.


End Constructor.

(** * Room in the atom sequences *)
Section Room.

(** The padded size is the size rounded up to a multiple of 8. *)
Lemma lv2_atom_pad_size_spec size : lv2_atom_pad_size size = 8 * ((size + 7) / 8).
Proof.
  unfold lv2_atom_pad_size.
  change 7 with (Z.ones 3) at 2.
  rewrite <- Z.ldiff_land, Z.ldiff_ones_r by lia.
  rewrite Z.shiftl_mul_pow2, Z.shiftr_div_pow2 by lia.
  change (2 ^ 3) with 8. lia.
Qed.

Lemma lv2_atom_pad_size_bounds size :
  size <= lv2_atom_pad_size size <= size + 7.
Proof.
  rewrite lv2_atom_pad_size_spec.
  pose proof (Z.div_mod (size + 7) 8 ltac:(lia)).
  pose proof (Z.mod_pos_bound (size + 7) 8 ltac:(lia)). lia.
Qed.

(** An event of up to 100 body bytes takes at most 120 bytes of a
    sequence. *)
Lemma event_pad_bound bytes :
  0 <= bytes <= 100 -> 16 + bytes <= lv2_atom_pad_size (16 + bytes) <= 120.
Proof.
  intros Hb. rewrite lv2_atom_pad_size_spec.
  pose proof (Z.div_mod (16 + bytes + 7) 8 ltac:(lia)).
  pose proof (Z.mod_pos_bound (16 + bytes + 7) 8 ltac:(lia)).
  assert ((16 + bytes + 7) / 8 < 16) by (apply Z.div_lt_upper_bound; lia).
  lia.
Qed.

(** With room, the append stores the event and moves the size field on by
    the padded size; without room it stores nothing. *)
Lemma append_event_fits seq event :
  0 <= body_size event <= 100 ->
  8 <= atom_size seq -> atom_size seq + 120 <= 8 * ABUFSIZED ->
  lv2_atom_sequence_append_event seq (8 * ABUFSIZED) event
  = Some (mkAtomSeq (atom_size seq + lv2_atom_pad_size (16 + body_size event))
                    (atom_type seq) (seq_events seq ++ [event]) []).
Proof.
  intros Hb Hlo Hhi. unfold lv2_atom_sequence_append_event, sizeof_LV2_Atom_Event.
  unfold ABUFSIZED in *. cbv zeta.
  pose proof (event_pad_bound (body_size event) Hb) as Hpad.
  rewrite (Z.mod_small (16 + body_size event)) by lia.
  rewrite (Z.mod_small (8 * 100000 - atom_size seq)) by lia.
  destruct (_ <? _) eqn:E; [lia|].
  rewrite Z.mod_small by lia. reflexivity.
Qed.

Lemma append_event_tight seq seq' event :
  0 <= body_size event <= 100 ->
  8 <= atom_size seq -> atom_size seq + 120 <= 8 * ABUFSIZED ->
  tight seq ->
  lv2_atom_sequence_append_event seq (8 * ABUFSIZED) event = Some seq' ->
  tight seq'.
Proof.
  intros Hb Hlo Hhi Htight. rewrite append_event_fits by assumption.
  intros [= <-]. unfold tight in *. cbn [atom_size seq_events].
  rewrite events_extent_app, Htight, events_extent_cons.
  change (events_extent []) with 0.
  unfold lv2_atom_event_extent, sizeof_LV2_Atom_Event, sizeof_LV2_Atom_Sequence_Body.
  rewrite !lv2_atom_pad_size_spec.
  replace (16 + body_size event + 7) with (body_size event + 7 + 2 * 8) by lia.
  rewrite Z.div_add by lia.
  assert (0 <= (body_size event + 7) / 8 < 16).
  { split; [apply Z.div_pos; lia | apply Z.div_lt_upper_bound; lia]. }
  rewrite Z.mod_small by lia. lia.
Qed.

Lemma append_event_overflows seq event :
  0 < body_size event <= 100 ->
  atom_size seq = 8 * ABUFSIZED - 8 ->
  lv2_atom_sequence_append_event seq (8 * ABUFSIZED) event = None.
Proof.
  intros Hb Hsize. unfold lv2_atom_sequence_append_event, sizeof_LV2_Atom_Event.
  rewrite Hsize. unfold ABUFSIZED. cbv zeta.
  rewrite (Z.mod_small (16 + body_size event)) by lia.
  change ((8 * 100000 - (8 * 100000 - 8)) mod 2 ^ 32) with 8.
  destruct (_ <? _) eqn:E; [reflexivity | lia].
Qed.

End Room.

Section DrainRoom.
Context `{AlsaMidi}.
Variables (bufferStart : RealTime) (sampleRate blockSize midiEventUrid : Z).

Lemma append_midi_fits event aips n :
  0 <= body_size event <= 100 -> 0 <= n ->
  Forall (has_room (n + 1)) aips ->
  Forall2 (port_takes [event]) aips (fst (append_midi event aips))
  /\ Forall (has_room n) (fst (append_midi event aips)).
Proof.
  intros Hb Hn. induction 1 as [|aip rest Hroom _ [IH1 IH2]]; [split; constructor|].
  cbn [append_midi]. destruct (append_midi event rest) as [rest' cs]. cbn [fst] in *.
  unfold has_room in Hroom.
  destruct (isMidi aip) eqn:Emidi; cbn [fst].
  - destruct (Hroom eq_refl) as [Hlo Hhi].
    rewrite append_event_fits by lia.
    pose proof (event_pad_bound (body_size event) Hb).
    split; constructor; try assumption.
    + unfold port_takes. cbn. now rewrite Emidi.
    + intros _. cbn. lia.
  - split; constructor; try assumption.
    + unfold port_takes. rewrite Emidi, app_nil_r. auto.
    + intros Hm. congruence.
Qed.

Lemma append_midi_overflows event aips :
  0 < body_size event <= 100 ->
  Forall (fun a => isMidi a = true -> atom_size (atomSeq a) = 8 * ABUFSIZED - 8) aips ->
  fst (append_midi event aips) = aips.
Proof.
  intros Hb. induction 1 as [|aip rest Hfull _ IH]; [reflexivity|].
  cbn [append_midi]. destruct (append_midi event rest) as [rest' cs]. cbn [fst] in *.
  destruct (isMidi aip) eqn:Emidi; cbn [fst]; [|now rewrite IH].
  rewrite append_event_overflows by auto. now rewrite IH.
Qed.

Lemma port_takes_trans ev1 ev2 aips1 aips2 aips3 :
  Forall2 (port_takes ev1) aips1 aips2 ->
  Forall2 (port_takes ev2) aips2 aips3 ->
  Forall2 (port_takes (ev1 ++ ev2)) aips1 aips3.
Proof.
  intros H12. revert aips3. induction H12 as [|a b l1 l2 Hab _ IH]; intros aips3 H23.
  - inversion H23; constructor.
  - inversion H23 as [|b' c l2' l3 Hbc Hrest]; subst. constructor; [|auto].
    destruct Hab as (Hi & Hm & He). destruct Hbc as (Hi' & Hm' & He').
    repeat split; [congruence | congruence |].
    rewrite He', He, Hm. destruct (isMidi a); now rewrite <- app_assoc, ?app_nil_r.
Qed.

Lemma port_takes_refl aips : Forall2 (port_takes []) aips aips.
Proof.
  induction aips as [|a aips IH]; constructor; [|exact IH].
  repeat split. destruct (isMidi a); now rewrite app_nil_r.
Qed.

(** With room for every pending envelope, the loop stores every event it
    builds in every MIDI port. *)
Lemma drain_fits (Hdec : decoder_bounded) it : forall parser aips cs,
  Forall (has_room (Z.of_nat (length it))) aips ->
  let d := drain bufferStart sampleRate blockSize midiEventUrid it parser aips cs in
  exists consumed events,
    it = consumed ++ drain_events d
    /\ Forall2 (consumed_as bufferStart sampleRate blockSize midiEventUrid) consumed events
    /\ Forall2 (port_takes events) aips (drain_ports d).
Proof.
  induction it as [|[first qEvent] next IH]; intros parser aips cs Hroom.
  - exists [], []. cbn. repeat split; [constructor | apply port_takes_refl].
  - cbn [drain]. cbn zeta.
    destruct (frameOffsetOf bufferStart sampleRate first >? blockSize) eqn:Erange.
    { exists [], []. cbn. repeat split; [constructor | apply port_takes_refl]. }
    pose proof (Hdec parser qEvent) as Hbound.
    destruct (snd_midi_event_decode parser qEvent) as [parser' [bytes buf]] eqn:Edec.
    cbn [fst snd] in Hbound.
    destruct (bytes <=? 0) eqn:Ebytes.
    { exists [], []. cbn. repeat split; [constructor | apply port_takes_refl]. }
    set (event := mkAtomEvent (frameOffsetOf bufferStart sampleRate first) bytes
                              midiEventUrid (take (Z.to_nat bytes) buf)).
    destruct (append_midi_fits event aips (Z.of_nat (length next))) as [Htakes Hroom'];
      [cbn; lia | lia | |].
    { eapply Forall_impl; [exact Hroom|]. intros a Ha Hm. specialize (Ha Hm).
      cbn [length] in Ha. lia. }
    destruct (append_midi event aips) as [aips' cs'] eqn:Eapp. cbn [fst] in Htakes, Hroom'.
    destruct (IH parser' aips' (cs ++ cs') Hroom') as (consumed & events & Hq & Hcons & Hports).
    exists ((first, qEvent) :: consumed), (event :: events).
    repeat split.
    + cbn. now rewrite <- Hq.
    + constructor; [|exact Hcons]. split; [cbn; lia|].
      exists parser. cbn [fst snd]. rewrite Edec. cbn. split; [lia | reflexivity].
    + change (event :: events) with ([event] ++ events).
      eapply port_takes_trans; eassumption.
Qed.

Lemma append_midi_tight event aips n :
  0 <= body_size event <= 100 -> 0 <= n ->
  Forall (has_room (n + 1)) aips ->
  Forall (fun a => tight (atomSeq a)) aips ->
  Forall (fun a => tight (atomSeq a)) (fst (append_midi event aips)).
Proof.
  intros Hb Hn Hroom. induction Hroom as [|aip rest Hroom _ IH]; intros Htight;
    [constructor|].
  inversion Htight as [|? ? Ht Hrest]; subst.
  cbn [append_midi]. destruct (append_midi event rest) as [rest' cs]. cbn [fst] in *.
  destruct (isMidi aip) eqn:Emidi; cbn [fst]; constructor; auto.
  destruct (Hroom Emidi) as [Hlo Hhi].
  destruct (lv2_atom_sequence_append_event (atomSeq aip) (8 * ABUFSIZED) event)
    as [seq'|] eqn:Eapp; [|exact Ht].
  cbn [atomSeq]. eapply append_event_tight; [exact Hb | exact Hlo | lia | exact Ht | exact Eapp].
Qed.

(** With room for every pending envelope in sequences that are tight, the
    loop stores every event it builds in every MIDI port, offers it in the
    calls it makes, and leaves the sequences tight. *)
Lemma drain_stores (Hdec : decoder_bounded) it : forall parser aips cs,
  Forall (has_room (Z.of_nat (length it))) aips ->
  Forall (fun a => tight (atomSeq a)) aips ->
  let d := drain bufferStart sampleRate blockSize midiEventUrid it parser aips cs in
  exists consumed events,
    it = consumed ++ drain_events d
    /\ Forall2 (consumed_as bufferStart sampleRate blockSize midiEventUrid) consumed events
    /\ drain_calls d = cs ++ flat_map (fun ev => offer ev (midi_indices aips)) events
    /\ Forall2 (port_takes events) aips (drain_ports d)
    /\ Forall (fun a => tight (atomSeq a)) (drain_ports d).
Proof.
  induction it as [|[first qEvent] next IH]; intros parser aips cs Hroom Htight.
  - exists [], []. cbn. rewrite app_nil_r.
    repeat split; [constructor | apply port_takes_refl | exact Htight].
  - cbn [drain]. cbn zeta.
    destruct (frameOffsetOf bufferStart sampleRate first >? blockSize) eqn:Erange.
    { exists [], []. cbn. rewrite app_nil_r.
      repeat split; [constructor | apply port_takes_refl | exact Htight]. }
    pose proof (Hdec parser qEvent) as Hbound.
    destruct (snd_midi_event_decode parser qEvent) as [parser' [bytes buf]] eqn:Edec.
    cbn [fst snd] in Hbound.
    destruct (bytes <=? 0) eqn:Ebytes.
    { exists [], []. cbn. rewrite app_nil_r.
      repeat split; [constructor | apply port_takes_refl | exact Htight]. }
    set (event := mkAtomEvent (frameOffsetOf bufferStart sampleRate first) bytes
                              midiEventUrid (take (Z.to_nat bytes) buf)).
    assert (Hroom1 : Forall (has_room (Z.of_nat (length next) + 1)) aips).
    { eapply Forall_impl; [exact Hroom|]. intros a Ha Hm. specialize (Ha Hm).
      cbn [length] in Ha. lia. }
    destruct (append_midi_fits event aips (Z.of_nat (length next))) as [Htakes Hroom'];
      [cbn; lia | lia | exact Hroom1 |].
    pose proof (append_midi_tight event aips (Z.of_nat (length next))
                  ltac:(cbn; lia) ltac:(lia) Hroom1 Htight) as Htight'.
    pose proof (append_midi_calls event aips) as Hcalls.
    pose proof (append_midi_ports event aips) as Hgrows.
    destruct (append_midi event aips) as [aips' cs'] eqn:Eapp.
    cbn [fst snd] in Htakes, Hroom', Htight', Hcalls, Hgrows.
    destruct (IH parser' aips' (cs ++ cs') Hroom' Htight')
      as (consumed & events & Hq & Hcons & Hcs & Hports & Ht).
    exists ((first, qEvent) :: consumed), (event :: events).
    split; [cbn; now rewrite <- Hq|]. split.
    { constructor; [|exact Hcons]. split; [cbn; lia|].
      exists parser. cbn [fst snd]. rewrite Edec. cbn. split; [lia | reflexivity]. }
    split.
    { rewrite Hcs, Hcalls. cbn [flat_map].
      rewrite (port_grows_indices _ _ _ Hgrows). now rewrite <- app_assoc. }
    split; [|exact Ht].
    change (event :: events) with ([event] ++ events).
    eapply port_takes_trans; eassumption.
Qed.

(** With every MIDI sequence at the size init gives it, the loop stores
    nothing. *)
Lemma drain_overflows (Hdec : decoder_bounded) it : forall parser aips cs,
  Forall (fun a => isMidi a = true -> atom_size (atomSeq a) = 8 * ABUFSIZED - 8) aips ->
  drain_ports (drain bufferStart sampleRate blockSize midiEventUrid it parser aips cs) = aips.
Proof.
  induction it as [|[first qEvent] next IH]; intros parser aips cs Hfull; [reflexivity|].
  cbn [drain]. cbn zeta.
  destruct (frameOffsetOf bufferStart sampleRate first >? blockSize); [reflexivity|].
  pose proof (Hdec parser qEvent) as Hbound.
  destruct (snd_midi_event_decode parser qEvent) as [parser' [bytes buf]] eqn:Edec.
  cbn [fst snd] in Hbound.
  destruct (bytes <=? 0) eqn:Ebytes; [reflexivity|].
  set (event := mkAtomEvent _ bytes midiEventUrid _).
  pose proof (append_midi_overflows event aips ltac:(cbn; lia) Hfull) as Hsame.
  destruct (append_midi event aips) as [aips' cs']. cbn [fst] in Hsame. subst aips'.
  now apply IH.
Qed.

End DrainRoom.

(** * What a block takes from the queue and what the plugin sees *)
Section Blocks.
Context `{AlsaMidi} `{LV2Plugin} `{LV2Utils}.
Implicit Types (st : LV2PluginInstance) (rt : RealTime).

Lemma plugin_input_atom_inputs st :
  m_atomInputPorts (plugin_input st) = m_atomInputPorts (m_buffers st).
Proof. unfold plugin_input. destruct (m_distributeChannels st); reflexivity. Qed.

Lemma drained_atom_inputs rt st :
  m_atomInputPorts (plugin_input (drained rt st)) = drain_ports (run_drain rt st).
Proof. now rewrite plugin_input_atom_inputs, drained_buffers. Qed.

Lemma clear_atom_ports_cleared aps : Forall cleared (clear_atom_ports aps).
Proof.
  unfold clear_atom_ports. apply Forall_forall.
  intros ap (a & -> & _)%list_elem_of_fmap.
  cbn [atomSeq]. rewrite lv2_atom_sequence_clear_eq. split; reflexivity.
Qed.

Lemma block_buffers_atom_ports st :
  m_atomInputPorts (block_buffers st)
  = clear_atom_ports (m_atomInputPorts (plugin_output st))
  /\ m_atomOutputPorts (block_buffers st)
     = clear_atom_ports (m_atomOutputPorts (plugin_output st)).
Proof. unfold block_buffers. destruct (m_distributeChannels st); split; reflexivity. Qed.

(** The loop on a queue in key order whose due envelopes all decode: it
    takes the envelopes whose offset is within the block length and leaves
    the others. *)
Lemma drain_takes_the_due bufferStart sampleRate blockSize urid :
  0 <= sampleRate ->
  forall it parser aips cs,
    ordered it = true ->
    (forall t e p, In (t, e) it -> frameOffsetOf bufferStart sampleRate t <= blockSize ->
                   0 < fst (snd (snd_midi_event_decode p e))) ->
    let d := drain bufferStart sampleRate blockSize urid it parser aips cs in
    drain_events d
    = List.filter (fun te => blockSize <? frameOffsetOf bufferStart sampleRate (fst te)) it
    /\ drain_exit d = DrainDone.
Proof.
  intros Hrate. induction it as [|[first qEvent] next IH]; intros parser aips cs Hord Hdec;
    [now split|].
  apply ordered_cons_inv in Hord as [Hnext Hall].
  destruct (Z.le_gt_cases (frameOffsetOf bufferStart sampleRate first) blockSize)
    as [Hdue|Hlater].
  - cbv zeta. rewrite drain_cons_consumed;
      [|exact Hdue | apply (Hdec first qEvent); [now left | exact Hdue]].
    cbn [List.filter fst].
    destruct (blockSize <? frameOffsetOf bufferStart sampleRate first) eqn:E; [lia|].
    apply IH; [exact Hnext|]. intros t e p Hin. apply Hdec. now right.
  - cbn [drain]. cbn zeta.
    destruct (frameOffsetOf bufferStart sampleRate first >? blockSize) eqn:E; [|lia].
    cbn [drain_events drain_exit]. split; [|reflexivity].
    symmetry. apply forallb_filter_id. cbn [forallb fst].
    apply andb_true_iff. split; [lia|].
    apply forallb_forall. intros [t e] Hin. cbn [fst].
    rewrite Forall_forall in Hall.
    assert (first < t).
    { apply Hall, list_elem_of_In. unfold keys. apply in_map_iff. now exists (t, e). }
    pose proof (frameOffsetOf_mono bufferStart sampleRate first t Hrate ltac:(lia)). lia.
Qed.

(** X8: with the queue in key order, a sample rate that is not negative
    and a decoder that accepts the envelopes that are due, run takes from
    the queue exactly the envelopes whose frame offset does not exceed the
    block length (the late ones among them) and leaves exactly the others;
    it goes through to the end of the block. *)
Theorem run_takes_what_is_due rt st :
  ordered (m_eventBuffer st) = true ->
  0 <= m_sampleRate st ->
  (forall t e p, In (t, e) (m_eventBuffer st) ->
                 frameOffsetOf rt (m_sampleRate st) t <= m_blockSize st ->
                 0 < fst (snd (snd_midi_event_decode p e))) ->
  m_eventBuffer (run rt st)
  = List.filter (fun te => m_blockSize st <? frameOffsetOf rt (m_sampleRate st) (fst te))
                (m_eventBuffer st)
  /\ drain_exit (run_drain rt st) = DrainDone
  /\ m_run (run rt st) = true.
Proof.
  intros Hord Hrate Hdec.
  destruct (drain_takes_the_due rt (m_sampleRate st) (m_blockSize st) (m_midiEventUrid st)
              Hrate (m_eventBuffer st) (m_midiParser st)
              (m_atomInputPorts (m_buffers st)) [] Hord Hdec) as [Hq Hexit].
  fold (run_drain rt st) in Hq, Hexit.
  split; [now rewrite run_events|]. split; [exact Hexit|].
  rewrite run_drain_done by exact Hexit. apply process_block_run.
Qed.

(** X9: a run that goes through to the end of the block leaves every atom
    sequence, input and output, empty and at its cleared size, whatever
    the plugin left in them, and sets the flag that the plugin has run; a
    run that returns early does neither. *)
Theorem finished_block_clears_the_atom_ports rt st :
  match drain_exit (run_drain rt st) with
  | DrainDone =>
      Forall cleared (m_atomInputPorts (m_buffers (run rt st)))
      /\ Forall cleared (m_atomOutputPorts (m_buffers (run rt st)))
      /\ m_run (run rt st) = true
  | DecodeError =>
      m_atomInputPorts (m_buffers (run rt st)) = drain_ports (run_drain rt st)
      /\ m_atomOutputPorts (m_buffers (run rt st)) = m_atomOutputPorts (m_buffers st)
      /\ m_run (run rt st) = m_run st
  end.
Proof.
  destruct (drain_exit (run_drain rt st)) eqn:Hexit.
  - rewrite run_drain_done by exact Hexit.
    rewrite process_block_buffers, process_block_run.
    destruct (block_buffers_atom_ports (drained rt st)) as [-> ->].
    repeat split; apply clear_atom_ports_cleared.
  - rewrite run_decode_error by exact Hexit.
    rewrite record_call_buffers, record_call_run, drained_buffers, drained_run.
    repeat split.
Qed.

(** X10: when the atom input sequences are empty, as a finished block
    leaves them, and the queue holds no more than 6666 envelopes, every
    event the loop builds is stored: the process callback finds in each
    MIDI atom input exactly the events of the envelopes taken from the
    queue, in queue order, and in every other atom input nothing.  The
    size field of each sequence covers just its events, so a reader that
    walks the sequence finds them and no other. *)
Theorem run_hands_the_plugin_what_it_took rt st :
  decoder_bounded ->
  Forall cleared (m_atomInputPorts (m_buffers st)) ->
  Z.of_nat (length (m_eventBuffer st)) <= 6666 ->
  exists consumed events,
    m_eventBuffer st = consumed ++ m_eventBuffer (run rt st)
    /\ Forall2 (consumed_as rt (m_sampleRate st) (m_blockSize st) (m_midiEventUrid st))
               consumed events
    /\ Forall2 (fun a a' =>
                  index a' = index a /\ isMidi a' = isMidi a
                  /\ seq_events (atomSeq a') = if isMidi a then events else [])
               (m_atomInputPorts (m_buffers st))
               (m_atomInputPorts (plugin_input (drained rt st)))
    /\ (drain_exit (run_drain rt st) = DrainDone ->
        In (CallRun (plugin_input (drained rt st)) (m_blockSize st))
           (new_calls st (run rt st)))
    /\ Forall (fun a' => lv2_atom_sequence_foreach (atomSeq a') = seq_events (atomSeq a'))
              (m_atomInputPorts (plugin_input (drained rt st))).
Proof.
  intros Hdec Hclear Hlen.
  destruct (drain_stores rt (m_sampleRate st) (m_blockSize st) (m_midiEventUrid st) Hdec
              (m_eventBuffer st) (m_midiParser st) (m_atomInputPorts (m_buffers st)) [])
    as (consumed & events & Hq & Hcons & _ & Hports & Htight).
  { eapply Forall_impl; [exact Hclear|]. intros a [Hsize _] _.
    rewrite Hsize. unfold sizeof_LV2_Atom_Sequence_Body, ABUFSIZED. lia. }
  { eapply Forall_impl; [exact Hclear|]. intros a. apply cleared_tight. }
  fold (run_drain rt st) in Hq, Hports, Htight.
  exists consumed, events. split; [now rewrite run_events|]. split; [exact Hcons|].
  rewrite drained_atom_inputs.
  split; [|split; [apply run_calls_contain_run|]].
  - clear -Hclear Hports.
    induction Hports as [|a a' l l' (Hi & Hm & He) _ IH]; [constructor|].
    inversion Hclear as [|? ? [_ Hempty] Hrest]; subst.
    constructor; [|now apply IH].
    rewrite Hempty in He. now repeat split.
  - eapply Forall_impl; [exact Htight|]. intros a'. apply foreach_tight.
Qed.

(** ** Late events *)

(** A loop that comes to its end has taken every late envelope. *)
Lemma drain_done_takes_late bufferStart sampleRate blockSize urid t
    (it : std_map snd_seq_event_t) parser aips cs :
  t < bufferStart -> 0 <= blockSize ->
  ordered it = true ->
  let d := drain bufferStart sampleRate blockSize urid it parser aips cs in
  drain_exit d = DrainDone ->
  ~ In t (keys (drain_events d)).
Proof.
  intros Hlate Hn Hord d Hexit Hin.
  pose proof (drain_stop bufferStart sampleRate blockSize urid it parser aips cs) as Hstop.
  destruct (drain_spec bufferStart sampleRate blockSize urid it parser aips cs)
    as (consumed & _ & Hq & _).
  cbv zeta in Hstop, Hq. fold d in Hstop, Hq.
  rewrite Hq in Hord. apply ordered_app_inv in Hord as [Hrest _].
  rewrite Hexit in Hstop.
  destruct (drain_events d) as [|[first qEvent] rest]; [destruct Hin|].
  apply ordered_cons_inv in Hrest as [_ Hall].
  assert (Hfirst : first <= t).
  { destruct Hin as [<-|Hin]; [cbn; lia|].
    rewrite Forall_forall in Hall. apply list_elem_of_In, Hall in Hin. lia. }
  rewrite frameOffsetOf_late in Hstop by lia. lia.
Qed.

Lemma consumed_event {A B} (R : A -> B -> Prop) (l : list A) (l' : list B) x :
  Forall2 R l l' -> In x l -> exists y, In y l' /\ R x y.
Proof.
  induction 1 as [|a b l l' Hab _ IH]; intros Hin; [destruct Hin|].
  destruct Hin as [<-|Hin]; [exists b; split; [now left | exact Hab]|].
  destruct (IH Hin) as (y & Hy & Hxy). exists y. split; [now right | exact Hxy].
Qed.

Lemma offered_events (events : list LV2_Atom_Event) indices ev i :
  In ev events -> In i indices ->
  In (CallAppendEvent i ev) (flat_map (fun ev => offer ev indices) events).
Proof.
  intros Hev Hi. apply in_flat_map. exists ev. split; [exact Hev|].
  unfold offer. apply in_map_iff. now exists i.
Qed.

(** C6, as the code has it.  An envelope whose time is earlier than the
    block start gets frame offset 0.  In a run that comes to the end of
    its event loop the envelope has left the queue and the process
    callback is invoked.  When the atom input sequences are empty, as a
    finished block leaves them, with room for the pending envelopes, an
    event stamped 0 with the envelope's decoded bytes has been offered to
    every MIDI port, and a reader of every MIDI port finds it at the
    process callback: the late event is delivered at offset 0.  When the
    sequences are as init left them, as they are until a block has been
    finished, such an event has been offered as well, but no port has
    stored it: the process callback is handed the atom inputs as they
    were, and no reader finds the event, so the late event is dropped.  In
    a run that leaves the loop by the early return the process callback is
    not invoked, so nothing is delivered in that block. *)
Theorem run_late_event_delivered_or_dropped rt st t e :
  ordered (m_eventBuffer st) = true ->
  0 <= m_blockSize st ->
  decoder_bounded ->
  In (t, e) (m_eventBuffer st) ->
  t < rt ->
  frameOffsetOf rt (m_sampleRate st) t = 0
  /\ match drain_exit (run_drain rt st) with
     | DrainDone =>
         ~ In t (keys (m_eventBuffer (run rt st)))
         /\ In (CallRun (plugin_input (drained rt st)) (m_blockSize st))
               (new_calls st (run rt st))
         /\ (Forall cleared (m_atomInputPorts (m_buffers st)) ->
             Z.of_nat (length (m_eventBuffer st)) <= 6666 ->
             exists p,
               let event := midi_event 0 (m_midiEventUrid st)
                                       (snd (snd_midi_event_decode p e)) in
               0 < body_size event
               /\ Forall (fun i => In (CallAppendEvent i event) (new_calls st (run rt st)))
                         (midi_indices (m_atomInputPorts (m_buffers st)))
               /\ Forall (fun ap =>
                            isMidi ap = true ->
                            In event (lv2_atom_sequence_foreach (atomSeq ap)))
                         (m_atomInputPorts (plugin_input (drained rt st))))
         /\ (Forall as_initialised (m_atomInputPorts (m_buffers st)) ->
             exists p,
               let event := midi_event 0 (m_midiEventUrid st)
                                       (snd (snd_midi_event_decode p e)) in
               0 < body_size event
               /\ Forall (fun i => In (CallAppendEvent i event) (new_calls st (run rt st)))
                         (midi_indices (m_atomInputPorts (m_buffers st)))
               /\ m_atomInputPorts (plugin_input (drained rt st))
                  = m_atomInputPorts (m_buffers st)
               /\ Forall (fun ap => ~ In event (lv2_atom_sequence_foreach (atomSeq ap)))
                         (m_atomInputPorts (plugin_input (drained rt st))))
     | DecodeError =>
         Forall (fun c => forall b n, c <> CallRun b n) (new_calls st (run rt st))
     end.
Proof.
  intros Hord Hn Hdec Hin Hlate.
  assert (Hoff : frameOffsetOf rt (m_sampleRate st) t = 0) by now apply frameOffsetOf_late.
  split; [exact Hoff|].
  destruct (drain_exit (run_drain rt st)) eqn:Hexit.
  - assert (Hgone : ~ In t (keys (m_eventBuffer (run rt st)))).
    { rewrite run_events. unfold run_drain in *.
      now apply drain_done_takes_late. }
    assert (Htaken : forall consumed,
               m_eventBuffer st = consumed ++ m_eventBuffer (run rt st) ->
               In (t, e) consumed).
    { intros consumed Hq. rewrite Hq in Hin. apply in_app_or in Hin as [Hc|Hr]; [exact Hc|].
      exfalso. apply Hgone. unfold keys. apply in_map_iff. now exists (t, e). }
    assert (Hevent : forall consumed events,
               m_eventBuffer st = consumed ++ m_eventBuffer (run rt st) ->
               Forall2 (consumed_as rt (m_sampleRate st) (m_blockSize st) (m_midiEventUrid st))
                       consumed events ->
               exists p,
                 0 < fst (snd (snd_midi_event_decode p e))
                 /\ In (midi_event 0 (m_midiEventUrid st) (snd (snd_midi_event_decode p e)))
                       events).
    { intros consumed events Hq Hcons.
      destruct (consumed_event _ _ _ _ Hcons (Htaken consumed Hq))
        as (ev & Hev & _ & p & Hpos & ->).
      cbn [fst snd] in *. rewrite Hoff in Hev. now exists p. }
    split; [exact Hgone|]. split; [now apply run_calls_contain_run|]. split.
    + intros Hclear Hlen.
      destruct (drain_stores rt (m_sampleRate st) (m_blockSize st) (m_midiEventUrid st) Hdec
                  (m_eventBuffer st) (m_midiParser st) (m_atomInputPorts (m_buffers st)) [])
        as (consumed & events & Hq & Hcons & Hcalls & Hports & Htight).
      { eapply Forall_impl; [exact Hclear|]. intros a [Hsize _] _.
        rewrite Hsize. unfold sizeof_LV2_Atom_Sequence_Body, ABUFSIZED. lia. }
      { eapply Forall_impl; [exact Hclear|]. intros a. apply cleared_tight. }
      fold (run_drain rt st) in Hq, Hcalls, Hports, Htight. rewrite <- run_events in Hq.
      destruct (Hevent consumed events Hq Hcons) as (p & Hpos & Hev).
      exists p. cbv zeta. split; [exact Hpos|]. split.
      * apply Forall_forall. intros i Hi%list_elem_of_In.
        rewrite run_calls, Hcalls. right. apply in_or_app. left.
        now apply offered_events.
      * rewrite drained_atom_inputs. clear -Hclear Hports Htight Hev.
        induction Hports as [|a a' l l' (_ & Hm & He) _ IH]; [constructor|].
        inversion Hclear as [|? ? [_ Hempty] Hrest]; subst.
        inversion Htight as [|? ? Ht Hrest']; subst.
        constructor; [|now apply IH].
        intros Hmidi. rewrite (foreach_tight _ Ht), He, Hempty.
        rewrite Hm in Hmidi. now rewrite Hmidi.
    + intros Hinit.
      destruct (run_passes_prefix rt st) as (consumed & events & Hq & Hcons & Hcalls & _).
      destruct (Hevent consumed events Hq Hcons) as (p & Hpos & Hev).
      assert (Hsame : m_atomInputPorts (plugin_input (drained rt st))
                      = m_atomInputPorts (m_buffers st)).
      { rewrite drained_atom_inputs. unfold run_drain.
        apply (drain_overflows _ _ _ _ Hdec).
        eapply Forall_impl; [exact Hinit|]. now intros a [Hs _] _. }
      exists p. cbv zeta. split; [exact Hpos|]. split; [|split; [exact Hsame|]].
      * apply Forall_forall. intros i Hi%list_elem_of_In.
        rewrite run_calls, Hcalls. right. apply in_or_app. left.
        now apply offered_events.
      * rewrite Hsame. eapply Forall_impl; [exact Hinit|].
        intros a Ha Hfound. rewrite (foreach_initialised a Ha) in Hfound.
        apply zeroed_body_events in Hfound. cbn [midi_event body_size] in Hfound. lia.
  - rewrite run_calls, Hexit.
    constructor; [discriminate|]. apply Forall_app. split.
    + eapply Forall_impl; [apply drain_calls_appends|].
      intros c (port & ev & ->). discriminate.
    + constructor; [discriminate | constructor].
Qed.

(** A run that comes to the end of the block leaves the atom input
    sequences cleared. *)
Lemma run_done_clears_inputs rt st :
  drain_exit (run_drain rt st) = DrainDone ->
  Forall cleared (m_atomInputPorts (m_buffers (run rt st))).
Proof.
  intros Hexit. rewrite run_drain_done by exact Hexit.
  rewrite process_block_buffers.
  destruct (block_buffers_atom_ports (drained rt st)) as [-> _].
  apply clear_atom_ports_cleared.
Qed.

Lemma sendEvent_buffers t e st : m_buffers (sendEvent t e st) = m_buffers st.
Proof. reflexivity. Qed.

Lemma sendEvents_frame es st :
  m_buffers (sendEvents es st) = m_buffers st
  /\ m_sampleRate (sendEvents es st) = m_sampleRate st
  /\ m_blockSize (sendEvents es st) = m_blockSize st
  /\ m_midiEventUrid (sendEvents es st) = m_midiEventUrid st
  /\ calls (sendEvents es st) = calls st.
Proof.
  revert st. induction es as [|[t e] es IH]; intros st; [repeat split|].
  change (sendEvents ((t, e) :: es) st) with (sendEvents es (sendEvent t e st)).
  destruct (IH (sendEvent t e st)) as (-> & -> & -> & -> & ->). repeat split.
Qed.

Lemma construct_atom_inputs instrument position sampleRate blockSize idealChannelCount uri :
  m_atomInputPorts
    (m_buffers (construct instrument position sampleRate blockSize idealChannelCount uri))
  = atom_ports true 0 (ports (getPluginData uri)).
Proof.
  destruct (construct_members instrument position sampleRate blockSize idealChannelCount uri)
    as (_ & _ & _ & _ & _ & _ & _ & _ & M9 & _).
  destruct (init_members instrument position sampleRate blockSize idealChannelCount uri)
    as (_ & _ & I3 & _).
  cbv zeta in M9, I3. rewrite M9, I3. reflexivity.
Qed.

Lemma consumed_as_body rt' sampleRate blockSize urid te event :
  consumed_as rt' sampleRate blockSize urid te event -> 0 < body_size event.
Proof. intros (_ & parser & Hdec & ->). exact Hdec. Qed.

Lemma construct_atom_outputs instrument position sampleRate blockSize idealChannelCount uri :
  m_atomOutputPorts
    (m_buffers (construct instrument position sampleRate blockSize idealChannelCount uri))
  = atom_ports false 0 (ports (getPluginData uri)).
Proof.
  destruct (construct_members instrument position sampleRate blockSize idealChannelCount uri)
    as (_ & _ & _ & _ & _ & _ & _ & _ & _ & M10 & _).
  destruct (init_members instrument position sampleRate blockSize idealChannelCount uri)
    as (_ & _ & I3 & _).
  cbv zeta in M10, I3. rewrite M10, I3. reflexivity.
Qed.

(** X11: until a block has been finished the atom input sequences are as
    init left them, the size field at the room of the buffer over zeroed
    bytes, which leaves no room for an event.  So in the first run after
    construction the envelopes that are due are taken from the queue and
    offered to the MIDI ports, but none is stored: the process callback is
    handed the atom inputs as init left them, and a reader of them finds
    the events of size 0 that the zeroed bytes read as, and none of the
    events that were built from the queue. *)
Theorem first_block_stores_no_event
    instrument position sampleRate blockSize idealChannelCount uri es rt :
  decoder_bounded ->
  let st :=
    sendEvents es (construct instrument position sampleRate blockSize idealChannelCount uri) in
  exists consumed events,
    m_eventBuffer st = consumed ++ m_eventBuffer (run rt st)
    /\ Forall2 (consumed_as rt (m_sampleRate st) (m_blockSize st) (m_midiEventUrid st))
               consumed events
    /\ drain_calls (run_drain rt st)
       = flat_map (fun ev => offer ev (midi_indices (m_atomInputPorts (m_buffers st)))) events
    /\ m_atomInputPorts (plugin_input (drained rt st))
       = atom_ports true 0 (ports (getPluginData uri))
    /\ Forall (fun ap =>
                 atom_size (atomSeq ap) = 8 * ABUFSIZED - 8
                 /\ lv2_atom_sequence_foreach (atomSeq ap) = zeroed_body
                 /\ Forall (fun ev => ~ In ev (lv2_atom_sequence_foreach (atomSeq ap))) events)
              (m_atomInputPorts (plugin_input (drained rt st)))
    /\ (drain_exit (run_drain rt st) = DrainDone ->
        In (CallRun (plugin_input (drained rt st)) (m_blockSize st))
           (new_calls st (run rt st))).
Proof.
  intros Hdec st.
  assert (Hports : m_atomInputPorts (m_buffers st)
                   = atom_ports true 0 (ports (getPluginData uri))).
  { subst st. destruct (sendEvents_frame es
      (construct instrument position sampleRate blockSize idealChannelCount uri)) as (-> & _).
    apply construct_atom_inputs. }
  assert (Hinit : Forall as_initialised (m_atomInputPorts (m_buffers st)))
    by (rewrite Hports; apply atom_ports_initialised).
  destruct (run_passes_prefix rt st) as (consumed & events & Hq & Hcons & Hcalls & _).
  assert (Hsame : m_atomInputPorts (plugin_input (drained rt st))
                  = m_atomInputPorts (m_buffers st)).
  { rewrite drained_atom_inputs. unfold run_drain.
    apply (drain_overflows _ _ _ _ Hdec).
    eapply Forall_impl; [exact Hinit|]. now intros a [Hs _] _. }
  exists consumed, events. repeat (split; [assumption|]).
  split; [now rewrite Hsame|]. split; [|apply run_calls_contain_run].
  rewrite Hsame. eapply Forall_impl; [exact Hinit|].
  intros a Ha. split; [apply Ha|].
  rewrite (foreach_initialised a Ha). split; [reflexivity|].
  clear -Hcons. induction Hcons as [|te ev c evs Hte _ IH]; constructor; [|exact IH].
  intros Hin. apply zeroed_body_events in Hin.
  apply consumed_as_body in Hte. lia.
Qed.

(** X12: discardEvents empties the queue whatever it holds, also a queue
    that is stuck behind an envelope the decoder refuses; the next run
    goes through to the end of the block, offers no event to any port and
    hands the plugin the atom inputs as they were. *)
Theorem discardEvents_lets_the_next_run_through rt st :
  let st' := run rt (discardEvents st) in
  m_eventBuffer (discardEvents st) = []
  /\ m_eventBuffer st' = []
  /\ drain_exit (run_drain rt (discardEvents st)) = DrainDone
  /\ m_run st' = true
  /\ appended_frames (new_calls (discardEvents st) st') = []
  /\ exists b, In (CallRun b (m_blockSize st)) (new_calls (discardEvents st) st')
               /\ m_atomInputPorts b = m_atomInputPorts (m_buffers st).
Proof.
  intros st'. subst st'.
  assert (Hd : run_drain rt (discardEvents st)
               = mkDrain [] (m_midiParser st) (m_atomInputPorts (m_buffers st)) [] DrainDone)
    by reflexivity.
  assert (Hexit : drain_exit (run_drain rt (discardEvents st)) = DrainDone)
    by now rewrite Hd.
  split; [reflexivity|]. split; [now rewrite run_events, Hd|]. split; [exact Hexit|].
  split; [rewrite run_drain_done by exact Hexit; apply process_block_run|].
  split.
  - rewrite run_calls, Hexit, Hd. cbn [drain_calls app].
    rewrite appended_frames_cons. cbn [app]. apply appended_frames_block_calls.
  - exists (plugin_input (drained rt (discardEvents st))). split.
    + apply (run_calls_contain_run rt (discardEvents st) Hexit).
    + now rewrite drained_atom_inputs, Hd.
Qed.

End Blocks.

(** * The latency query *)
Section Latency.
Context `{AlsaMidi} `{LV2Plugin} `{LV2Utils}.
Implicit Types (st : LV2PluginInstance) (rt : RealTime).

Lemma zero_loop_full n : forall j buf,
  length buf = (j + n)%nat -> zero_loop n j buf = take j buf ++ replicate n float_zero.
Proof.
  induction n as [|n IH]; intros j buf Hlen; cbn [zero_loop replicate].
  - rewrite app_nil_r. now rewrite take_ge by lia.
  - rewrite IH by (rewrite length_insert; lia).
    rewrite (take_S_r _ _ float_zero) by (apply list_lookup_insert_eq; lia).
    rewrite take_insert_ge by lia. now rewrite <- app_assoc.
Qed.

Lemma zero_inputs_loop_full blockSize n : forall i ins,
  length ins = (i + n)%nat ->
  Forall (fun buf => length buf = blockSize) ins ->
  zero_inputs_loop n i blockSize ins
  = take i ins ++ replicate n (replicate blockSize float_zero).
Proof.
  induction n as [|n IH]; intros i ins Hlen Hall; cbn [zero_inputs_loop replicate].
  - rewrite app_nil_r. now rewrite take_ge by lia.
  - destruct (lookup_lt_is_Some_2 ins i ltac:(lia)) as [buf Hbuf]. rewrite Hbuf.
    assert (Hb : length buf = blockSize).
    { rewrite Forall_forall in Hall. eapply Hall, list_elem_of_lookup_2, Hbuf. }
    rewrite zero_loop_full by (cbn; lia). cbn [take app].
    rewrite IH.
    + rewrite (take_S_r _ _ (replicate blockSize float_zero))
        by (apply list_lookup_insert_eq; lia).
      rewrite take_insert_ge by lia. now rewrite <- app_assoc.
    + rewrite length_insert. lia.
    + apply Forall_insert; [exact Hall|]. apply length_replicate.
Qed.

Lemma mix_zero : mix float_zero float_zero = float_zero.
Proof. reflexivity. Qed.

Lemma zip_mix_zero n :
  zip_with mix (replicate n float_zero) (replicate n float_zero) = replicate n float_zero.
Proof. induction n as [|n IH]; [reflexivity|]. cbn [replicate zip_with]. now rewrite IH. Qed.

(** The down-mix of silence is silence. *)
Lemma combine_buffers_silence blockSize m :
  combine_buffers blockSize (replicate m (zero_buffer blockSize))
  = replicate m (zero_buffer blockSize).
Proof.
  unfold combine_buffers.
  destruct (replicate m (zero_buffer blockSize) !! 0%nat) as [in0|] eqn:E0; [|reflexivity].
  destruct (replicate m (zero_buffer blockSize) !! 1%nat) as [in1|] eqn:E1; [|reflexivity].
  apply lookup_replicate in E0 as [-> _]. apply lookup_replicate in E1 as [-> Hm].
  rewrite combine_loop_full by (unfold zero_buffer; now rewrite length_replicate).
  rewrite take_0, !drop_0. cbn [app]. unfold zero_buffer. rewrite zip_mix_zero.
  apply list_insert_id. apply lookup_replicate. split; [reflexivity | lia].
Qed.

Lemma run_drain_zero_inputs n rt st : run_drain rt (zero_inputs n st) = run_drain rt st.
Proof. reflexivity. Qed.

(** X13: the first latency query of an instance that has a latency port
    and has not run yet runs one block at time zero.  That block takes
    from the queue what a run at time zero takes; if the count of audio
    inputs covers the input buffers, the process callback finds them all
    silent.  If the block is finished the instance counts as run, and
    every later query makes no call, changes nothing and gives the same
    answer; if the block is left by the early return the plugin has not
    been called and the instance still counts as not run. *)
Theorem getLatency_runs_one_silent_block audioInputCount port st :
  m_latencyPort st = Some port ->
  m_run st = false ->
  let st' := snd (getLatency audioInputCount st) in
  m_eventBuffer st' = m_eventBuffer (run 0 st)
  /\ (audioInputCount = Z.of_nat (length (m_inputBuffers (m_buffers st))) ->
      Forall (fun buf => length buf = Z.to_nat (m_blockSize st))
             (m_inputBuffers (m_buffers st)) ->
      drain_exit (run_drain 0 st) = DrainDone ->
      exists b,
        In (CallRun b (m_blockSize st)) (new_calls st st')
        /\ m_inputBuffers b
           = replicate (length (m_inputBuffers (m_buffers st)))
                       (zero_buffer (m_blockSize st)))
  /\ match drain_exit (run_drain 0 st) with
     | DrainDone =>
         m_run st' = true
         /\ forall n, getLatency n st' = getLatency audioInputCount st
     | DecodeError =>
         m_run st' = false
         /\ exists appends,
              new_calls st st' = CallLock :: appends ++ [CallUnlock]
              /\ Forall (fun c => exists p ev, c = CallAppendEvent p ev) appends
     end.
Proof.
  intros Hport Hrun st'.
  assert (Hst' : st' = run 0 (zero_inputs audioInputCount st)).
  { subst st'. unfold getLatency. now rewrite Hport, Hrun. }
  assert (Hfst : fst (getLatency audioInputCount st)
                 = map_find port (m_controlPortsOut (m_buffers st')) ≫= size_t_of_float).
  { rewrite Hst'. unfold getLatency. now rewrite Hport, Hrun. }
  split; [|split].
  - rewrite Hst', !run_events. reflexivity.
  - intros Hcount Hlen Hexit.
    exists (plugin_input (drained 0 (zero_inputs audioInputCount st))). split.
    + rewrite Hst'.
      apply (run_calls_contain_run 0 (zero_inputs audioInputCount st) Hexit).
    + rewrite run_inputs.
      assert (Hz : m_inputBuffers (m_buffers (zero_inputs audioInputCount st))
                   = replicate (length (m_inputBuffers (m_buffers st)))
                               (zero_buffer (m_blockSize st))).
      { unfold zero_inputs. cbn. rewrite Hcount, Nat2Z.id.
        now rewrite zero_inputs_loop_full by (cbn; auto). }
      rewrite Hz.
      change (m_distributeChannels (zero_inputs audioInputCount st))
        with (m_distributeChannels st).
      change (m_blockSize (zero_inputs audioInputCount st)) with (m_blockSize st).
      destruct (m_distributeChannels st); [apply combine_buffers_silence | reflexivity].
  - destruct (drain_exit (run_drain 0 st)) eqn:Hexit.
    + assert (Hrun' : m_run st' = true).
      { rewrite Hst', run_drain_done by exact Hexit. apply process_block_run. }
      split; [exact Hrun'|]. intros n.
      assert (Hport' : m_latencyPort st' = Some port).
      { rewrite Hst'.
        destruct (run_configuration 0 (zero_inputs audioInputCount st))
          as (_ & _ & _ & _ & _ & _ & _ & _ & -> & _).
        exact Hport. }
      rewrite (surjective_pairing (getLatency audioInputCount st)), Hfst.
      unfold getLatency at 1. now rewrite Hport', Hrun'.
    + destruct (run_stops_at_refused_envelope 0 (zero_inputs audioInputCount st) Hexit)
        as (_ & _ & _ & _ & appends & _ & _ & _ & _ & Hcalls & Happ & Hr).
      rewrite <- Hst' in Hcalls, Hr.
      split; [now rewrite Hr|]. exists appends. split; [|exact Happ].
      exact Hcalls.
Qed.

End Latency.

(** * Byte arrays *)
Section ByteArrays.
Context `{AlsaMidi} `{LV2Plugin} `{LV2Utils}.
Implicit Types (st : LV2PluginInstance) (rt : RealTime).

Lemma uint32_of_bytes_range bs : 0 <= uint32_of_bytes bs < 2 ^ 32.
Proof.
  unfold uint32_of_bytes.
  assert (Hgen : forall (l : list Z) n, (length l <= n)%nat ->
             0 <= fold_right (fun b acc => b mod 256 + 256 * acc) 0 l < 256 ^ Z.of_nat n).
  { induction l as [|b l IH]; intros n Hn; cbn [fold_right].
    - split; [lia|]. apply Z.pow_pos_nonneg; lia.
    - destruct n as [|n]; [cbn in Hn; lia|].
      specialize (IH n ltac:(cbn in Hn; lia)).
      pose proof (Z.mod_pos_bound b 256 ltac:(lia)).
      rewrite Nat2Z.inj_succ, Z.pow_succ_r by lia. lia. }
  apply (Hgen (take 4 bs) 4%nat). rewrite length_take. lia.
Qed.

Lemma byte_array_event_some ba event :
  byte_array_event ba = Some event ->
  time_frames event = 0
  /\ 0 <= body_size event <= Z.of_nat (length ba) - 8
  /\ body_data event = take (Z.to_nat (body_size event)) (drop 8 ba).
Proof.
  unfold byte_array_event. cbv zeta.
  pose proof (uint32_of_bytes_range ba).
  destruct (_ && _)%bool eqn:E; [|discriminate].
  apply andb_true_iff in E as [E1 E2]. intros [= <-]. cbn. repeat split; lia.
Qed.

(** With distinct port indices the loop of setPortByteArray changes the
    one port with the given index, if there is one. *)
Lemma append_bytes_spec port event aips :
  NoDup (map index aips) ->
  Forall2 (fun a a' => a' = if index a =? port then store_event event a else a)
          aips (fst (append_bytes port event aips))
  /\ snd (append_bytes port event aips)
     = if existsb (fun ap => index ap =? port) aips then [CallAppendEvent port event] else [].
Proof.
  induction aips as [|ap rest IH]; intros Hnd; [split; [constructor | reflexivity]|].
  cbn [map] in Hnd. apply NoDup_cons in Hnd as [Hnotin Hnd].
  cbn [append_bytes existsb].
  destruct (index ap =? port) eqn:E.
  - cbn [fst snd orb]. split.
    + constructor; [now rewrite E|].
      clear -Hnotin E. induction rest as [|a rest IH]; constructor.
      * destruct (index a =? port) eqn:E'; [|reflexivity].
        exfalso. apply Hnotin. cbn [map]. replace (index ap) with (index a) by lia.
        now left.
      * apply IH. intros Hin. apply Hnotin. cbn [map]. now right.
    + f_equal. f_equal. lia.
  - destruct (IH Hnd) as [IH1 IH2].
    destruct (append_bytes port event rest) as [rest' cs]. cbn [fst snd orb] in *.
    split; [|exact IH2]. constructor; [now rewrite E | exact IH1].
Qed.

Lemma existsb_index port (aips : list AtomPort) :
  In port (map index aips) -> existsb (fun ap => index ap =? port) aips = true.
Proof.
  intros (ap & <- & Hin)%in_map_iff. apply existsb_exists. exists ap.
  split; [exact Hin | lia].
Qed.

(** What setPortByteArray does when it has a port and well-formed
    bytes. *)
Lemma setPortByteArray_some port ba event st :
  NoDup (map index (m_atomInputPorts (m_buffers st))) ->
  In port (map index (m_atomInputPorts (m_buffers st))) ->
  byte_array_event ba = Some event ->
  exists st1,
    setPortByteArray port m_atomTransferUrid ba st = Some st1
    /\ calls st1 = calls st ++ [CallAppendEvent port event]
    /\ Forall2 (fun a a' => a' = if index a =? port then store_event event a else a)
               (m_atomInputPorts (m_buffers st)) (m_atomInputPorts (m_buffers st1))
    /\ m_eventBuffer st1 = m_eventBuffer st /\ m_midiParser st1 = m_midiParser st
    /\ same_configuration st st1
    /\ m_buffers st1
       = set_m_atomInputPorts (m_atomInputPorts (m_buffers st1)) (m_buffers st).
Proof.
  intros Hnd Hin Hev. unfold setPortByteArray. cbv zeta.
  rewrite Z.eqb_refl, (existsb_index _ _ Hin), Hev.
  destruct (append_bytes_spec port event _ Hnd) as [Hports Hcalls].
  rewrite (existsb_index _ _ Hin) in Hcalls.
  destruct (append_bytes port event _) as [aips cs]. cbn [fst snd] in *. subst cs.
  eexists. split; [reflexivity|]. repeat split. exact Hports.
Qed.

Lemma append_event_room seq event :
  0 <= body_size event -> 8 <= atom_size seq ->
  atom_size seq + body_size event + 23 <= 8 * ABUFSIZED ->
  lv2_atom_sequence_append_event seq (8 * ABUFSIZED) event
  = Some (mkAtomSeq (atom_size seq + lv2_atom_pad_size (16 + body_size event))
                    (atom_type seq) (seq_events seq ++ [event]) []).
Proof.
  intros Hb Hlo Hhi. unfold lv2_atom_sequence_append_event, sizeof_LV2_Atom_Event.
  unfold ABUFSIZED in *. cbv zeta.
  pose proof (lv2_atom_pad_size_bounds (16 + body_size event)) as Hpad.
  rewrite (Z.mod_small (16 + body_size event)) by lia.
  rewrite (Z.mod_small (8 * 100000 - atom_size seq)) by lia.
  destruct (_ <? _) eqn:E; [lia|].
  rewrite Z.mod_small by lia. reflexivity.
Qed.

Lemma append_event_room_tight seq event :
  0 <= body_size event -> 8 <= atom_size seq ->
  atom_size seq + body_size event + 23 <= 8 * ABUFSIZED ->
  tight seq ->
  tight (mkAtomSeq (atom_size seq + lv2_atom_pad_size (16 + body_size event))
                   (atom_type seq) (seq_events seq ++ [event]) []).
Proof.
  intros Hb Hlo Hhi Htight. unfold tight in *. cbn [atom_size seq_events].
  rewrite events_extent_app, Htight, events_extent_cons.
  change (events_extent []) with 0.
  unfold lv2_atom_event_extent, sizeof_LV2_Atom_Event, sizeof_LV2_Atom_Sequence_Body.
  rewrite !lv2_atom_pad_size_spec.
  replace (16 + body_size event + 7) with (body_size event + 7 + 2 * 8) by lia.
  rewrite Z.div_add by lia.
  assert (0 <= (body_size event + 7) / 8 < 2 ^ 20).
  { unfold ABUFSIZED in Hhi.
    split; [apply Z.div_pos; lia | apply Z.div_lt_upper_bound; lia]. }
  rewrite Z.mod_small by lia. lia.
Qed.


(** X14: bytes passed to setPortByteArray with the event-transfer protocol
    and the index of an atom input reach the plugin in the next block.
    When the input sequences are empty, as a finished block leaves them,
    and there is room for the bytes and the pending envelopes, the process
    callback of the next run finds in that port one event at frame 0 with
    the size, type and body the bytes give, ahead of the MIDI events of
    the block if the port is a MIDI port; the other ports hold what they
    hold without the call.  The size field of each sequence covers just
    its events, so a reader that walks the sequence finds them and no
    other. *)
Theorem setPortByteArray_reaches_the_plugin port ba event rt st :
  decoder_bounded ->
  NoDup (map index (m_atomInputPorts (m_buffers st))) ->
  Forall cleared (m_atomInputPorts (m_buffers st)) ->
  In port (map index (m_atomInputPorts (m_buffers st))) ->
  byte_array_event ba = Some event ->
  Z.of_nat (length ba) + 120 * Z.of_nat (length (m_eventBuffer st)) <= 799000 ->
  exists st1 consumed events,
    setPortByteArray port m_atomTransferUrid ba st = Some st1
    /\ m_eventBuffer st = consumed ++ m_eventBuffer (run rt st1)
    /\ Forall2 (consumed_as rt (m_sampleRate st) (m_blockSize st) (m_midiEventUrid st))
               consumed events
    /\ Forall2 (fun a a' =>
                  index a' = index a /\ isMidi a' = isMidi a
                  /\ seq_events (atomSeq a')
                     = (if index a =? port then [event] else [])
                       ++ (if isMidi a then events else []))
               (m_atomInputPorts (m_buffers st))
               (m_atomInputPorts (plugin_input (drained rt st1)))
    /\ (drain_exit (run_drain rt st1) = DrainDone ->
        In (CallRun (plugin_input (drained rt st1)) (m_blockSize st))
           (new_calls st1 (run rt st1)))
    /\ Forall (fun a' => lv2_atom_sequence_foreach (atomSeq a') = seq_events (atomSeq a'))
              (m_atomInputPorts (plugin_input (drained rt st1))).
Proof.
  intros Hdec Hnd Hclear Hin Hev Hroom.
  destruct (setPortByteArray_some port ba event st Hnd Hin Hev)
    as (st1 & Hset & _ & Hports & Hq1 & Hp1 & Hconf & _).
  destruct Hconf as (_ & _ & _ & _ & _ & Hurid & Hblock & Hrate & _).
  destruct (byte_array_event_some ba event Hev) as (_ & Hsize & _).
  assert (Hstored : Forall2 (fun a a1 =>
                       index a1 = index a /\ isMidi a1 = isMidi a
                       /\ seq_events (atomSeq a1) = (if index a =? port then [event] else [])
                       /\ has_room (Z.of_nat (length (m_eventBuffer st))) a1
                       /\ tight (atomSeq a1))
                      (m_atomInputPorts (m_buffers st)) (m_atomInputPorts (m_buffers st1))).
  { clear -Hports Hclear Hsize Hroom.
    induction Hports as [|a a1 l l1 Ha _ IH]; [constructor|].
    inversion Hclear as [|? ? Hc Hrest]; subst. constructor; [|now apply IH].
    pose proof (cleared_tight a Hc) as Htight. destruct Hc as [Hs He].
    unfold sizeof_LV2_Atom_Sequence_Body in Hs.
    destruct (index a =? port).
    - unfold store_event. rewrite append_event_room by (unfold ABUFSIZED; lia).
      cbn [index isMidi atomSeq seq_events].
      split; [reflexivity|]. split; [reflexivity|].
      split; [now rewrite He|]. split.
      + intros _. cbn [atomSeq atom_size].
        pose proof (lv2_atom_pad_size_bounds (16 + body_size event)).
        unfold ABUFSIZED. lia.
      + apply append_event_room_tight; [lia | lia | unfold ABUFSIZED; lia | exact Htight].
    - split; [reflexivity|]. split; [reflexivity|]. split; [exact He|].
      split; [|exact Htight]. intros _. unfold ABUFSIZED. lia. }
  destruct (drain_stores rt (m_sampleRate st1) (m_blockSize st1) (m_midiEventUrid st1) Hdec
              (m_eventBuffer st1) (m_midiParser st1) (m_atomInputPorts (m_buffers st1)) [])
    as (consumed & events & Hq & Hcons & _ & Htakes & Htight).
  { rewrite Hq1. eapply Forall_forall. intros a1 Ha1.
    apply list_elem_of_In in Ha1.
    clear -Hstored Ha1. induction Hstored as [|a b l l1 (_ & _ & _ & Hr & _) _ IH];
      [destruct Ha1|].
    destruct Ha1 as [<-|Ha1]; [exact Hr | now apply IH]. }
  { eapply Forall_forall. intros a1 Ha1.
    apply list_elem_of_In in Ha1.
    clear -Hstored Ha1. induction Hstored as [|a b l l1 (_ & _ & _ & _ & Ht) _ IH];
      [destruct Ha1|].
    destruct Ha1 as [<-|Ha1]; [exact Ht | now apply IH]. }
  fold (run_drain rt st1) in Hq, Htakes, Htight.
  exists st1, consumed, events. split; [exact Hset|].
  split; [now rewrite run_events, <- Hq1|].
  split; [now rewrite <- Hrate, <- Hblock, <- Hurid|].
  rewrite drained_atom_inputs.
  split; [|split; [rewrite <- Hblock; apply run_calls_contain_run|]].
  - clear -Hstored Htakes. revert Htakes.
    generalize (drain_ports (run_drain rt st1)) as final.
    induction Hstored as [|a a1 l l1 (Hi & Hm & He & _) _ IH]; intros final Htakes;
      inversion Htakes as [|? a' ? l' (Hi' & Hm' & He') Hrest]; subst; constructor.
    + split; [congruence|]. split; [congruence|]. now rewrite He', He, Hm.
    + now apply IH.
  - eapply Forall_impl; [exact Htight|]. intros a'. apply foreach_tight.
Qed.


End ByteArrays.

(** * The order of sendEvent calls *)
Section SendOrder.
Context {V : Type}.
Implicit Types (m : std_map V) (k : Z) (v : V).

Lemma map_assign_comm k1 v1 k2 v2 m :
  k1 <> k2 ->
  map_assign k1 v1 (map_assign k2 v2 m) = map_assign k2 v2 (map_assign k1 v1 m).
Proof.
  intros Hne. induction m as [|[k0 v0] m IH]; cbn.
  - destruct (k1 <? k2) eqn:E12, (k2 <? k1) eqn:E21; try lia; reflexivity.
  - destruct (k2 <? k0) eqn:E20, (k1 <? k0) eqn:E10; cbn;
      rewrite ?E20, ?E10;
      destruct (k1 <? k2) eqn:E12, (k2 <? k1) eqn:E21; try lia; cbn;
      rewrite ?E20, ?E10; try reflexivity;
      destruct (k0 <? k2) eqn:E02, (k0 <? k1) eqn:E01; try lia; cbn;
      rewrite ?E20, ?E10, ?E02, ?E01, ?E12, ?E21, ?IH; try reflexivity; try lia.
Qed.

End SendOrder.

Section MoreOfTheClass.
Context `{AlsaMidi} `{LV2Plugin} `{LV2Utils}.
Implicit Types (st : LV2PluginInstance) (rt : RealTime).

Lemma sendEvent_comm t1 e1 t2 e2 st :
  t1 <> t2 ->
  sendEvent t1 e1 (sendEvent t2 e2 st) = sendEvent t2 e2 (sendEvent t1 e1 st).
Proof.
  intros Hne. unfold sendEvent. cbn. now rewrite map_assign_comm.
Qed.

Lemma sendEvents_cons t e es st :
  sendEvents ((t, e) :: es) st = sendEvents es (sendEvent t e st).
Proof. reflexivity. Qed.

(** X16: the pending queue does not depend on the order in which events
    with different times are sent: two sequences of sendEvent calls that
    send the same events, each time once, leave the same instance. *)
Theorem sendEvent_order_is_immaterial (es es' : list (RealTime * snd_seq_event_t)) st :
  Permutation es es' ->
  NoDup (map fst es) ->
  sendEvents es st = sendEvents es' st.
Proof.
  intros Hperm. revert st.
  induction Hperm as [|[t e] es es' _ IH|[t1 e1] [t2 e2] es|es1 es2 es3 H12 IH12 H23 IH23];
    intros st Hnd.
  - reflexivity.
  - rewrite !sendEvents_cons. apply IH. cbn [map] in Hnd. now apply NoDup_cons in Hnd.
  - rewrite !sendEvents_cons. rewrite sendEvent_comm; [reflexivity|].
    cbn [map fst] in Hnd. apply NoDup_cons in Hnd as [Hnotin _].
    intros ->. apply Hnotin. now left.
  - rewrite IH12 by exact Hnd. apply IH23.
    pose proof (Permutation_map fst H12) as Hp. now rewrite <- Hp.
Qed.

(** X17: setIdealChannelCount never records the count it is given, and no
    other member function changes what the constructor set up: the count
    an instance compares a request with is the one it was constructed
    with.  A request for that count does nothing at any time; a request
    for any other count frees the plugin and instantiates it again every
    time, also when the same count was requested before. *)
Theorem channel_count_is_fixed_at_construction
    instrument position sampleRate blockSize idealChannelCount uri st :
  becomes (construct instrument position sampleRate blockSize idealChannelCount uri) st ->
  same_configuration
    (construct instrument position sampleRate blockSize idealChannelCount uri) st
  /\ m_channelCount st = idealChannelCount
  /\ setIdealChannelCount idealChannelCount st = st
  /\ forall channels,
       channels <> idealChannelCount ->
       In CallFree (new_calls st (setIdealChannelCount channels st))
       /\ In (CallInstantiate sampleRate) (new_calls st (setIdealChannelCount channels st)).
Proof.
  intros Hbecomes. pose proof (becomes_configuration _ _ Hbecomes) as Hconf.
  split; [exact Hconf|].
  destruct Hconf as (_ & _ & _ & _ & Hcount & _ & _ & Hrate & _).
  destruct (construct_members instrument position sampleRate blockSize idealChannelCount uri)
    as (_ & _ & _ & _ & M5 & _ & _ & _ & _ & _ & _ & M12 & _).
  destruct (init_members instrument position sampleRate blockSize idealChannelCount uri)
    as (_ & _ & _ & _ & I5).
  cbv zeta in M5, M12, I5. rewrite M5, I5 in Hcount. rewrite M12 in Hrate.
  split; [exact Hcount|]. split.
  - unfold setIdealChannelCount. now rewrite Hcount, Z.eqb_refl.
  - intros channels Hne.
    destruct (setIdealChannelCount_changed channels st ltac:(now rewrite Hcount))
      as (Hcalls & _).
    cbv zeta in Hcalls. rewrite (new_calls_app _ _ _ Hcalls), Hrate.
    split; apply in_or_app; right; apply in_or_app; left; [now left | now right; left].
Qed.

Lemma getPortValue_setPortValue_other p q v st :
  q <> p -> getPortValue q (setPortValue p v st) = getPortValue q st.
Proof.
  intros Hne. unfold getPortValue, setPortValue. cbv zeta.
  destruct (map_find p (m_controlPortsIn (m_buffers st))); [|reflexivity].
  destruct (ports (m_pluginData st) !! Z.to_nat p); [|reflexivity].
  cbn. now rewrite map_find_assign_neq.
Qed.

Lemma setPortValue_state_other p q sv st :
  q <> p ->
  map_find q (m_controlPortsIn (m_buffers (setPortValue_state p sv st)))
  = map_find q (m_controlPortsIn (m_buffers st))
  /\ m_pluginData (setPortValue_state p sv st) = m_pluginData st.
Proof.
  intros Hne.
  assert (Hset : forall v,
             map_find q (m_controlPortsIn (m_buffers (setPortValue p v st)))
             = map_find q (m_controlPortsIn (m_buffers st))
             /\ m_pluginData (setPortValue p v st) = m_pluginData st).
  { intros v. unfold setPortValue. cbv zeta.
    destruct (map_find p (m_controlPortsIn (m_buffers st))); [|now split].
    destruct (ports (m_pluginData st) !! Z.to_nat p); [|now split].
    cbn. now rewrite map_find_assign_neq. }
  destruct sv; cbn [setPortValue_state]; auto.
Qed.

(** The value of one control input after the restore of a state that
    names it at most once. *)
Lemma restore_value values : forall st p portData old,
  NoDup (map fst values) ->
  map_find p (m_controlPortsIn (m_buffers st)) = Some old ->
  ports (m_pluginData st) !! Z.to_nat p = Some portData ->
  float_lt (max portData) (min portData) = false ->
  getPortValue p (fold_left (fun st pv => setPortValue_state (fst pv) (snd pv) st) values st)
  = match map_find p values with
    | Some (FloatValue fval) => clamp (min portData) (max portData) fval
    | Some (IntValue ival) => clamp (min portData) (max portData) (float_of_int ival)
    | _ => old
    end.
Proof.
  induction values as [|[q sv] values IH]; intros st p portData old Hnd Hfind Hport Hrange.
  - cbn. unfold getPortValue. now rewrite Hfind.
  - cbn [map fst] in Hnd. apply NoDup_cons in Hnd as [Hnotin Hnd].
    cbn [fold_left fst snd map_find].
    destruct (p =? q) eqn:E.
    + assert (p = q) by lia. subst q.
      assert (Hset : forall v, map_find p (m_controlPortsIn (m_buffers (setPortValue p v st)))
                               = Some (clamp (min portData) (max portData) v)
                               /\ ports (m_pluginData (setPortValue p v st)) !! Z.to_nat p
                                  = Some portData).
      { intros v. unfold setPortValue. rewrite Hfind, Hport. cbn. rewrite map_find_assign_eq.
        split; [|exact Hport]. f_equal. now apply clamp_two_tests. }
      assert (Hnone : map_find p values = None).
      { destruct (map_find p values) eqn:Ef; [|reflexivity].
        exfalso. apply Hnotin, list_elem_of_In.
        apply map_find_In in Ef. apply in_map_iff. now exists (p, s). }
      destruct sv as [fval|ival|s t]; cbn [setPortValue_state].
      * destruct (Hset fval) as [Hf Hp].
        rewrite (IH _ p portData _ Hnd Hf Hp Hrange), Hnone. reflexivity.
      * destruct (Hset (float_of_int ival)) as [Hf Hp].
        rewrite (IH _ p portData _ Hnd Hf Hp Hrange), Hnone. reflexivity.
      * rewrite (IH _ p portData _ Hnd Hfind Hport Hrange), Hnone. reflexivity.
    + destruct (setPortValue_state_other q p sv st ltac:(lia)) as [Hf Hd].
      apply (IH _ p portData old Hnd); [now rewrite Hf | now rewrite Hd | exact Hrange].
Qed.

Lemma indices_where_In f ps : forall i k portData,
  ps !! k = Some portData -> f portData = true ->
  In (i + Z.of_nat k) (indices_where f i ps).
Proof.
  induction ps as [|pd ps IH]; intros i k portData Hk Hf; [discriminate|].
  cbn [indices_where]. apply in_or_app. destruct k as [|k]; cbn in Hk.
  - injection Hk as ->. rewrite Hf. left. left. lia.
  - right. replace (i + Z.of_nat (S k)) with (i + 1 + Z.of_nat k) by lia. eauto.
Qed.

Lemma map_find_zeros p indices :
  map_find p (zeros indices) = if existsb (Z.eqb p) indices then Some float_zero else None.
Proof.
  induction indices as [|k l IH]; [reflexivity|].
  cbn. destruct (p =? k); [reflexivity | exact IH].
Qed.

(** X18: the control inputs after construction.  When the plugin does not
    instantiate, every control input is at 0.0.  When it does, the
    constructor restores the plugin's default state through the symbol
    overload of setPortValue: a control input the state names (once) holds
    the state's value, converted from int if need be and clamped to the
    port's range, and a control input the state does not name, or names
    with a value that is neither a float nor an int, holds 0.0. *)
Theorem constructor_restores_the_default_state
    instrument position sampleRate blockSize idealChannelCount uri :
  let st := construct instrument position sampleRate blockSize idealChannelCount uri in
  NoDup (map fst (getDefaultStateByUri uri)) ->
  (lilv_plugin_instantiate uri sampleRate = None ->
   forall p, getPortValue p st = float_zero)
  /\ (forall inst p portData,
        lilv_plugin_instantiate uri sampleRate = Some inst ->
        0 <= p ->
        ports (getPluginData uri) !! Z.to_nat p = Some portData ->
        is_control true portData = true ->
        float_lt (max portData) (min portData) = false ->
        getPortValue p st
        = match map_find p (getDefaultStateByUri uri) with
          | Some (FloatValue fval) => clamp (min portData) (max portData) fval
          | Some (IntValue ival) => clamp (min portData) (max portData) (float_of_int ival)
          | _ => float_zero
          end).
Proof.
  intros st Hnd. subst st. unfold construct. cbv zeta.
  fold (members instrument position sampleRate blockSize uri).
  destruct (init_members instrument position sampleRate blockSize idealChannelCount uri)
    as (_ & _ & Hb & _).
  destruct (init_shell idealChannelCount (members instrument position sampleRate blockSize uri))
    as (Huri & _).
  assert (Hdata : m_pluginData
                    (init idealChannelCount
                       (members instrument position sampleRate blockSize uri))
                  = getPluginData uri).
  { unfold init. cbv zeta.
    assert (Hloop : forall ps i st, m_pluginData (init_ports i ps st) = m_pluginData st).
    { induction ps as [|pd ps IH]; intros i st; [reflexivity|].
      cbn [init_ports]. rewrite IH. unfold init_port.
      destruct (portType pd), (portProtocol pd), (isInput pd); try reflexivity.
      all: destruct (_ || _)%bool; reflexivity. }
    destruct (_ && _)%bool; cbn; now rewrite Hloop. }
  cbv zeta in Hb. cbn in Huri.
  set (st1 := init idealChannelCount _) in *.
  set (st2 := instantiate sampleRate _).
  assert (Hst2 : m_controlPortsIn (m_buffers st2)
                 = zeros (indices_where (is_control true) 0 (ports (getPluginData uri)))
                 /\ m_pluginData st2 = getPluginData uri /\ m_uri st2 = uri
                 /\ m_instance st2 = lilv_plugin_instantiate uri sampleRate).
  { subst st2. unfold instantiate, record_call. cbn. rewrite Hb, Hdata, Huri. repeat split. }
  destruct Hst2 as (Hin & Hpd & Hu & Hinst). clearbody st2. clear Hb Hdata Huri. clearbody st1.
  unfold isOK. rewrite Hinst. split.
  - intros Hnone p. rewrite Hnone. unfold getPortValue. cbn. rewrite Hin, map_find_zeros.
    now destruct (existsb _ _).
  - intros inst p portData Hsome Hp Hport Hctl Hrange. rewrite Hsome.
    assert (Hfind : map_find p (m_controlPortsIn (m_buffers st2)) = Some float_zero).
    { rewrite Hin, map_find_zeros.
      assert (Hex : existsb (Z.eqb p)
                      (indices_where (is_control true) 0 (ports (getPluginData uri))) = true).
      { apply existsb_exists. exists p. split; [|lia].
        replace p with (0 + Z.of_nat (Z.to_nat p)) at 1 by lia.
        eapply indices_where_In; eassumption. }
      now rewrite Hex. }
    pose proof (restore_value (getDefaultStateByUri uri)
                  (record_calls (connect_calls st2) st2) p portData float_zero Hnd
                  Hfind ltac:(cbn; now rewrite Hpd) Hrange) as Hvalue.
    unfold getPortValue in *. cbn -[connectPorts]. unfold connectPorts. cbv zeta.
    cbn [m_uri record_calls set_calls]. rewrite Hu. exact Hvalue.
Qed.

(** X19: run does not ask whether the instance is runnable.  On an
    instance whose plugin did not instantiate, a run (here the first one,
    with nothing pending) still goes through the block and calls the
    process callback, through the null instance; keeping such an instance
    away from run is left to the caller. *)
Theorem run_does_not_check_isOK
    instrument position sampleRate blockSize idealChannelCount uri rt :
  lilv_plugin_instantiate uri sampleRate = None ->
  let st := construct instrument position sampleRate blockSize idealChannelCount uri in
  isOK st = false
  /\ isOK (run rt st) = false
  /\ m_run (run rt st) = true
  /\ exists b, In (CallRun b blockSize) (new_calls st (run rt st)).
Proof.
  intros Hnone st.
  destruct (construct_calls instrument position sampleRate blockSize idealChannelCount uri)
    as (_ & Hok).
  destruct (construct_members instrument position sampleRate blockSize idealChannelCount uri)
    as (_ & _ & _ & _ & _ & _ & _ & _ & _ & _ & _ & _ & Hblock & _ & _ & Hev & _).
  cbv zeta in Hok, Hblock, Hev. fold st in Hok, Hblock, Hev. rewrite Hnone in Hok.
  assert (Hexit : drain_exit (run_drain rt st) = DrainDone)
    by (unfold run_drain; now rewrite Hev).
  split; [exact Hok|]. split; [now rewrite run_isOK|].
  split; [rewrite run_drain_done by exact Hexit; apply process_block_run|].
  exists (plugin_input (drained rt st)). rewrite <- Hblock.
  now apply run_calls_contain_run.
Qed.

(** C4, as the code has it: when instantiation returns no handle, the
    constructed instance is not runnable, and the constructor has called
    neither connect_port nor activate: after the instantiate call it only
    looks up the worker interface and registers the instance; silence
    does nothing on such an instance.  But neither run nor getLatency asks
    whether the instance is runnable.  A run of the instance (its queue is
    empty, so nothing stops the run) goes through the block and invokes
    the process callback on the null handle; and when the plugin declares
    a latency port, the first latency query calls run itself, whoever
    keeps the instance away from run otherwise. *)
Theorem failed_instantiate_is_not_kept_from_run
    instrument position sampleRate blockSize idealChannelCount uri :
  lilv_plugin_instantiate uri sampleRate = None ->
  let st := construct instrument position sampleRate blockSize idealChannelCount uri in
  isOK st = false
  /\ calls st = [CallInstantiate sampleRate; CallGetExtensionData true;
                 CallRegisterPlugin (mkPosition instrument position)]
  /\ silence st = st
  /\ (forall rt,
        isOK (run rt st) = false
        /\ exists b, In (CallRun b blockSize) (new_calls st (run rt st)))
  /\ (forall port audioInputCount,
        m_latencyPort st = Some port ->
        let st' := snd (getLatency audioInputCount st) in
        isOK st' = false
        /\ m_run st' = true
        /\ exists b, In (CallRun b blockSize) (new_calls st st')).
Proof.
  intros Hnone st.
  destruct (construct_calls instrument position sampleRate blockSize idealChannelCount uri)
    as (Hcalls & Hok).
  destruct (construct_members instrument position sampleRate blockSize idealChannelCount uri)
    as (_ & _ & _ & _ & _ & _ & _ & _ & _ & _ & _ & _ & Hblock & _ & Hrun & Hev & _).
  cbv zeta in Hcalls, Hok, Hblock, Hrun, Hev.
  fold st in Hcalls, Hok, Hblock, Hrun, Hev. rewrite Hnone in Hcalls, Hok.
  assert (Hexit : forall rt st0,
             m_eventBuffer st0 = [] -> drain_exit (run_drain rt st0) = DrainDone)
    by (intros rt st0 Hempty; unfold run_drain; now rewrite Hempty).
  clearbody st.
  split; [exact Hok|]. split; [exact Hcalls|].
  split; [unfold silence; rewrite Hok; reflexivity|]. split.
  - intros rt. split; [rewrite run_isOK; exact Hok|].
    exists (plugin_input (drained rt st)). rewrite <- Hblock.
    apply run_calls_contain_run, Hexit, Hev.
  - intros port audioInputCount Hport st'.
    assert (Hst' : st' = run 0 (zero_inputs audioInputCount st)).
    { subst st'. unfold getLatency. rewrite Hport, Hrun. reflexivity. }
    assert (Hev' : m_eventBuffer (zero_inputs audioInputCount st) = []) by exact Hev.
    rewrite Hst'. split; [rewrite run_isOK; exact Hok|]. split.
    + rewrite run_drain_done by (apply Hexit; exact Hev'). apply process_block_run.
    + exists (plugin_input (drained 0 (zero_inputs audioInputCount st))).
      rewrite <- Hblock.
      apply (run_calls_contain_run 0 (zero_inputs audioInputCount st)), Hexit, Hev'.
Qed.

End MoreOfTheClass.

(** * The further properties on the example environments *)

Lemma example_decoder_bounded : @decoder_bounded Example.alsa.
Proof.
  intros p e. cbn. unfold Example.decode, Example.ENOENT.
  destruct (Example.status_of e); cbn; [destruct (p =? _)|]; cbn; lia.
Qed.

Lemma example_notes_decode (t : RealTime) (e : Example.seq_event) (p : Z) :
  In (t, e) (m_eventBuffer Example.with_notes) ->
  0 < fst (snd (snd_midi_event_decode p e)).
Proof.
  intros Hin.
  destruct Hin as [Hin|[Hin|[Hin|[]]]]; inversion Hin; subst e; cbn;
    unfold Example.decode; cbn; destruct (p =? _); cbn; lia.
Qed.

Lemma plugin_calls_follow_the_life_cycle_witness :
  let st := silence (setIdealChannelCount 1 (run 0 Example.with_notes)) in
  lifecycle false (calls st) = Some (isOK st)
  /\ lifecycle false (calls (destruct_instance st)) = Some false.
Proof.
  intros st.
  apply (plugin_calls_follow_the_life_cycle 1 0 1000 4 2 Example.mono_uri st).
  apply becomes_silence, becomes_setIdealChannelCount, becomes_run.
  do 3 apply becomes_sendEvent. apply becomes_refl.
Defined.

Lemma setPortValue_writes_one_control_input_witness :
  keys (m_controlPortsIn (m_buffers (setPortValue 2 (f32_of_Z 3 (-1)) Example.stereo)))
  = keys (m_controlPortsIn (m_buffers Example.stereo))
  /\ forall other, other <> 2 ->
                   getPortValue other (setPortValue 2 (f32_of_Z 3 (-1)) Example.stereo)
                   = getPortValue other Example.stereo.
Proof.
  destruct (setPortValue_writes_one_control_input 2 (f32_of_Z 3 (-1)) Example.stereo
              ltac:(vm_compute; reflexivity))
    as (_ & Hkeys & _ & Hother).
  split; [exact Hkeys | exact Hother].
Defined.


Lemma run_takes_what_is_due_witness :
  m_eventBuffer (run 0 Example.with_notes) = [(9 * Example.ms, Example.noteOff)]
  /\ m_run (run 0 Example.with_notes) = true.
Proof.
  destruct (run_takes_what_is_due 0 Example.with_notes
              ltac:(vm_compute; reflexivity) ltac:(now vm_compute)
              (fun t e p Hin _ => example_notes_decode t e p Hin))
    as (Hq & _ & Hrun).
  split; [exact Hq | exact Hrun].
Defined.

Lemma first_block_stores_no_event_witness :
  let st := sendEvents [(1 * Example.ms, Example.noteOn)] Example.stereo in
  exists consumed events,
    m_eventBuffer st = consumed ++ m_eventBuffer (run 0 st)
    /\ drain_calls (run_drain 0 st)
       = flat_map (fun ev => offer ev (midi_indices (m_atomInputPorts (m_buffers st)))) events
    /\ Forall (fun ap =>
                 lv2_atom_sequence_foreach (atomSeq ap) = zeroed_body
                 /\ Forall (fun ev => ~ In ev (lv2_atom_sequence_foreach (atomSeq ap))) events)
              (m_atomInputPorts (plugin_input (drained 0 st))).
Proof.
  intros st.
  destruct (@first_block_stores_no_event Example.alsa Example.plugin Example.utils
              1 0 1000 4 2 Example.mono_uri
              [(1 * Example.ms, Example.noteOn)] 0 example_decoder_bounded)
    as (consumed & events & Hq & _ & Hcalls & _ & Hnone & _).
  exists consumed, events. split; [exact Hq|]. split; [exact Hcalls|].
  eapply Forall_impl; [exact Hnone|]. intros ap (_ & Hzero & Hnot). now split.
Defined.

Lemma late_first_initialised :
  Forall as_initialised (m_atomInputPorts (m_buffers Example.late_first)).
Proof.
  unfold Example.late_first. rewrite sendEvent_buffers.
  unfold Example.stereo. rewrite construct_atom_inputs. apply atom_ports_initialised.
Qed.

Lemma late_second_cleared :
  Forall cleared (m_atomInputPorts (m_buffers Example.late_second)).
Proof.
  unfold Example.late_second. rewrite sendEvent_buffers.
  apply run_done_clears_inputs. vm_compute. reflexivity.
Qed.

(** A note that is late for the first block of the instance is taken from
    the queue and offered to the MIDI port 3, but no reader finds it; a
    note that is late for the second block is found in that port. *)
Lemma run_late_event_delivered_or_dropped_witness :
  (let st := Example.late_first in
   let rt := 2 * Example.ms in
   ~ In (1 * Example.ms) (keys (m_eventBuffer (run rt st)))
   /\ exists p,
        let event := midi_event 0 (m_midiEventUrid st)
                                (snd (snd_midi_event_decode p Example.noteOn)) in
        In (CallAppendEvent 3 event) (new_calls st (run rt st))
        /\ In (CallRun (plugin_input (drained rt st)) (m_blockSize st))
              (new_calls st (run rt st))
        /\ Forall (fun ap => ~ In event (lv2_atom_sequence_foreach (atomSeq ap)))
                  (m_atomInputPorts (plugin_input (drained rt st))))
  /\ (let st := Example.late_second in
      let rt := 12 * Example.ms in
      exists p,
        let event := midi_event 0 (m_midiEventUrid st)
                                (snd (snd_midi_event_decode p Example.noteOn)) in
        In (CallRun (plugin_input (drained rt st)) (m_blockSize st))
           (new_calls st (run rt st))
        /\ Forall (fun ap => isMidi ap = true ->
                             In event (lv2_atom_sequence_foreach (atomSeq ap)))
                  (m_atomInputPorts (plugin_input (drained rt st)))).
Proof.
  split; cbv zeta.
  - destruct (run_late_event_delivered_or_dropped
                (2 * Example.ms) Example.late_first (1 * Example.ms) Example.noteOn
                ltac:(vm_compute; reflexivity) ltac:(now vm_compute)
                example_decoder_bounded ltac:(vm_compute; now left) ltac:(now vm_compute))
      as [_ Hrun].
    assert (Hexit : drain_exit (run_drain (2 * Example.ms) Example.late_first) = DrainDone)
      by (vm_compute; reflexivity).
    rewrite Hexit in Hrun. destruct Hrun as (Hgone & Hcall & _ & Hdrop).
    destruct (Hdrop late_first_initialised) as (p & _ & Hoffer & _ & Hnot).
    split; [exact Hgone|]. exists p.
    assert (Hidx : midi_indices (m_atomInputPorts (m_buffers Example.late_first)) = [3])
      by (vm_compute; reflexivity).
    rewrite Hidx in Hoffer. apply Forall_cons in Hoffer as [Hoffer _].
    split; [exact Hoffer|]. split; [exact Hcall | exact Hnot].
  - destruct (run_late_event_delivered_or_dropped
                (12 * Example.ms) Example.late_second (9 * Example.ms) Example.noteOn
                ltac:(vm_compute; reflexivity) ltac:(now vm_compute)
                example_decoder_bounded ltac:(vm_compute; now left) ltac:(now vm_compute))
      as [_ Hrun].
    assert (Hexit : drain_exit (run_drain (12 * Example.ms) Example.late_second) = DrainDone)
      by (vm_compute; reflexivity).
    rewrite Hexit in Hrun. destruct Hrun as (_ & Hcall & Hstore & _).
    assert (Hlen : Z.of_nat (length (m_eventBuffer Example.late_second)) <= 6666)
      by (vm_compute; discriminate).
    destruct (Hstore late_second_cleared Hlen) as (p & _ & _ & Hfound).
    exists p. split; [exact Hcall | exact Hfound].
Defined.

Lemma sendEvent_order_is_immaterial_witness :
  sendEvents [(1 * Example.ms, Example.noteOn); (3 * Example.ms, Example.noteOff)]
             Example.stereo
  = sendEvents [(3 * Example.ms, Example.noteOff); (1 * Example.ms, Example.noteOn)]
               Example.stereo.
Proof.
  apply sendEvent_order_is_immaterial.
  - apply perm_swap.
  - apply NoDup_cons. split; [|apply NoDup_singleton].
    intros Hin. apply list_elem_of_In in Hin. destruct Hin as [Hin|[]]. discriminate Hin.
Defined.

Lemma channel_count_is_fixed_at_construction_witness :
  let st := setIdealChannelCount 1 (run 0 Example.with_notes) in
  m_channelCount st = 2
  /\ setIdealChannelCount 2 st = st
  /\ In CallFree (new_calls st (setIdealChannelCount 1 st)).
Proof.
  intros st.
  destruct (channel_count_is_fixed_at_construction 1 0 1000 4 2 Example.mono_uri st)
    as (_ & Hcount & Hsame & Hagain).
  - apply becomes_setIdealChannelCount, becomes_run.
    do 3 apply becomes_sendEvent. apply becomes_refl.
  - split; [exact Hcount|]. split; [exact Hsame|].
    destruct (Hagain 1 ltac:(lia)) as [Hfree _]. exact Hfree.
Defined.

Lemma run_does_not_check_isOK_witness :
  isOK Example.broken = false
  /\ m_run (run 0 Example.broken) = true
  /\ exists b, In (CallRun b 4) (new_calls Example.broken (run 0 Example.broken)).
Proof.
  assert (Hnone : lilv_plugin_instantiate Example.broken_uri 1000 = None)
    by (vm_compute; reflexivity).
  destruct (run_does_not_check_isOK 1 0 1000 4 2 Example.broken_uri 0 Hnone)
    as (Hok & _ & Hrun & Hcall).
  split; [exact Hok|]. split; [exact Hrun | exact Hcall].
Defined.

Section SynthExamples.
#[local] Existing Instance Synth.plugin.
#[local] Existing Instance Synth.utils.

Lemma synth_after_block_cleared :
  Forall cleared (m_atomInputPorts (m_buffers Synth.after_block)).
Proof.
  unfold Synth.after_block. rewrite sendEvent_buffers.
  apply run_done_clears_inputs. vm_compute. reflexivity.
Qed.

Lemma getControlValues_copy_the_maps_witness :
  getControlInValues [(7, float_zero)] Synth.fresh = m_controlPortsIn (m_buffers Synth.fresh)
  /\ getControlOutValues [(7, float_zero)] Synth.fresh
     = m_controlPortsOut (m_buffers Synth.fresh).
Proof.
  destruct (getControlValues_copy_the_maps [(7, float_zero)] Synth.fresh) as [Hin Hout].
  split; [apply Hin | apply Hout]; vm_compute; reflexivity.
Defined.

Lemma run_hands_the_plugin_what_it_took_witness :
  let st := Synth.after_block in
  let rt := 4 * Example.ms in
  exists consumed events,
    m_eventBuffer st = consumed ++ m_eventBuffer (run rt st)
    /\ Forall2 (fun a a' =>
                  index a' = index a /\ isMidi a' = isMidi a
                  /\ seq_events (atomSeq a') = if isMidi a then events else [])
               (m_atomInputPorts (m_buffers st))
               (m_atomInputPorts (plugin_input (drained rt st))).
Proof.
  intros st rt.
  destruct (run_hands_the_plugin_what_it_took rt st example_decoder_bounded
              synth_after_block_cleared ltac:(vm_compute; discriminate))
    as (consumed & events & Hq & _ & Hports & _).
  exists consumed, events. split; [exact Hq | exact Hports].
Defined.

Lemma getLatency_runs_one_silent_block_witness :
  let st := Synth.with_signal in
  let st' := snd (getLatency 2 st) in
  m_eventBuffer st' = m_eventBuffer (run 0 st)
  /\ (exists b, In (CallRun b 4) (new_calls st st')
                /\ m_inputBuffers b = replicate 2 (zero_buffer 4))
  /\ m_run st' = true
  /\ forall n, getLatency n st' = getLatency 2 st.
Proof.
  intros st st'.
  destruct (getLatency_runs_one_silent_block 2 4 st eq_refl eq_refl)
    as (Hq & Hsilent & Hdone).
  split; [exact Hq|]. split.
  - apply Hsilent; [reflexivity | | reflexivity].
    repeat constructor.
  - exact Hdone.
Defined.

Lemma setPortByteArray_reaches_the_plugin_witness :
  let st := Synth.after_block in
  let rt := 4 * Example.ms in
  let event := mkAtomEvent 0 2 7 [9; 9] in
  exists st1 consumed events,
    setPortByteArray 0 m_atomTransferUrid Synth.blob st = Some st1
    /\ m_eventBuffer st = consumed ++ m_eventBuffer (run rt st1)
    /\ Forall2 (fun a a' =>
                  index a' = index a /\ isMidi a' = isMidi a
                  /\ seq_events (atomSeq a')
                     = (if index a =? 0 then [event] else [])
                       ++ (if isMidi a then events else []))
               (m_atomInputPorts (m_buffers st))
               (m_atomInputPorts (plugin_input (drained rt st1))).
Proof.
  intros st rt event.
  destruct (setPortByteArray_reaches_the_plugin 0 Synth.blob event rt st
              example_decoder_bounded)
    as (st1 & consumed & events & Hset & Hq & _ & Hports & _).
  - vm_compute. apply NoDup_singleton.
  - exact synth_after_block_cleared.
  - vm_compute. now left.
  - reflexivity.
  - vm_compute. discriminate.
  - exists st1, consumed, events. split; [exact Hset|]. split; [exact Hq | exact Hports].
Defined.


Lemma constructor_restores_the_default_state_witness :
  getPortValue 3 Synth.fresh = clamp (f32_of_Z 0 0) (f32_of_Z 1 0) (float_of_int 2).
Proof.
  destruct (constructor_restores_the_default_state 2 1 1000 4 2 Synth.synth_uri)
    as (_ & Hvalue).
  - apply NoDup_singleton.
  - apply (Hvalue 0%nat 3
             (mkPortData "level" LV2CONTROL LV2FLOAT true (f32_of_Z 0 0) (f32_of_Z 1 0)));
      try reflexivity. lia.
Defined.

Lemma failed_instantiate_is_not_kept_from_run_witness :
  isOK Synth.broken = false
  /\ m_latencyPort Synth.broken = Some 4
  /\ let st' := snd (getLatency 2 Synth.broken) in
     isOK st' = false
     /\ m_run st' = true
     /\ exists b, In (CallRun b 4) (new_calls Synth.broken st').
Proof.
  assert (Hnone : lilv_plugin_instantiate Synth.broken_uri 1000 = None)
    by (vm_compute; reflexivity).
  destruct (failed_instantiate_is_not_kept_from_run 2 1 1000 4 2 Synth.broken_uri Hnone)
    as (Hok & _ & _ & _ & Hlatency).
  assert (Hport : m_latencyPort Synth.broken = Some 4) by (vm_compute; reflexivity).
  split; [exact Hok|]. split; [exact Hport|]. exact (Hlatency 4 2 Hport).
Defined.

(** The second environment, evaluated: the int 2 of the default state is
    clamped to 1.0; the first latency query runs the block, reads 64 and
    takes the pending note from the queue; of the two events the plugin
    leaves in its atom output only the one that is not a MIDI event is
    passed on. *)
Lemma synth_examples :
  getPortValue 3 Synth.fresh = f32_of_Z 1 0
  /\ fst (getLatency 2 Synth.with_signal) = Some 64
  /\ m_eventBuffer (snd (getLatency 2 Synth.with_signal)) = []
  /\ forwarded (new_calls Synth.fresh (run 0 Synth.fresh)) = [(5, Synth.notice)].
Proof. vm_compute. repeat split. Qed.

End SynthExamples.

Section QuietExamples.
#[local] Existing Instance Quiet.plugin.
#[local] Existing Instance Quiet.utils.

Lemma quiet_plugin_output (st : LV2PluginInstance) : plugin_output st = plugin_input st.
Proof. unfold plugin_output. now destruct (m_instance st). Qed.

Lemma quiet_outputs :
  m_atomOutputPorts (m_buffers Quiet.fresh)
  = [new_atom_port 0 (mkPortData "notify" LV2CONTROL LV2ATOM false float_zero float_zero)].
Proof. unfold Quiet.fresh. rewrite construct_atom_outputs. reflexivity. Qed.

Lemma quiet_outputs_initialised :
  Forall as_initialised (m_atomOutputPorts (m_buffers Quiet.fresh)).
Proof. unfold Quiet.fresh. rewrite construct_atom_outputs. apply atom_ports_initialised. Qed.

(** The plugin that leaves its atom output as it finds it: in the first
    block every event of the zeroed buffer is passed on for port 0. *)
Lemma run_forwards_the_non_midi_output_witness :
  forwarded (new_calls Quiet.fresh (run 0 Quiet.fresh))
  = map (fun ev => (0, ev)) zeroed_body
  /\ Z.of_nat (length zeroed_body) = 49999.
Proof.
  destruct (run_forwards_the_non_midi_output 0 Quiet.fresh) as (_ & _ & Hall).
  split.
  - rewrite Hall.
    + rewrite quiet_outputs. cbn [flat_map]. rewrite app_nil_r. reflexivity.
    + vm_compute. reflexivity.
    + exact quiet_outputs_initialised.
    + now rewrite quiet_plugin_output.
    + now vm_compute.
  - unfold zeroed_body. rewrite length_replicate. vm_compute. reflexivity.
Defined.

End QuietExamples.
